(** * WaterWorld5: session formation, relay and seeded terrain streaming

    A shallow embedding of the two subsystems the design document covers:

    - [NetworkWorker]: the leader side of `networkWorker.js` (the handlers
      that `tryBecomeBase` installs on the rendezvous peer and on the
      peer's own endpoint), and the reactions of the joining side
      (`joinChain`, `connectToHost`);
    - [SeededRandom]: `seededRandom.js`;
    - [UnifiedTerrain]: `hash2D`, the constructor, the chunk cache with
      the buffers of a chunk, the seed synchronisation, the regeneration
      transition and `remove` of `unifiedTerrain.js`, and the trench pass
      of `generateTerrainHeight`;
    - [RegeneratedHeight]: `generateTerrainHeightWithSeed`;
    - [TerrainGenerator], [Game]: the two callers that drive a generator,
      `generateNeighboringPlanes` and `receiveHostTerrainSeed`.

    Numbers.  JavaScript numbers are IEEE doubles.  Integer quantities
    (chunk indices, loop counters, seeds) are [Z] or [nat]; every other
    number is a real ([R]), so rounding is outside the model.  The two
    places where a double is not a real are written out where they occur:
    a division by zero and a read past the end of an array.  `hash2D`
    multiplies integers beyond 2^53 and reduces them to 32 bits, so there
    the rounding of a product to a double is part of the model. *)

From Stdlib Require Import Reals Lra Lia ZArith.
From stdpp Require Import gmap strings list.

(* ===================================================================== *)
(** * networkWorker.js *)
(* ===================================================================== *)

Module NetworkWorker.

(** A [PeerIdentity] is the string PeerJS addresses a peer by.  A
    connection is a JavaScript object; the code only compares connections
    with [===] and reads their [open] flag, so a connection is its identity
    and the flag lives in the environment ([opened] below). *)
Abbreviation PeerId := string (only parsing).
Abbreviation Conn := nat (only parsing).

(** What arrives in a [conn.on('data')] callback, by [data.type]. *)
Inductive Packet : Type :=
  | join (peerId : PeerId)
  | join_host (peerId : PeerId)
  | message (peerId : PeerId) (payload : string)
  | player_state (peerId : PeerId) (payload : string)
  | unknown.

(** What the worker sends on a connection. *)
Inductive Reply : Type :=
  | lobby_full
  | redirect_to_host (hostId : PeerId) (currentPlayers totalPlayers : nat)
  | waiting (current total : nat)
  | host_ready (hostId : PeerId) (allPlayers : list PeerId)
  | relayed (data : Packet).

(** Observable effects of a handler, in program order.  The
    `logChainEvent`, `updateConnectionStatus` and `updateUI` posts carry no
    protocol state and are left out. *)
Inductive Effect : Type :=
  | send (c : Conn) (r : Reply)
  | close (c : Conn)
  | networkData (data : Packet).

#[global] Instance Packet_eq_dec : EqDecision Packet.
Proof. solve_decision. Defined.
#[global] Instance Reply_eq_dec : EqDecision Reply.
Proof. solve_decision. Defined.
#[global] Instance Effect_eq_dec : EqDecision Effect.
Proof. solve_decision. Defined.

(** The module-level variables of the worker. *)
Record Worker : Type := mkWorker {
  myPeerId : PeerId;
  isBase : bool;
  lobbyConnectedPeers : list PeerId;
  (** a plain object used as a map; `for..in` and `Object.entries` visit
      string keys in insertion order, so it is an association list with
      one entry per key *)
  lobbyPeerConnections : list (PeerId * Conn);
  lobbyFull : bool;
  LOBBY_SIZE : nat
}.

(** `lobbyPeerConnections[pid]` *)
Fixpoint tracked (conns : list (PeerId * Conn)) (pid : PeerId) : option Conn :=
  match conns with
  | [] => None
  | (p, c) :: rest => if decide (p = pid) then Some c else tracked rest pid
  end.

(** `lobbyPeerConnections[pid] = conn`: an existing key keeps its place, a
    new key goes last. *)
Fixpoint track (conns : list (PeerId * Conn)) (pid : PeerId) (conn : Conn)
  : list (PeerId * Conn) :=
  match conns with
  | [] => [(pid, conn)]
  | (p, c) :: rest =>
      if decide (p = pid) then (p, conn) :: rest else (p, c) :: track rest pid conn
  end.

(** `delete lobbyPeerConnections[pid]` *)
Definition untrack (conns : list (PeerId * Conn)) (pid : PeerId)
  : list (PeerId * Conn) :=
  filter (λ e, e.1 ≠ pid) conns.

(** `idx = arr.indexOf(pid); if (idx > -1) arr.splice(idx, 1)` *)
Fixpoint splice_first (pid : PeerId) (l : list PeerId) : list PeerId :=
  match l with
  | [] => []
  | p :: rest => if decide (p = pid) then rest else p :: splice_first pid rest
  end.

(** The `for (const pid in lobbyPeerConnections)` search of the close
    handler: the first key whose connection is [conn]. *)
Fixpoint owner_of (conns : list (PeerId * Conn)) (conn : Conn) : option PeerId :=
  match conns with
  | [] => None
  | (p, c) :: rest => if decide (c = conn) then Some p else owner_of rest conn
  end.

Section Handlers.

(** The connections whose [open] flag is set when the handler runs. *)
Variable openConns : list Conn.

Definition is_open (c : Conn) : bool := bool_decide (c ∈ openConns).

(** `x && x.open` on a looked-up connection *)
Definition tracked_open (conns : list (PeerId * Conn)) (pid : PeerId) : bool :=
  match tracked conns pid with
  | Some c => is_open c
  | None => false
  end.

(** The `host_ready` loop: `for (let i = 1; i < roster.length; i++)`. *)
Definition notify_ready (w : Worker) (roster : list PeerId)
    (conns : list (PeerId * Conn)) : list Effect :=
  omap (λ peerId, (λ c, send c (host_ready (myPeerId w) roster)) <$> tracked conns peerId)
       (drop 1 roster).

(** `data.type === 'join_host'`, lines 111-149. *)
Definition on_join_host (w : Worker) (conn : Conn) (peerId : PeerId)
  : Worker * list Effect :=
  let roster := lobbyConnectedPeers w in
  let conns := lobbyPeerConnections w in
  let included := bool_decide (peerId ∈ roster) in
  if included &&
     match tracked conns peerId with
     | Some c => bool_decide (c ≠ conn) && is_open c
     | None => false
     end
  then (w, [send conn (waiting (length roster) (LOBBY_SIZE w))])
  else
    let roster' := if included then roster else roster ++ [peerId] in
    let conns' := if tracked_open conns peerId then conns else track conns peerId conn in
    if decide (length roster' = LOBBY_SIZE w) then
      (mkWorker (myPeerId w) (isBase w) roster' conns' true (LOBBY_SIZE w),
       notify_ready w roster' conns')
    else
      (mkWorker (myPeerId w) (isBase w) roster' conns' (lobbyFull w) (LOBBY_SIZE w),
       [send conn (waiting (length roster') (LOBBY_SIZE w))]).

(** `data.type === 'message' || data.type === 'player_state'`,
    lines 150-159: the relay loop, then the post to the main thread. *)
Definition relay_targets (w : Worker) (sender : PeerId) : list (PeerId * Conn) :=
  filter (λ e, e.1 ≠ sender ∧ is_open e.2 = true) (lobbyPeerConnections w).

Definition on_relay (w : Worker) (sender : PeerId) (data : Packet)
  : Worker * list Effect :=
  (w, ((λ e, send e.2 (relayed data)) <$> relay_targets w sender) ++ [networkData data]).

(** The `data` handler installed by `peer.on('connection')`. *)
Definition on_data (w : Worker) (conn : Conn) (data : Packet)
  : Worker * list Effect :=
  match data with
  | join_host peerId => on_join_host w conn peerId
  | message peerId _ => on_relay w peerId data
  | player_state peerId _ => on_relay w peerId data
  | _ => (w, [])
  end.

(** The `data` handler installed by `basePeer.on('connection')`,
    lines 75-92: discovery requests. *)
Definition on_discovery (w : Worker) (conn : Conn) (data : Packet)
  : Worker * list Effect :=
  match data with
  | join _ =>
      if lobbyFull w || bool_decide (LOBBY_SIZE w ≤ length (lobbyConnectedPeers w))
      then (w, [send conn lobby_full; close conn])
      else (w, [send conn (redirect_to_host (myPeerId w)
                             (length (lobbyConnectedPeers w)) (LOBBY_SIZE w));
                close conn])
  | _ => (w, [])
  end.

End Handlers.

(** The `close` handler installed by `peer.on('connection')`,
    lines 161-189.  `if (disconnectedPeerId)` is also false for the empty
    string. *)
Definition on_close (w : Worker) (conn : Conn) : Worker :=
  match owner_of (lobbyPeerConnections w) conn with
  | Some pid =>
      if decide (pid = EmptyString) then w
      else if decide (tracked (lobbyPeerConnections w) pid = Some conn) then
        mkWorker (myPeerId w) (isBase w)
                 (splice_first pid (lobbyConnectedPeers w))
                 (untrack (lobbyPeerConnections w) pid)
                 (if lobbyFull w then false else lobbyFull w)
                 (LOBBY_SIZE w)
      else w
  | None => w
  end.

(** `onmessage` with `type === 'init'` followed by `tryBecomeBase()`:
    `LOBBY_SIZE = lobbySize || LOBBY_SIZE` over the initial value 3. *)
Definition tryBecomeBase (w : Worker) : Worker :=
  mkWorker (myPeerId w) true [myPeerId w] [] false (LOBBY_SIZE w).

Definition init (id : PeerId) (lobbySize : nat) : Worker :=
  tryBecomeBase
    (mkWorker id false [] [] false (if decide (lobbySize = 0) then 3 else lobbySize)).

(** ** The leader as a transition system

    The environment opens and shuts connections; the worker reacts to data
    on a direct connection, to data on a rendezvous connection and to close
    events.  `joinChain` and `connectToHost` call `tryBecomeBase` again
    after a `lobby_full` reply or a failed discovery ([ev_retry]); it
    installs the handlers once more, and the model runs each handler once
    per event. *)
Inductive Event : Type :=
  | ev_open (c : Conn)
  | ev_shut (c : Conn)
  | ev_data (c : Conn) (data : Packet)
  | ev_discovery (c : Conn) (data : Packet)
  | ev_close (c : Conn)
  | ev_retry.

Record Session : Type := mkSession {
  worker : Worker;
  opened : list Conn
}.

Definition step (s : Session) (e : Event) : Session :=
  match e with
  | ev_open c => mkSession (worker s) (c :: opened s)
  | ev_shut c => mkSession (worker s) (filter (λ c', c' ≠ c) (opened s))
  | ev_data c data => mkSession (on_data (opened s) (worker s) c data).1 (opened s)
  | ev_discovery c data => mkSession (on_discovery (worker s) c data).1 (opened s)
  | ev_close c => mkSession (on_close (worker s) c) (opened s)
  | ev_retry => mkSession (tryBecomeBase (worker s)) (opened s)
  end.

Definition run (s : Session) (es : list Event) : Session := foldl step s es.

(** A direct request is only delivered on an open connection. *)
Definition enabled (s : Session) (e : Event) : Prop :=
  match e with
  | ev_data c _ | ev_discovery c _ => c ∈ opened s
  | _ => True
  end.

Inductive reachable (id : PeerId) (lobbySize : nat) : Session → Prop :=
  | reach_init : reachable id lobbySize (mkSession (init id lobbySize) [])
  | reach_step s e :
      reachable id lobbySize s → enabled s e → reachable id lobbySize (step s e).

(** ** Traces *)

#[global] Instance enabled_dec s e : Decision (enabled s e).
Proof. destruct e; simpl; apply _. Defined.

(** Every event of [es] is enabled when its turn comes. *)
Fixpoint feasible (s : Session) (es : list Event) : Prop :=
  match es with
  | [] => True
  | e :: es' => enabled s e ∧ feasible (step s e) es'
  end.

#[global] Instance feasible_dec s es : Decision (feasible s es).
Proof. revert s; induction es; simpl; intros; apply _. Defined.

(** The trace of the lobby-reopening scenario with capacity 2: B joins
    leader A on connection 1, that connection closes, C joins on
    connection 2. *)
Definition reopening : list Event :=
  [ev_open 1; ev_data 1 (join_host "B");
   ev_shut 1; ev_close 1;
   ev_open 2; ev_data 2 (join_host "C")].

(** Capacity 3: A and B fill the lobby of leader M, then C sends
    `join_host` as well (it was redirected while the lobby still had
    room); afterwards C's connection closes. *)
Definition late_join : list Event :=
  [ev_open 1; ev_data 1 (join_host "A");
   ev_open 2; ev_data 2 (join_host "B");
   ev_open 3; ev_data 3 (join_host "C")].

Definition late_join_then_leave : list Event :=
  late_join ++ [ev_shut 3; ev_close 3].

(** ** The joining side: `joinChain` and `connectToHost`

    What a joining worker does when a reply arrives, in program order.
    The status and log posts are left out, as on the leader's side. *)
Inductive ClientAction : Type :=
  | act_close
  | act_connectToHost (hostId : PeerId)
  | act_tryBecomeBase (delay : nat)
  | act_updateUI (lobbyPeers : list PeerId)
  | act_networkData (data : Packet).

#[global] Instance ClientAction_eq_dec : EqDecision ClientAction.
Proof. solve_decision. Defined.

(** The `data` handler of `joinChain`, lines 204-217. *)
Definition joinChain_on_data (data : Reply) : list ClientAction :=
  match data with
  | redirect_to_host hostId _ _ => [act_close; act_connectToHost hostId]
  | lobby_full => [act_close; act_tryBecomeBase 2000]
  | _ => []
  end.

(** The `data` handler of `connectToHost`, lines 235-257, over its local
    variable `lobbyPeers`. *)
Definition connectToHost_on_data (lobbyPeers : list PeerId) (data : Reply)
  : list PeerId * list ClientAction :=
  match data with
  | host_ready _ allPlayers => (allPlayers, [act_updateUI allPlayers])
  | waiting _ _ => (lobbyPeers, [act_updateUI lobbyPeers])
  | lobby_full => (lobbyPeers, [act_close; act_tryBecomeBase 1000])
  | relayed (message _ _ as data) | relayed (player_state _ _ as data) =>
      (lobbyPeers, [act_networkData data])
  | _ => (lobbyPeers, [])
  end.

(** A peer sends `join_host` under the leader's own identity and its
    connection closes. *)
Definition impersonation : list Event :=
  [ev_open 1; ev_data 1 (join_host "M"); ev_shut 1; ev_close 1].

End NetworkWorker.

(* ===================================================================== *)
(** * JavaScript numbers as reals *)
(* ===================================================================== *)

Module JsNumber.

#[global] Instance Rlt_decision : RelDecision Rlt := Rlt_dec.
#[global] Instance Rle_decision : RelDecision Rle := Rle_dec.
#[global] Instance Req_decision : EqDecision R := Req_dec_T.

(** `Math.floor` and `Math.ceil` *)
Definition floor (r : R) : Z := Int_part r.
Definition ceil (r : R) : Z := (- Int_part (- r))%Z.

(** `Math.pow(base, exponent)` for a base that is not negative and a
    positive exponent, the only use the trench pass makes of it. *)
Definition pow (base exponent : R) : R :=
  if decide (base = 0%R) then 0%R else Rpower base exponent.

(** How a statement can end.  [TypeError] is the exception JavaScript
    raises on a property read of `null` or `undefined`.  [NonReal] marks
    the two places where the doubles leave the reals: a quotient by zero
    and an arithmetic operand read past the end of an array (`undefined`,
    hence `NaN`); the model follows the program no further there. *)
Inductive Outcome (A : Type) : Type :=
  | Done (a : A)
  | TypeError
  | NonReal.
#[global] Arguments Done {A} a.
#[global] Arguments TypeError {A}.
#[global] Arguments NonReal {A}.

Definition bind {A B : Type} (o : Outcome A) (f : A → Outcome B) : Outcome B :=
  match o with
  | Done a => f a
  | TypeError => TypeError
  | NonReal => NonReal
  end.

Definition throws {A : Type} (o : Outcome A) : bool :=
  match o with TypeError => true | _ => false end.

Definition completes {A : Type} (o : Outcome A) : bool :=
  match o with Done _ => true | _ => false end.

(** `Math.round`: the nearest integer, a half rounded up. *)
Definition round (r : R) : Z := floor (r + 1 / 2).

(** ** Integer-valued numbers and the bit operators

    A number that holds an integer is a [Z].  A product of two integers
    is the exact product rounded to the nearest double (53 significant
    bits, a tie to the even one); the bit operators first reduce their
    operands to 32 bits. *)
Definition roundDouble (n : Z) : Z :=
  let e := (Z.log2 (Z.abs n) - 52)%Z in
  if (e <=? 0)%Z then n
  else
    let q := (2 ^ e)%Z in
    let lo := (n / q * q)%Z in
    let r := (n - lo)%Z in
    if (2 * r <? q)%Z then lo
    else if (q <? 2 * r)%Z then (lo + q)%Z
    else if Z.even (n / q) then lo else (lo + q)%Z.

(** `a * b` *)
Definition numberMul (a b : Z) : Z := roundDouble (a * b).

Definition ToInt32 (n : Z) : Z := ((n + 2 ^ 31) mod 2 ^ 32 - 2 ^ 31)%Z.
Definition ToUint32 (n : Z) : Z := (n mod 2 ^ 32)%Z.

(** `a ^ b`, `a >> n` and `a >>> 0` *)
Definition bitXor (a b : Z) : Z := Z.lxor (ToInt32 a) (ToInt32 b).
Definition shiftRight (a n : Z) : Z := Z.shiftr (ToInt32 a) n.
Definition unsigned (a : Z) : Z := ToUint32 a.

End JsNumber.

(* ===================================================================== *)
(** * seededRandom.js *)
(* ===================================================================== *)

Module SeededRandom.
Import JsNumber.
#[local] Open Scope R_scope.

(** `seededRandom(seed)` returns a closure over one variable, [x]; a
    stream is the current value of that variable. *)
Definition seededRandom (seed : R) : R := sin seed * 10000.

(** One call of the closure: the value returned and the new [x]. *)
Definition next (x : R) : R * R :=
  let x' := sin x * 10000 in
  (x' - IZR (floor x'), x').

(** The closure's variable after [n] calls, and the draw of index [n]
    (the first call has index 0). *)
Fixpoint after (n : nat) (x : R) : R :=
  match n with
  | O => x
  | S k => after k (next x).2
  end.

Definition draw (n : nat) (x : R) : R := (next (after n x)).1.

(** Two closures made by two calls of `seededRandom`, called in the order
    [schedule] gives ([true]: the first closure).  Each call is logged with
    the closure it went to and the value it returned. *)
Fixpoint interleave (schedule : list bool) (xa xb : R) : list (bool * R) :=
  match schedule with
  | [] => []
  | true :: rest => (true, (next xa).1) :: interleave rest (next xa).2 xb
  | false :: rest => (false, (next xb).1) :: interleave rest xa (next xb).2
  end.

(** The values one of the two closures returned, in order. *)
Definition returned (who : bool) (log : list (bool * R)) : list R :=
  snd <$> filter (λ e, e.1 = who) log.

End SeededRandom.

(* ===================================================================== *)
(** * unifiedTerrain.js *)
(* ===================================================================== *)

Module UnifiedTerrain.
Import JsNumber.
#[local] Open Scope R_scope.

(** `hash2D`, lines 6-12, on integer arguments. *)
Definition hash2D (seed x z : Z) : Z :=
  let h := bitXor (bitXor seed (numberMul x 374761393)) (numberMul z 668265263) in
  let h := numberMul (bitXor h (shiftRight h 13)) 1274126177 in
  let h := bitXor h (shiftRight h 16) in
  unsigned h.

(** `this.terrainSeed`: an integer, or [None] for `undefined`/`null`.
    `!seed` holds for a missing seed and for zero. *)
Abbreviation Seed := (option Z) (only parsing).

Definition truthy (seed : Seed) : bool :=
  match seed with
  | Some s => negb (s =? 0)%Z
  | None => false
  end.

(** ** generateTerrainHeight *)

(** What lines 206-514 leave in `height`, `hasLandMass` and
    `landMassBlend` before the trench pass. *)
Record Surface : Type := mkSurface {
  height : R;
  hasLandMass : bool;
  landMassBlend : R
}.

(** The helper of lines 239-242. *)
Definition smootherstep (edge0 edge1 x : R) : R :=
  let x := Rmax 0 (Rmin 1 ((x - edge0) / (edge1 - edge0))) in
  x * x * x * (x * (x * 6 - 15) + 10).

(** What the loop body has computed for one trench when it reaches the
    footprint test (line 618 for a wide trench, line 699 for a snaking
    one): the position of the sample point along and across the bent
    axis, the local width and length, the depth of the trench, and the
    `rock` and `depthVar` terms that enter `trenchDepth`. *)
Record Trench : Type := mkTrench {
  along : R;
  across : R;
  trenchWidth : R;
  trenchLength : R;
  depth : R;
  rock : R;
  depthVar : R
}.

(** What one iteration of the `tx`/`tz` loops computes when the cell's
    wide trench is present (line 542): the roughness subtracted from the
    running depth at line 609 (0 when `trenchMountainFactor <= 0.6`), the
    wide trench, and the snaking trench if it is present (line 647). *)
Record TrenchCell : Type := mkTrenchCell {
  floorRoughness : R;
  wideTrench : Trench;
  snakeTrench : option Trench
}.

(** The closed-form layers of the height field.  They are pure functions
    of the seed and the sample point (every draw comes from a stream
    re-seeded from `hash2D` inside the call); their formulas are not
    embedded.  [trenchCell seed x z tx tz] is [None] when the test of
    line 542 fails. *)
Class HeightLayers : Type := {
  surfaceLayers : Z → R → R → Surface;
  trenchCell : Z → R → R → Z → Z → option TrenchCell;
  generateTerrainHeightWithSeed : R → R → option Z → R
}.

(** Lines 618-642 (with exponent 0.18) and 699-721 (with exponent 0.22):
    inside the footprint, blend the trench against the running depth and
    keep it if its blend is larger or the blended depth is lower. *)
Definition carve (exponent : R) (running : R * R) (c : Trench) : R * R :=
  let trenchFinalBlend := running.1 in
  let trenchFinalDepth := running.2 in
  if bool_decide (Rabs (along c) < trenchLength c / 2)
     && bool_decide (Rabs (across c) < trenchWidth c)
  then
    let core := 1 - Rabs (across c) / trenchWidth c in
    let endBlend := smootherstep 0 1 (1 - Rabs (along c) / (trenchLength c / 2)) in
    let blend := pow (smootherstep 0 1 core) exponent * endBlend in
    let trenchDepth := depth c + rock c * blend + depthVar c in
    let blended := trenchDepth * blend + trenchFinalDepth * (1 - blend) in
    if bool_decide (trenchFinalBlend < blend) || bool_decide (blended < trenchFinalDepth)
    then (blend, blended)
    else running
  else running.

(** The body of the `tx`/`tz` loops, lines 531-723. *)
Definition carveCell (running : R * R) (cell : option TrenchCell) : R * R :=
  match cell with
  | None => running
  | Some c =>
      let r1 := (running.1, running.2 - floorRoughness c) in
      let r2 := carve 0.18 r1 (wideTrench c) in
      from_option (carve 0.22 r2) r2 (snakeTrench c)
  end.

(** The trench pass over the cells in visiting order, from
    `trenchFinalBlend = 0`, `trenchFinalDepth = height`. *)
Definition trenchPass (height : R) (cells : list (option TrenchCell)) : R :=
  (foldl carveCell (0, height) cells).2.


Section Height.
Context `{HeightLayers}.

(** `for tx = -2..2, for tz = -2..2` *)
Definition trenchCells (seed : Z) (x z : R) : list (option TrenchCell) :=
  tx ← seqZ (-2) 5; tz ← seqZ (-2) 5; [trenchCell seed x z tx tz].

Definition generateTerrainHeight (terrainSeed : Seed) (x z : R) : R :=
  match terrainSeed with
  | Some seed =>
      if (seed =? 0)%Z then 0
      else
        let s := surfaceLayers seed x z in
        if hasLandMass s && bool_decide (0.5 < landMassBlend s) then height s
        else trenchPass (height s) (trenchCells seed x z)
  | None => 0
  end.

End Height.

(** ** The generator's state *)

(** `positions[3i]`, `positions[3i+1]`, `positions[3i+2]` of the mesh's
    position attribute. *)
Record Vertex : Type := mkVertex { vx : R; vy : R; vz : R }.

Record Mesh : Type := mkMesh { position : list Vertex }.

Record Chunk : Type := mkChunk {
  mesh : option Mesh;
  chunkX : Z;
  chunkZ : Z;
  originalHeights : list R
}.

(** The key `${chunkX},${chunkZ}` of `terrainChunks` and of the two
    transition objects determines the pair of integers and conversely. *)
Abbreviation Key := (Z * Z)%type (only parsing).

Record Vector3 : Type := mkVector3 { x : R; y : R; z : R }.

Record Terrain : Type := mkTerrain {
  terrainChunks : gmap (Z * Z) Chunk;
  chunkSize : R;
  chunkResolution : nat;
  renderDistance : R;
  wavePhase : R;
  waveSpeed : R;
  waveAmp : R;
  waveFreq : R;
  terrainSeed : option Z;
  _regenLerpActive : bool;
  _regenLerpTime : R;
  _regenLerpDuration : R;
  _regenOldHeights : gmap (Z * Z) (list R);
  _regenNewHeights : gmap (Z * Z) (list R);
  _regenSeed : option Z
}.

Definition set_terrainChunks (m : gmap (Z * Z) Chunk) (t : Terrain) : Terrain :=
  mkTerrain m (chunkSize t) (chunkResolution t) (renderDistance t)
    (wavePhase t) (waveSpeed t) (waveAmp t) (waveFreq t) (terrainSeed t)
    (_regenLerpActive t) (_regenLerpTime t) (_regenLerpDuration t)
    (_regenOldHeights t) (_regenNewHeights t) (_regenSeed t).

Definition set_wavePhase (p : R) (t : Terrain) : Terrain :=
  mkTerrain (terrainChunks t) (chunkSize t) (chunkResolution t) (renderDistance t)
    p (waveSpeed t) (waveAmp t) (waveFreq t) (terrainSeed t)
    (_regenLerpActive t) (_regenLerpTime t) (_regenLerpDuration t)
    (_regenOldHeights t) (_regenNewHeights t) (_regenSeed t).

Definition set_terrainSeed (seed : option Z) (t : Terrain) : Terrain :=
  mkTerrain (terrainChunks t) (chunkSize t) (chunkResolution t) (renderDistance t)
    (wavePhase t) (waveSpeed t) (waveAmp t) (waveFreq t) seed
    (_regenLerpActive t) (_regenLerpTime t) (_regenLerpDuration t)
    (_regenOldHeights t) (_regenNewHeights t) (_regenSeed t).

Definition set_regenLerpActive (b : bool) (t : Terrain) : Terrain :=
  mkTerrain (terrainChunks t) (chunkSize t) (chunkResolution t) (renderDistance t)
    (wavePhase t) (waveSpeed t) (waveAmp t) (waveFreq t) (terrainSeed t)
    b (_regenLerpTime t) (_regenLerpDuration t)
    (_regenOldHeights t) (_regenNewHeights t) (_regenSeed t).

Definition set_regenLerpTime (time : R) (t : Terrain) : Terrain :=
  mkTerrain (terrainChunks t) (chunkSize t) (chunkResolution t) (renderDistance t)
    (wavePhase t) (waveSpeed t) (waveAmp t) (waveFreq t) (terrainSeed t)
    (_regenLerpActive t) time (_regenLerpDuration t)
    (_regenOldHeights t) (_regenNewHeights t) (_regenSeed t).

(** The five assignments that end `regenerateTerrain`. *)
Definition set_regen (olds news : gmap (Z * Z) (list R)) (seed : option Z)
    (duration : R) (t : Terrain) : Terrain :=
  mkTerrain (terrainChunks t) (chunkSize t) (chunkResolution t) (renderDistance t)
    (wavePhase t) (waveSpeed t) (waveAmp t) (waveFreq t) (terrainSeed t)
    true 0 duration olds news seed.

(** The constructor, after `window.globalTerrainSeed` has been read or
    drawn: an empty cache and no transition. *)
Definition constructor (globalTerrainSeed : option Z) : Terrain :=
  mkTerrain ∅ 200 32 3200 0 0.8 0.15 0.4 globalTerrainSeed false 0 0 ∅ ∅ None.

(** Apply [f] to every cached chunk, as the `for (const [chunkKey, chunk]
    of this.terrainChunks)` loops do.  The loop raises if some chunk
    raises; a [NonReal] write does not stop the loop, so an exception in a
    later chunk still surfaces. *)
Definition forChunks (f : Z * Z → Chunk → Outcome Chunk) (m : gmap (Z * Z) Chunk)
  : Outcome (gmap (Z * Z) Chunk) :=
  if decide (map_Exists (λ k c, throws (f k c) = true) m) then TypeError
  else if decide (map_Exists (λ k c, completes (f k c) = false) m) then NonReal
  else Done (map_imap (λ k c, match f k c with Done c' => Some c' | _ => None end) m).

Section Generator.
Context `{HeightLayers}.

(** ** createTerrainChunk, lines 89-203 *)

Definition vertexAt (t : Terrain) (chunkX chunkZ : Z) (x z : nat) : Vertex :=
  let worldOffsetX := IZR chunkX * chunkSize t in
  let worldOffsetZ := IZR chunkZ * chunkSize t in
  let px := worldOffsetX + (INR x / INR (chunkResolution t)) * chunkSize t
            - chunkSize t / 2 in
  let pz := worldOffsetZ + (INR z / INR (chunkResolution t)) * chunkSize t
            - chunkSize t / 2 in
  mkVertex px (generateTerrainHeight (terrainSeed t) px pz) pz.

(** `for z = 0..resolution, for x = 0..resolution: vertices.push(px, height, pz)` *)
Definition chunkVertices (t : Terrain) (chunkX chunkZ : Z) : list Vertex :=
  z ← seq 0 (S (chunkResolution t));
  x ← seq 0 (S (chunkResolution t));
  [vertexAt t chunkX chunkZ x z].

(** The colour attribute, the index buffer and the material do not enter
    any later computation and are left out. *)
Definition createTerrainChunk (t : Terrain) (chunkX chunkZ : Z) : Chunk :=
  if truthy (terrainSeed t) then
    let vertices := chunkVertices t chunkX chunkZ in
    mkChunk (Some (mkMesh vertices)) chunkX chunkZ (vy <$> vertices)
  else mkChunk None chunkX chunkZ [].

(** ** updateTerrainChunks, lines 963-1005 *)

Definition chunkRadius (t : Terrain) : Z := ceil (renderDistance t / chunkSize t).

(** `distance <= this.renderDistance` for the offset `(dx, dz)` *)
Definition inRange (t : Terrain) (d : Z * Z) : Prop :=
  sqrt (IZR (d.1 * d.1 + d.2 * d.2)) * chunkSize t <= renderDistance t.

(** `for dx = -chunkRadius..chunkRadius, for dz = -chunkRadius..chunkRadius` *)
Definition offsets (radius : Z) : list (Z * Z) :=
  dx ← seqZ (- radius) (2 * radius + 1);
  dz ← seqZ (- radius) (2 * radius + 1);
  [(dx, dz)].

Definition playerChunk (t : Terrain) (playerPosition : Vector3) : Z * Z :=
  (floor (x playerPosition / chunkSize t), floor (z playerPosition / chunkSize t)).

(** The keys added to `requiredChunks`, in the order of the loops. *)
Definition requiredChunks (t : Terrain) (playerPosition : Vector3) : list (Z * Z) :=
  let pc := playerChunk t playerPosition in
  (λ d, (pc.1 + d.1, pc.2 + d.2)%Z) <$> filter (inRange t) (offsets (chunkRadius t)).

(** `if (!this.terrainChunks.has(chunkKey)) this.terrainChunks.set(...)` *)
Definition ensureChunk (t : Terrain) (m : gmap (Z * Z) Chunk) (key : Z * Z)
  : gmap (Z * Z) Chunk :=
  match m !! key with
  | Some _ => m
  | None => <[key := createTerrainChunk t key.1 key.2]> m
  end.

(** The eviction loop reads `chunk.mesh.geometry` of every cached chunk
    that is not required. *)
Definition updateTerrainChunks (t : Terrain) (playerPosition : Vector3)
  : Outcome Terrain :=
  let required := requiredChunks t playerPosition in
  let created := foldl (ensureChunk t) (terrainChunks t) required in
  if decide (map_Exists (λ key chunk, (key ∉ required) ∧ mesh chunk = None) created)
  then TypeError
  else Done (set_terrainChunks (filter (λ kc, kc.1 ∈ required) created) t).

(** ** animateTerrainChunks, lines 1007-1033 *)

Definition wave (t : Terrain) (v : Vertex) : R :=
  sin (vx v * waveFreq t + vz v * waveFreq t + wavePhase t) * waveAmp t
  + cos (vx v * waveFreq t * 1.3 + wavePhase t * 1.2) * waveAmp t * 0.6.

(** `for i < originalHeights.length: posArray[3i+1] = originalHeights[i] + wave`;
    a write past the end of the typed array is dropped. *)
Fixpoint animateVertices (t : Terrain) (heights : list R) (pos : list Vertex)
  : list Vertex :=
  match heights, pos with
  | baseHeight :: hs, v :: vs =>
      mkVertex (vx v) (baseHeight + wave t v) (vz v) :: animateVertices t hs vs
  | _, _ => pos
  end.

Definition animateChunk (t : Terrain) (chunk : Chunk) : Chunk :=
  match mesh chunk with
  | None => chunk
  | Some m =>
      mkChunk (Some (mkMesh (animateVertices t (originalHeights chunk) (position m))))
              (chunkX chunk) (chunkZ chunk) (originalHeights chunk)
  end.

Definition animateTerrainChunks (t : Terrain) : Terrain :=
  set_terrainChunks (animateChunk t <$> terrainChunks t) t.

(** ** regenerateTerrain, lines 816-836 *)

Definition regenNewHeights (newSeed : option Z) (chunk : Chunk) (m : Mesh)
  : Outcome (list R) :=
  if decide (length (originalHeights chunk) ≤ length (position m))%nat then
    Done ((λ v, generateTerrainHeightWithSeed (vx v) (vz v) newSeed)
            <$> take (length (originalHeights chunk)) (position m))
  else NonReal.

Definition regenChunk (newSeed : option Z) (chunk : Chunk) : Outcome (list R) :=
  match mesh chunk with
  | None => TypeError
  | Some m => regenNewHeights newSeed chunk m
  end.

Definition regenerateTerrain (t : Terrain) (newSeed : option Z) (duration : R)
  : Outcome Terrain :=
  let chunks := terrainChunks t in
  if decide (map_Exists (λ _ c, throws (regenChunk newSeed c) = true) chunks)
  then TypeError
  else if decide (map_Exists (λ _ c, completes (regenChunk newSeed c) = false) chunks)
  then NonReal
  else
    Done (set_regen (originalHeights <$> chunks)
            (omap (λ c, match regenChunk newSeed c with
                        | Done l => Some l
                        | _ => None
                        end) chunks)
            newSeed duration t).

(** ** setTerrainSeedAndRegenerate, lines 63-83 *)

(** `this.terrainChunks` is always a `Map`, so the first `if` is taken:
    the cache is emptied.  `this.rand` is assigned here and never read. *)
Definition setTerrainSeedAndRegenerate (t : Terrain) (seed : option Z) (duration : R)
  : Outcome Terrain :=
  let t1 := set_terrainChunks ∅ t in
  let t2 := set_terrainSeed seed t1 in
  if decide (0 < size (terrainChunks t2))%nat
  then regenerateTerrain t2 seed duration
  else Done t2.

Definition onHostSeedReceived (t : Terrain) (hostSeed : option Z) (duration : R)
  : Outcome Terrain :=
  setTerrainSeedAndRegenerate t hostSeed duration.

(** ** update, lines 780-814 *)

(** `Math.min(1, time / duration)`.  With `duration = 0` the quotient is
    `Infinity` for a positive time, and `NaN` or `-Infinity` otherwise. *)
Definition lerpFactor (time duration : R) : Outcome R :=
  if decide (duration = 0) then
    if decide (0 < time) then Done 1 else NonReal
  else Done (Rmin 1 (time / duration)).

(** `for i < n: positions[3i+1] = oldH[i] + (newH[i] - oldH[i]) * t` *)
Fixpoint lerpVertices (t : R) (n : nat) (olds news : list R) (pos : list Vertex)
  : Outcome (list Vertex) :=
  match n, pos with
  | O, _ => Done pos
  | S _, [] => Done []
  | S n', v :: vs =>
      match olds, news with
      | oldH :: os, newH :: ns =>
          bind (lerpVertices t n' os ns vs)
               (λ vs', Done (mkVertex (vx v) (oldH + (newH - oldH) * t) (vz v) :: vs'))
      | _, _ => NonReal
      end
  end.

Definition lerpChunk (olds news : gmap (Z * Z) (list R)) (t : R)
    (chunkKey : Z * Z) (chunk : Chunk) : Outcome Chunk :=
  match mesh chunk with
  | None => TypeError
  | Some m =>
      match originalHeights chunk with
      | [] => Done chunk
      | _ :: _ =>
          match olds !! chunkKey, news !! chunkKey with
          | Some o, Some n =>
              bind (lerpVertices t (length (originalHeights chunk)) o n (position m))
                   (λ p, Done (mkChunk (Some (mkMesh p)) (chunkX chunk) (chunkZ chunk)
                                       (originalHeights chunk)))
          | _, _ => TypeError
          end
      end
  end.

(** `for i < n: chunk.originalHeights[i] = this._regenNewHeights[chunkKey][i]` *)
Definition adoptChunk (news : gmap (Z * Z) (list R)) (chunkKey : Z * Z) (chunk : Chunk)
  : Outcome Chunk :=
  match originalHeights chunk with
  | [] => Done chunk
  | _ :: _ =>
      match news !! chunkKey with
      | None => TypeError
      | Some n =>
          if decide (length (originalHeights chunk) ≤ length n)%nat then
            Done (mkChunk (mesh chunk) (chunkX chunk) (chunkZ chunk)
                          (take (length (originalHeights chunk)) n))
          else NonReal
      end
  end.

Definition finishLerp (t : Terrain) : Outcome Terrain :=
  bind (forChunks (adoptChunk (_regenNewHeights t)) (terrainChunks t))
       (λ chunks,
          Done (set_regenLerpActive false
                  (set_terrainChunks chunks (set_terrainSeed (_regenSeed t) t)))).

(** The `if (this._regenLerpActive)` block.  The loop raises at a chunk
    without mesh or without transition samples whatever the value of `t`. *)
Definition stepLerp (t : Terrain) (deltaTime : R) : Outcome Terrain :=
  let time := _regenLerpTime t + deltaTime in
  let t1 := set_regenLerpTime time t in
  let olds := _regenOldHeights t1 in
  let news := _regenNewHeights t1 in
  match lerpFactor time (_regenLerpDuration t1) with
  | Done f =>
      bind (forChunks (lerpChunk olds news f) (terrainChunks t1))
           (λ chunks,
              let t2 := set_terrainChunks chunks t1 in
              if decide (1 <= f) then finishLerp t2 else Done t2)
  | _ =>
      if decide (map_Exists (λ k c, throws (lerpChunk olds news 0 k c) = true)
                            (terrainChunks t1))
      then TypeError
      else NonReal
  end.

Definition update (t : Terrain) (deltaTime : R) (playerPosition : Vector3)
  : Outcome Terrain :=
  let t1 := set_wavePhase (wavePhase t + deltaTime * waveSpeed t) t in
  bind (updateTerrainChunks t1 playerPosition)
       (λ t2,
          let t3 := animateTerrainChunks t2 in
          if _regenLerpActive t3 then stepLerp t3 deltaTime else Done t3).

(** ** Calls from outside

    The methods other modules call on a generator, and the states a
    generator goes through when every call returns.  A history is
    _seeded_ when the seed is non-zero at each call that can create
    chunks. *)
Inductive Call : Type :=
  | call_update (deltaTime : R) (playerPosition : Vector3)
  | call_updateTerrainChunks (playerPosition : Vector3)
  | call_animateTerrainChunks
  | call_regenerateTerrain (newSeed : option Z) (duration : R)
  | call_setTerrainSeedAndRegenerate (seed : option Z) (duration : R)
  | call_onHostSeedReceived (hostSeed : option Z) (duration : R).

Definition perform (t : Terrain) (c : Call) : Outcome Terrain :=
  match c with
  | call_update deltaTime playerPosition => update t deltaTime playerPosition
  | call_updateTerrainChunks playerPosition => updateTerrainChunks t playerPosition
  | call_animateTerrainChunks => Done (animateTerrainChunks t)
  | call_regenerateTerrain newSeed duration => regenerateTerrain t newSeed duration
  | call_setTerrainSeedAndRegenerate seed duration =>
      setTerrainSeedAndRegenerate t seed duration
  | call_onHostSeedReceived hostSeed duration => onHostSeedReceived t hostSeed duration
  end.

Definition createsChunks (c : Call) : bool :=
  match c with
  | call_update _ _ | call_updateTerrainChunks _ => true
  | _ => false
  end.

Inductive seededHistory : Terrain → Prop :=
  | history_new (globalTerrainSeed : option Z) :
      seededHistory (constructor globalTerrainSeed)
  | history_call (t t' : Terrain) (c : Call) :
      seededHistory t →
      (createsChunks c = true → truthy (terrainSeed t) = true) →
      perform t c = Done t' →
      seededHistory t'.

End Generator.



(** A height field without features, to run the generator on concrete
    states. *)
Definition flatOcean : HeightLayers :=
  {| surfaceLayers := λ _ _ _, mkSurface 0 false 0;
     trenchCell := λ _ _ _ _ _, None;
     generateTerrainHeightWithSeed := λ _ _ _, 0 |}.

(** A materialised chunk: a mesh with one vertex per grid point and as
    many base heights. *)
Definition materialized (resolution : nat) (c : Chunk) : Prop :=
  (∃ m, mesh c = Some m ∧
        length (position m) = (S resolution * S resolution)%nat) ∧
  length (originalHeights c) = (S resolution * S resolution)%nat.

(** Every cached chunk is materialised. *)
Definition cacheMaterialized (t : Terrain) : Prop :=
  ∀ key c, terrainChunks t !! key = Some c → materialized (chunkResolution t) c.

(** Every cached chunk has a mesh and old and new transition samples, one
    vertex and one sample of each kind per base height. *)
Definition covered (t : Terrain) : Prop :=
  ∀ key c, terrainChunks t !! key = Some c →
    ∃ m o n, mesh c = Some m ∧
             _regenOldHeights t !! key = Some o ∧
             _regenNewHeights t !! key = Some n ∧
             length (position m) = length (originalHeights c) ∧
             length o = length (originalHeights c) ∧
             length n = length (originalHeights c).

(** ** Trenches for the examples *)

(** A wide trench of length 2000 and width 200 with the sample point on
    its axis, [offset] along it from the centre. *)
Definition wideAt (offset depth : R) : TrenchCell :=
  mkTrenchCell 0 (mkTrench offset 0 200 2000 depth 0 0) None.

(** The sample point at the centre of a trench of depth 200 and a quarter
    of the length from the centre of a trench of depth 400. *)
Definition centred : TrenchCell := wideAt 0 (-200).



(** ** More of createTerrainChunk, and `remove` *)

(** ** The other buffers of createTerrainChunk *)

(** The colour of a vertex, lines 122-159. *)
Definition vertexColor (height : R) : R * R * R :=
  if decide (height < -15) then (0.81, 0.80, 0.60)
  else if decide (height < -5) then (0.81, 0.87, 0.60)
  else if decide (height < 0) then (0.71, 0.69, 0.51)
  else if decide (height < 8) then (0.8, 0.8, 0.7)
  else if decide (height < 15) then (0.55, 0.48, 0.32)
  else if decide (height < 22) then (0.8, 0.8, 0.7)
  else if decide (height < 25.5) then (0.8, 0.8, 0.7)
  else if decide (height < 31.2) then (0.0, 0.5, 0.3)
  else if decide (height < 42.0) then (0.2, 0.6, 0.2)
  else if decide (height < 47.0) then (0.8, 0.8, 0.7)
  else if decide (height < 50.0) then (1.0, 1.0, 0.9)
  else (1.0, 1.0, 0.9).

(** The arrays `vertices` and `colors` as the loops of lines 109-162
    fill them: `vertices.push(px, height, pz)`, `colors.push(r, g, b)`. *)
Definition flatPositions (vertices : list Vertex) : list R :=
  v ← vertices; [vx v; vy v; vz v].

Definition flatColors (vertices : list Vertex) : list R :=
  v ← vertices; let c := vertexColor (vy v) in [c.1.1; c.1.2; c.2].

(** `array.filter((_, index) => keep(index))`, the scan being at [index]. *)
Fixpoint filterFrom {A : Type} (keep : nat → bool) (index : nat) (array : list A)
  : list A :=
  match array with
  | [] => []
  | a :: rest =>
      if keep index then a :: filterFrom keep (S index) rest
      else filterFrom keep (S index) rest
  end.

Definition filterIndexed {A : Type} (keep : nat → bool) (array : list A) : list A :=
  filterFrom keep 0 array.

(** Line 201: `vertices.filter((_, index) => index % 3 === 1)` *)
Definition heightsOf (vertices : list R) : list R :=
  filterIndexed (λ index, bool_decide (index mod 3 = 1)%nat) vertices.

(** The index buffer, lines 165-175: two triangles per grid cell. *)
Definition chunkIndices (t : Terrain) : list nat :=
  z ← seq 0 (chunkResolution t);
  x ← seq 0 (chunkResolution t);
  let i0 := (z * (chunkResolution t + 1) + x)%nat in
  let i1 := (z * (chunkResolution t + 1) + (x + 1))%nat in
  let i2 := ((z + 1) * (chunkResolution t + 1) + x)%nat in
  let i3 := ((z + 1) * (chunkResolution t + 1) + (x + 1))%nat in
  [i0; i1; i2; i1; i3; i2].

(** ** remove, lines 1173-1188

    The loop reads `chunk.mesh.geometry` of every cached chunk before the
    cache is cleared.  `oceanSurface` is `null` from the constructor on
    and nothing assigns it, so the last block is skipped. *)
Definition remove (t : Terrain) : Outcome Terrain :=
  if decide (map_Exists (λ _ chunk, mesh chunk = None) (terrainChunks t))
  then TypeError
  else Done (set_terrainChunks ∅ t).

(** ** Histories and the grid *)

(** The states a generator goes through when every call returns,
    whatever the seed. *)
Inductive history `{HeightLayers} : Terrain → Prop :=
  | history_constructor (globalTerrainSeed : option Z) :
      history (constructor globalTerrainSeed)
  | history_perform (t t' : Terrain) (c : Call) :
      history t → perform t c = Done t' → history t'.

(** The world coordinate of grid line [i] of the chunk with index [c],
    lines 112-113. *)
Definition gridCoordinate (chunkSize : R) (chunkResolution : nat) (c : Z) (i : nat) : R :=
  IZR c * chunkSize + (INR i / INR chunkResolution) * chunkSize - chunkSize / 2.

(** A chunk that carries the indices of its key and whose vertices, if
    it has a mesh, sit at the grid points of their indices. *)
Definition anchoredAt (chunkSize : R) (chunkResolution : nat) (key : Z * Z) (c : Chunk)
  : Prop :=
  chunkX c = key.1 ∧ chunkZ c = key.2 ∧
  ∀ m x z, mesh c = Some m →
    (x ≤ chunkResolution)%nat → (z ≤ chunkResolution)%nat →
    ∃ v, position m !! (z * S chunkResolution + x)%nat = Some v ∧
         vx v = gridCoordinate chunkSize chunkResolution key.1 x ∧
         vz v = gridCoordinate chunkSize chunkResolution key.2 z.

Definition anchored (t : Terrain) : Prop :=
  ∀ key c, terrainChunks t !! key = Some c →
           anchoredAt (chunkSize t) (chunkResolution t) key c.

(** What a call leaves of the configuration. *)
Definition sameGrid (t t' : Terrain) : Prop :=
  chunkSize t' = chunkSize t ∧ chunkResolution t' = chunkResolution t ∧
  renderDistance t' = renderDistance t.

(** ** The constructor's seed *)

(** Lines 45-49 of the constructor: `window.globalTerrainSeed` is kept if
    it is truthy; otherwise it becomes `Math.floor(Math.random() * 1e9)`,
    [mathRandom] being the value `Math.random()` returns. *)
Definition globalTerrainSeedFor (windowGlobalTerrainSeed : option Z) (mathRandom : R)
  : option Z :=
  if truthy windowGlobalTerrainSeed then windowGlobalTerrainSeed
  else Some (floor (mathRandom * 1000000000)).

(** `new UnifiedTerrain(scene, size, resolution)` *)
Definition newUnifiedTerrain (windowGlobalTerrainSeed : option Z) (mathRandom : R)
  : Terrain :=
  constructor (globalTerrainSeedFor windowGlobalTerrainSeed mathRandom).

End UnifiedTerrain.

(* ===================================================================== *)
(** * generateTerrainHeightWithSeed *)
(* ===================================================================== *)

Module RegeneratedHeight.
Import JsNumber SeededRandom.
#[local] Open Scope R_scope.

(** ** generateTerrainHeightWithSeed, lines 839-961 *)

(** Lines 869-875. *)
Definition islandTypeOf (typeRand : R) : nat :=
  if decide (typeRand < 0.18) then 0
  else if decide (typeRand < 0.36) then 1
  else if decide (typeRand < 0.54) then 2
  else if decide (typeRand < 0.7) then 3
  else if decide (typeRand < 0.82) then 4
  else if decide (typeRand < 0.92) then 5
  else 6.

Record IslandHeightParams : Type := mkIslandHeightParams {
  base : R; jagged : R; tall : R; pillar : R;
  wide : R; arch : R; spire : R; noise : R
}.

(** Lines 877-886: the eight draws that follow the type draw on the
    island's stream, in the order of the object literal. *)
Definition islandHeightParamsOf (islandRand : R) : IslandHeightParams :=
  {| base := 10 + draw 1 islandRand * 20;
     jagged := draw 2 islandRand * 10 + 5;
     tall := 20 + draw 3 islandRand * 30;
     pillar := 30 + draw 4 islandRand * 40;
     wide := 1.2 + draw 5 islandRand * 1.5;
     arch := 10 + draw 6 islandRand * 10;
     spire := 40 + draw 7 islandRand * 30;
     noise := draw 8 islandRand * 2.5 + 0.5 |}.

(** Lines 900-937: the height of an island of the given type at
    `(x, z)`; [localRand] is the one draw taken from the point's own
    stream. *)
Definition islandHeightOf (islandType : nat) (p : IslandHeightParams)
    (x z nearestX nearestZ localRand : R) : R :=
  match islandType with
  | 0%nat =>
      base p + sin (x * 0.002) * cos (z * 0.002) * 4.0
      + sin (x * 0.01) * cos (z * 0.01) * 2.0
      + (localRand - 0.5) * 1.0
  | 1%nat =>
      base p + jagged p + sin (x * 0.01) * cos (z * 0.01) * 10.0
      + sin (x * 0.07 + z * 0.13) * 12.0
      + Rabs (sin (x * 0.1) * cos (z * 0.1)) * 18.0
      + (localRand - 0.5) * 4.0
  | 2%nat =>
      tall p + sin (x * 0.005) * cos (z * 0.005) * 8.0
      + Rabs (sin (x * 0.02) * cos (z * 0.02)) * 10.0
      + (localRand - 0.5) * 2.0
  | 3%nat =>
      pillar p
      + exp (- ((x - nearestX) ^ 2 + (z - nearestZ) ^ 2) / (2 * 120 ^ 2)) * 60
      + Rabs (sin (x * 0.03) * cos (z * 0.03)) * 8.0
      + (localRand - 0.5) * 2.0
  | 4%nat =>
      base p + sin (x * 0.002) * cos (z * 0.002) * 2.0
      + sin (x * 0.01) * cos (z * 0.01) * 1.0
      + (localRand - 0.5) * 0.5
  | 5%nat =>
      let archOffset := 120 in
      let arch1 := exp (- ((x - nearestX - archOffset) ^ 2 + (z - nearestZ) ^ 2)
                          / (2 * 80 ^ 2)) * arch p in
      let arch2 := exp (- ((x - nearestX + archOffset) ^ 2 + (z - nearestZ) ^ 2)
                          / (2 * 80 ^ 2)) * arch p in
      arch1 + arch2 + sin (x * 0.01) * cos (z * 0.01) * 2.0 + (localRand - 0.5) * 1.0
  | 6%nat =>
      spire p
      + exp (- ((x - nearestX) ^ 2 + (z - nearestZ) ^ 2) / (2 * 60 ^ 2)) * 100
      + Rabs (sin (x * 0.07) * cos (z * 0.07)) * 20.0
      + (localRand - 0.5) * 3.0
  | _ => 0
  end.

(** Lines 939-946, with the draw taken from `rand`. *)
Definition normalHeightOf (x z randDraw : R) : R :=
  0 + sin (x * 0.01) * cos (z * 0.01) * 3.0
  + sin (x * 0.015 + z * 0.01) * 2.0
  + sin (x * 0.03) * cos (z * 0.025) * 1.5
  + cos (x * 0.025 + z * 0.035) * 1.2
  + sin (x * 0.08) * cos (z * 0.06) * 0.6
  + sin (x * 0.05 + z * 0.07) * 0.8
  + (randDraw - 0.5) * 0.5.

(** The function for an integer seed.  `rand` is called once for
    `deepHeight`, once for `normalHeight` and once more in the last
    branch; the island's stream and the point's own stream exist only
    inside an island. *)
Definition generateTerrainHeightWithSeed (x z : R) (seed : Z) : R :=
  let localSeed := (seed + floor (x * 1000 + z * 1000))%Z in
  let rand := seededRandom (IZR localSeed) in
  let islandInterval := 1000 in
  let islandSize := 600 in
  let nearestX := IZR (round (x / islandInterval)) * islandInterval in
  let nearestZ := IZR (round (z / islandInterval)) * islandInterval in
  let isOrigin := bool_decide (nearestX = 0) && bool_decide (nearestZ = 0) in
  let distToIsland := sqrt ((x - nearestX) ^ 2 + (z - nearestZ) ^ 2) in
  let gridX := round (nearestX / islandInterval) in
  let gridZ := round (nearestZ / islandInterval) in
  let hasIsland :=
    if isOrigin then false
    else
      let presenceSeed := UnifiedTerrain.hash2D (bitXor seed 0xA5A5A5A5) gridX gridZ in
      let presenceRand := draw 0 (seededRandom (IZR presenceSeed)) in
      bool_decide (0.33 < presenceRand) in
  let onIsland := hasIsland && bool_decide (distToIsland < islandSize) in
  let islandRand := seededRandom (IZR (UnifiedTerrain.hash2D seed gridX gridZ)) in
  let islandType := if onIsland then islandTypeOf (draw 0 islandRand) else 0%nat in
  let deepSpotRadius := 300 in
  let distToDeep := sqrt (x * x + z * z) in
  let deepBlend :=
    if decide (distToDeep < deepSpotRadius) then 1 - distToDeep / deepSpotRadius
    else 0 in
  let deepHeight :=
    -10.0 + sin (x * 0.002) * cos (z * 0.002) * 0.5 + (draw 0 rand - 0.5) * 0.1 in
  let localRand :=
    seededRandom (IZR (UnifiedTerrain.hash2D seed (gridX * 100000 + floor x) (gridZ * 100000 + floor z))) in
  let islandHeight :=
    if onIsland
    then islandHeightOf islandType (islandHeightParamsOf islandRand)
                        x z nearestX nearestZ (draw 0 localRand)
    else 0 in
  let islandBlend :=
    if onIsland then
      let islandBlend := 1 - distToIsland / islandSize in
      if decide (islandType = 4%nat) then pow islandBlend 0.6 else islandBlend
    else 0 in
  let normalHeight := normalHeightOf x z (draw 1 rand) in
  if decide (0 < deepBlend) then
    deepHeight * deepBlend + normalHeight * (1 - deepBlend)
  else if decide (0 < islandBlend) then
    islandHeight * islandBlend + normalHeight * (1 - islandBlend)
  else normalHeightOf x z (draw 2 rand).

End RegeneratedHeight.

(* ===================================================================== *)
(** * terrainGenerator.js and game.js: the callers *)
(* ===================================================================== *)

Module TerrainGenerator.
Import JsNumber UnifiedTerrain.
#[local] Open Scope R_scope.

(** `generateNeighboringPlanes`, the per-frame entry point of the
    game loop: `this.unifiedTerrain.update(window.deltaTime || 0.016,
    entityPosition)`.  [None] stands for an undefined `window.deltaTime`.
    The two tracking sets are empty from the constructor on. *)
Definition generateNeighboringPlanes `{HeightLayers} (unifiedTerrain : Terrain)
    (windowDeltaTime : option R) (entityPosition : Vector3) : Outcome Terrain :=
  let deltaTime :=
    match windowDeltaTime with
    | Some d => if decide (d = 0) then 0.016 else d
    | None => 0.016
    end in
  update unifiedTerrain deltaTime entityPosition.

End TerrainGenerator.

Module Game.
Import JsNumber UnifiedTerrain.
#[local] Open Scope R_scope.

(** `receiveHostTerrainSeed` of game.js, lines 333-345: the handler the
    network layer calls with the host's seed.  [None] stands for a
    missing `window.terrainGenerator` or `unifiedTerrain`. *)
Definition receiveHostTerrainSeed `{HeightLayers} (unifiedTerrain : option Terrain)
    (hostSeed : option Z) : Outcome (option Terrain) :=
  match unifiedTerrain with
  | Some t => bind (onHostSeedReceived t hostSeed 0) (λ t', Done (Some t'))
  | None => Done None
  end.

End Game.

(* ===================================================================== *)
(** * Properties of the session leader *)
(* ===================================================================== *)

Module NetworkWorkerSpec.
Import NetworkWorker.

Lemma reachable_run id lobbySize s es :
  reachable id lobbySize s → feasible s es → reachable id lobbySize (run s es).
Proof.
  revert s. induction es as [|e es IH]; intros s Hs Hf; simpl in *; [done|].
  destruct Hf as [He Hf]. apply IH; [by apply reach_step | done].
Qed.

(** ** The association list behind `lobbyPeerConnections` *)

Lemma tracked_elem_of conns pid c :
  tracked conns pid = Some c → (pid, c) ∈ conns.
Proof.
  induction conns as [|[p c'] rest IH]; simpl; [done|].
  case_decide as Hp.
  - intros [= ->]. subst. apply list_elem_of_here.
  - intros Ht. apply list_elem_of_further. auto.
Qed.

Lemma owner_of_elem_of conns conn pid :
  owner_of conns conn = Some pid → (pid, conn) ∈ conns.
Proof.
  induction conns as [|[p c'] rest IH]; simpl; [done|].
  case_decide as Hc.
  - intros [= ->]. subst. apply list_elem_of_here.
  - intros Ht. apply list_elem_of_further. auto.
Qed.

Lemma tracked_untrack_ne conns pid q :
  q ≠ pid → tracked (untrack conns pid) q = tracked conns q.
Proof.
  intros Hne. unfold untrack.
  induction conns as [|[p c] rest IH]; simpl; [done|].
  rewrite filter_cons. simpl. destruct (decide (p ≠ pid)) as [Hp|Hp]; simpl.
  - by rewrite IH.
  - apply dec_stable in Hp. subst p. rewrite IH.
    by rewrite decide_False by done.
Qed.

Lemma tracked_untrack_eq conns pid : tracked (untrack conns pid) pid = None.
Proof.
  unfold untrack. induction conns as [|[p c] rest IH]; simpl; [done|].
  rewrite filter_cons. simpl. destruct (decide (p ≠ pid)) as [Hp|Hp]; simpl; [|done].
  by rewrite decide_False.
Qed.

Lemma splice_first_other pid q l :
  q ≠ pid → q ∈ l → q ∈ splice_first pid l.
Proof.
  intros Hne. induction l as [|p rest IH]; simpl; [done|].
  intros [->|Hin]%elem_of_cons.
  - rewrite decide_False by done. apply list_elem_of_here.
  - case_decide; [done|]. apply list_elem_of_further. auto.
Qed.

Lemma splice_first_length pid l :
  pid ∈ l → S (length (splice_first pid l)) = length l.
Proof.
  induction l as [|p rest IH]; simpl.
  - by intros ?%elem_of_nil.
  - intros Hin. case_decide as Hp; [done|]. simpl. f_equal. apply IH.
    apply elem_of_cons in Hin as [->|]; [done|done].
Qed.

(** The close handler changes the state only in one way. *)
Lemma on_close_cases w conn :
  on_close w conn = w ∨
  ∃ pid, pid ≠ EmptyString ∧ tracked (lobbyPeerConnections w) pid = Some conn ∧
         owner_of (lobbyPeerConnections w) conn = Some pid ∧
         on_close w conn =
           mkWorker (myPeerId w) (isBase w)
                    (splice_first pid (lobbyConnectedPeers w))
                    (untrack (lobbyPeerConnections w) pid)
                    false (LOBBY_SIZE w).
Proof.
  unfold on_close. destruct (owner_of _ _) as [pid|] eqn:Ho; [|by left].
  case_decide; [by left|]. case_decide; [|by left].
  right. exists pid. repeat split; try done. by destruct (lobbyFull w).
Qed.

(** ** One entry per identity *)

Lemma track_keys conns pid conn :
  (track conns pid conn).*1
    = if decide (pid ∈ conns.*1) then conns.*1 else conns.*1 ++ [pid].
Proof.
  induction conns as [|[p c] rest IH]; [done|]. cbn [track].
  destruct (decide (p = pid)) as [->|Hne]; rewrite !fmap_cons; cbn [fst].
  - by rewrite decide_True by apply list_elem_of_here.
  - rewrite IH. destruct (decide (pid ∈ rest.*1)) as [Hin|Hin].
    + by rewrite decide_True by (by apply list_elem_of_further).
    + rewrite decide_False; [done|]. intros [?|?]%elem_of_cons; congruence.
Qed.

Lemma track_NoDup conns pid conn :
  NoDup conns.*1 → NoDup (track conns pid conn).*1.
Proof.
  intros Hnd. rewrite track_keys. case_decide as Hin; [done|].
  apply NoDup_app. split; [done|]. split; [|apply NoDup_singleton].
  intros q Hq ->%list_elem_of_singleton. done.
Qed.

Lemma untrack_keys conns pid q :
  q ∈ (untrack conns pid).*1 → q ∈ conns.*1.
Proof.
  unfold untrack. intros ([q' c] & -> & Hin)%list_elem_of_fmap.
  apply list_elem_of_filter in Hin as [_ Hin].
  apply list_elem_of_fmap. by exists (q', c).
Qed.

Lemma untrack_NoDup conns pid :
  NoDup conns.*1 → NoDup (untrack conns pid).*1.
Proof.
  unfold untrack. induction conns as [|[p c] rest IH]; simpl; [done|].
  intros [Hp Hnd]%NoDup_cons. rewrite filter_cons. simpl.
  case_decide; [|by apply IH]. simpl. apply NoDup_cons. split; [|by apply IH].
  intros Hin. apply Hp. by apply (untrack_keys rest pid).
Qed.

(** The table of a reachable session has one entry per identity, as a
    JavaScript object has. *)
Lemma reachable_NoDup id lobbySize s :
  reachable id lobbySize s → NoDup (lobbyPeerConnections (worker s)).*1.
Proof.
  induction 1 as [|s e Hs IH He]; [apply NoDup_nil_2|].
  destruct e as [c|c|c data|c data|c|]; simpl; try done.
  - destruct data as [pid|pid|pid msg|pid msg|]; simpl; try done.
    unfold on_join_host. simpl.
    repeat (case_match || case_decide); simpl; try done; by apply track_NoDup.
  - destruct data as [pid|pid|pid msg|pid msg|]; simpl; try done.
    by repeat (case_match || case_decide).
  - destruct (on_close_cases (worker s) c) as [-> | (pid & _ & _ & _ & ->)];
      [done|]. simpl. by apply untrack_NoDup.
  - apply NoDup_nil_2.
Qed.

(** With one entry per identity, the search of the close handler finds an
    identity whose tracked connection is the closing one as soon as some
    identity tracks it. *)
Lemma owner_of_tracked conns pid conn :
  NoDup conns.*1 → tracked conns pid = Some conn →
  ∃ p, owner_of conns conn = Some p ∧ tracked conns p = Some conn.
Proof.
  induction conns as [|[p c] rest IH]; simpl; [done|].
  intros [Hp Hnd]%NoDup_cons Ht.
  destruct (decide (c = conn)) as [->|Hc].
  - exists p. split; [done|]. by rewrite decide_True.
  - destruct (decide (p = pid)) as [->|Hne]; [congruence|].
    destruct (IH Hnd Ht) as (p1 & Ho & Ht1). exists p1. split; [done|].
    rewrite decide_False; [done|]. intros ->. apply Hp.
    apply tracked_elem_of in Ht1. apply list_elem_of_fmap. by exists (p1, conn).
Qed.

(** ** Every roster member but the leader is tracked *)

Lemma tracked_track conns pid conn q :
  tracked (track conns pid conn) q
    = if decide (pid = q) then Some conn else tracked conns q.
Proof.
  induction conns as [|[p c] rest IH]; cbn [track tracked].
  - by destruct (decide (pid = q)).
  - destruct (decide (p = pid)) as [->|Hne]; cbn [tracked].
    + by destruct (decide (pid = q)).
    + rewrite IH. destruct (decide (p = q)) as [->|]; [|done].
      by rewrite decide_False by done.
Qed.

Lemma splice_first_subset pid q l : q ∈ splice_first pid l → q ∈ l.
Proof.
  induction l as [|p rest IH]; simpl; [done|]. case_decide.
  - apply list_elem_of_further.
  - intros [->|Hin]%elem_of_cons; [apply list_elem_of_here|].
    apply list_elem_of_further. auto.
Qed.

Lemma splice_first_NoDup pid l :
  NoDup l → NoDup (splice_first pid l) ∧ pid ∉ splice_first pid l.
Proof.
  induction l as [|p rest IH]; simpl; [by split; [|apply not_elem_of_nil]|].
  intros [Hp Hnd]%NoDup_cons. case_decide as Heq.
  - subst p. by split.
  - destruct (IH Hnd) as [IHnd IHout]. split.
    + apply NoDup_cons. split; [|done]. intros Hin. apply Hp.
      by apply (splice_first_subset pid).
    + intros [?|?]%elem_of_cons; [congruence|done].
Qed.

(** The roster of a reachable session lists nobody twice, and each of its
    members other than the leader has an entry in the connection table. *)
Lemma reachable_roster_tracked id lobbySize s :
  reachable id lobbySize s →
  NoDup (lobbyConnectedPeers (worker s)) ∧
  ∀ pid, pid ∈ lobbyConnectedPeers (worker s) →
         pid = myPeerId (worker s) ∨
         is_Some (tracked (lobbyPeerConnections (worker s)) pid).
Proof.
  induction 1 as [|s e Hs [IHnd IH] He].
  { split; [apply NoDup_singleton|]. intros pid ->%list_elem_of_singleton. by left. }
  destruct e as [c|c|c data|c data|c|]; simpl; try done.
  - destruct data as [pid|pid|pid msg|pid msg|]; simpl; try done.
    unfold on_join_host. cbv zeta.
    destruct (_ && _); [done|].
    assert (Hroster : NoDup (if bool_decide (pid ∈ lobbyConnectedPeers (worker s))
                             then lobbyConnectedPeers (worker s)
                             else lobbyConnectedPeers (worker s) ++ [pid])).
    { case_bool_decide as Hin; [done|]. apply NoDup_app. split; [done|].
      split; [|apply NoDup_singleton].
      intros q Hq ->%list_elem_of_singleton. done. }
    assert (Htracked : ∀ q,
      q ∈ (if bool_decide (pid ∈ lobbyConnectedPeers (worker s))
           then lobbyConnectedPeers (worker s)
           else lobbyConnectedPeers (worker s) ++ [pid]) →
      q = myPeerId (worker s) ∨
      is_Some (tracked (if tracked_open (opened s) (lobbyPeerConnections (worker s)) pid
                        then lobbyPeerConnections (worker s)
                        else track (lobbyPeerConnections (worker s)) pid c) q)).
    { intros q Hq.
      assert (Hcases : q ∈ lobbyConnectedPeers (worker s) ∨ q = pid).
      { case_bool_decide; [by left|].
        apply elem_of_app in Hq as [Hq|Hq]; [by left|].
        apply list_elem_of_singleton in Hq. by right. }
      unfold tracked_open.
      destruct (tracked (lobbyPeerConnections (worker s)) pid) as [c0|] eqn:Hpid.
      - destruct (is_open (opened s) c0).
        + destruct Hcases as [Hin| ->]; [by apply IH|]. right. rewrite Hpid.
          by eexists.
        + rewrite tracked_track.
          destruct (decide (pid = q)) as [_|Hne]; [right; by eexists|].
          destruct Hcases as [Hin| ->]; [by apply IH|done].
      - rewrite tracked_track.
        destruct (decide (pid = q)) as [_|Hne]; [right; by eexists|].
        destruct Hcases as [Hin| ->]; [by apply IH|done]. }
    destruct (decide (length _ = LOBBY_SIZE (worker s)));
      simpl; (split; [exact Hroster | exact Htracked]).
  - destruct data as [pid|pid|pid msg|pid msg|]; simpl; try done.
    by repeat (case_match || case_decide).
  - destruct (on_close_cases (worker s) c) as [-> | (pid & _ & _ & _ & ->)];
      [done|]. simpl.
    destruct (splice_first_NoDup pid _ IHnd) as [Hnd Hout]. split; [done|].
    intros q Hq. assert (q ≠ pid) by (by intros ->).
    rewrite tracked_untrack_ne by done. apply IH.
    by apply (splice_first_subset pid).
  - split; [apply NoDup_singleton|].
    intros pid ->%list_elem_of_singleton. by left.
Qed.

(** ** Relay (C7) *)

(** C7.  When the leader receives a `message` or `player_state` packet it
    leaves its state alone, sends the packet once for every entry of the
    connection table whose identity differs from the packet's sender and
    whose connection is open, in table order, and then posts it to the
    main thread.  An entry is a target exactly when it is tracked, open
    and not the sender's; in particular no target carries the sender's
    identity, and the sender's own connection receives nothing unless
    another identity is tracked on that same connection.  In a reachable
    session every roster member other than the leader and the sender has
    a tracked connection, and receives the packet on it if it is open. *)
Theorem relay_reaches_all_but_sender
    (openConns : list nat) (w : Worker) (conn : nat)
    (sender : string) (payload : string) (data : Packet) :
  data = message sender payload ∨ data = player_state sender payload →
  (on_data openConns w conn data).1 = w ∧
  (on_data openConns w conn data).2 =
    ((λ e : string * nat, send e.2 (relayed data)) <$> relay_targets openConns w sender)
    ++ [networkData data] ∧
  (∀ pid c, (pid, c) ∈ relay_targets openConns w sender ↔
            (pid, c) ∈ lobbyPeerConnections w ∧ pid ≠ sender ∧ c ∈ openConns) ∧
  (∀ c, (sender, c) ∉ relay_targets openConns w sender) ∧
  (∀ c, (∀ pid, (pid, c) ∈ lobbyPeerConnections w → pid = sender) →
        send c (relayed data) ∉ (on_data openConns w conn data).2) ∧
  (∀ (id : string) (lobbySize : nat) (s : Session) (pid : string),
      reachable id lobbySize s → worker s = w → opened s = openConns →
      pid ∈ lobbyConnectedPeers w → pid ≠ myPeerId w → pid ≠ sender →
      ∃ c, tracked (lobbyPeerConnections w) pid = Some c ∧
           (c ∈ openConns →
            send c (relayed data) ∈ (on_data openConns w conn data).2)).
Proof.
  intros Hdata.
  assert (Hrun : on_data openConns w conn data = on_relay openConns w sender data)
    by (destruct Hdata as [-> | ->]; reflexivity).
  assert (Htargets : ∀ pid c, (pid, c) ∈ relay_targets openConns w sender ↔
            (pid, c) ∈ lobbyPeerConnections w ∧ pid ≠ sender ∧ c ∈ openConns).
  { intros pid c. unfold relay_targets. rewrite list_elem_of_filter. simpl.
    unfold is_open. rewrite bool_decide_eq_true. tauto. }
  rewrite Hrun. simpl.
  split; [done|]. split; [done|]. split; [exact Htargets|]. split; [|split].
  - intros c Hin. apply Htargets in Hin. tauto.
  - intros c Hc Hin. apply elem_of_app in Hin as [Hin|Hin].
    + apply list_elem_of_fmap in Hin as [[pid c'] [Heq Hin]]. simpl in Heq.
      injection Heq as ->. apply Htargets in Hin as [Hin [Hne _]].
      by apply Hc in Hin.
    + apply list_elem_of_singleton in Hin. done.
  - intros id lobbySize s pid Hreach <- <- Hin Hleader Hsender.
    destruct (reachable_roster_tracked _ _ _ Hreach) as [_ Htracked].
    destruct (Htracked pid Hin) as [?|[c Hc]]; [done|].
    exists c. split; [done|]. intros Hopen.
    apply elem_of_app. left. apply list_elem_of_fmap.
    exists (pid, c). split; [done|]. apply Htargets.
    split; [by apply tracked_elem_of|done].
Qed.

Lemma relay_reaches_all_but_sender_witness :
  let w := mkWorker "M" true ["M"; "A"; "B"; "C"] [("A", 1); ("B", 2); ("C", 3)] true 3 in
  (on_data [1; 3] w 2 (player_state "B" "pose")).2 =
    [send 1 (relayed (player_state "B" "pose"));
     send 3 (relayed (player_state "B" "pose"));
     networkData (player_state "B" "pose")].
Proof.
  intros w.
  destruct (relay_reaches_all_but_sender [1; 3] w 2 "B" "pose"
              (player_state "B" "pose") (or_intror eq_refl)) as [_ [-> _]].
  reflexivity.
Defined.

(** ** Connection close and lobby reopening (C6) *)

(** C6.  (1) The close handler drops an identity from the roster only if
    the closing connection is the one tracked for it.  (2) An identity
    whose tracked connection is a different one keeps its roster entry and
    its tracked connection when the old connection closes.  (3) When the
    closing connection is tracked for a (non-empty) identity, that
    identity's first roster entry and its table entry go, and the full
    flag is false afterwards; in a reachable session whose tracked
    identities are non-empty the flag is false after the close of any
    tracked connection.  (4) From a roster at capacity, such a close
    followed by a `join_host` of a peer not in the roster brings the
    roster back to capacity with the flag set.  (5) With capacity 2:
    roster [A,B] full, B's connection closes, roster [A] not full, C
    joins, roster [A,C]. *)
Theorem close_evicts_only_the_tracked_connection :
  (∀ (w : Worker) (conn : nat) (pid : string),
      pid ∈ lobbyConnectedPeers w →
      pid ∉ lobbyConnectedPeers (on_close w conn) →
      tracked (lobbyPeerConnections w) pid = Some conn) ∧
  (∀ (w : Worker) (conn c' : nat) (pid : string),
      tracked (lobbyPeerConnections w) pid = Some c' → c' ≠ conn →
      pid ∈ lobbyConnectedPeers w →
      pid ∈ lobbyConnectedPeers (on_close w conn) ∧
      tracked (lobbyPeerConnections (on_close w conn)) pid = Some c') ∧
  (∀ (w : Worker) (conn : nat) (pid : string),
      owner_of (lobbyPeerConnections w) conn = Some pid → pid ≠ EmptyString →
      tracked (lobbyPeerConnections w) pid = Some conn →
      lobbyConnectedPeers (on_close w conn) = splice_first pid (lobbyConnectedPeers w) ∧
      tracked (lobbyPeerConnections (on_close w conn)) pid = None ∧
      lobbyFull (on_close w conn) = false) ∧
  (∀ (id : string) (lobbySize : nat) (s : Session) (conn : nat) (pid : string),
      reachable id lobbySize s →
      EmptyString ∉ (lobbyPeerConnections (worker s)).*1 →
      tracked (lobbyPeerConnections (worker s)) pid = Some conn →
      lobbyFull (on_close (worker s) conn) = false) ∧
  (∀ (openConns : list nat) (w : Worker) (conn conn' : nat) (pid newcomer : string),
      owner_of (lobbyPeerConnections w) conn = Some pid → pid ≠ EmptyString →
      tracked (lobbyPeerConnections w) pid = Some conn →
      pid ∈ lobbyConnectedPeers w →
      length (lobbyConnectedPeers w) = LOBBY_SIZE w →
      newcomer ∉ lobbyConnectedPeers w →
      let w' := (on_data openConns (on_close w conn) conn' (join_host newcomer)).1 in
      lobbyConnectedPeers w' = splice_first pid (lobbyConnectedPeers w) ++ [newcomer] ∧
      length (lobbyConnectedPeers w') = LOBBY_SIZE w' ∧
      lobbyFull w' = true) ∧
  (let s0 := mkSession (init "A" 2) [] in
   let full := run s0 (take 2 reopening) in
   let left := run s0 (take 4 reopening) in
   let back := run s0 reopening in
   feasible s0 reopening ∧
   lobbyConnectedPeers (worker full) = ["A"; "B"] ∧ lobbyFull (worker full) = true ∧
   lobbyConnectedPeers (worker left) = ["A"] ∧ lobbyFull (worker left) = false ∧
   lobbyConnectedPeers (worker back) = ["A"; "C"] ∧ lobbyFull (worker back) = true).
Proof.
  assert (Hclosed : ∀ (w : Worker) (conn : nat) (pid : string),
      owner_of (lobbyPeerConnections w) conn = Some pid → pid ≠ EmptyString →
      tracked (lobbyPeerConnections w) pid = Some conn →
      on_close w conn =
        mkWorker (myPeerId w) (isBase w) (splice_first pid (lobbyConnectedPeers w))
                 (untrack (lobbyPeerConnections w) pid) false (LOBBY_SIZE w)).
  { intros w conn pid Ho Hne Ht. unfold on_close. rewrite Ho.
    rewrite decide_False by done. rewrite decide_True by done.
    by destruct (lobbyFull w). }
  split; [|split; [|split; [|split; [|split]]]].
  - intros w conn pid Hin Hout.
    destruct (on_close_cases w conn) as [Heq | (pid0 & _ & Ht & _ & Heq)].
    + rewrite Heq in Hout. done.
    + rewrite Heq in Hout. simpl in Hout.
      destruct (decide (pid = pid0)) as [->|Hne]; [done|].
      exfalso. apply Hout. by apply splice_first_other.
  - intros w conn c' pid Ht Hc Hin.
    destruct (on_close_cases w conn) as [Heq | (pid0 & _ & Ht0 & _ & Heq)].
    + by rewrite Heq.
    + rewrite Heq. simpl.
      assert (pid ≠ pid0) by (intros ->; congruence).
      split; [by apply splice_first_other|].
      by rewrite tracked_untrack_ne.
  - intros w conn pid Ho Hne Ht. rewrite (Hclosed w conn pid) by done. simpl.
    split; [done|]. split; [apply tracked_untrack_eq|done].
  - intros id lobbySize s conn pid Hreach Hempty Ht.
    destruct (owner_of_tracked _ pid conn (reachable_NoDup _ _ _ Hreach) Ht)
      as (p & Ho & Htp).
    rewrite (Hclosed (worker s) conn p); [done|done| |done].
    intros ->. apply Hempty. apply tracked_elem_of in Htp.
    apply list_elem_of_fmap. by exists (EmptyString, conn).
  - intros openConns w conn conn' pid newcomer Ho Hne Ht Hin Hlen Hnew w'.
    subst w'. rewrite (Hclosed w conn pid) by done.
    assert (Hnot : newcomer ∉ splice_first pid (lobbyConnectedPeers w)).
    { intros Hin'. apply Hnew. clear -Hin'.
      induction (lobbyConnectedPeers w) as [|p rest IH]; simpl in *; [done|].
      case_decide.
      - by apply list_elem_of_further.
      - apply elem_of_cons in Hin' as [->|]; [apply list_elem_of_here|].
        apply list_elem_of_further. auto. }
    pose proof (splice_first_length pid _ Hin) as Hl.
    simpl. unfold on_join_host. simpl.
    rewrite bool_decide_eq_false_2 by done. simpl.
    rewrite decide_True; [simpl; repeat split|].
    + rewrite length_app. simpl. lia.
    + rewrite length_app. simpl. lia.
  - intros s0 full left back. split.
    + apply (bool_decide_unpack _). vm_compute. exact I.
    + repeat split; vm_compute; reflexivity.
Qed.

Lemma close_evicts_only_the_tracked_connection_witness :
  let w := mkWorker "A" true ["A"; "B"] [("B", 1)] true 2 in
  "B" ∈ lobbyConnectedPeers w ∧
  ("B" ∉ lobbyConnectedPeers (on_close w 1)) ∧
  tracked (lobbyPeerConnections w) "B" = Some 1.
Proof.
  intros w.
  assert (Hin : "B" ∈ lobbyConnectedPeers w)
    by (apply (bool_decide_unpack _); vm_compute; exact I).
  assert (Hout : "B" ∉ lobbyConnectedPeers (on_close w 1))
    by (apply (bool_decide_unpack _); vm_compute; exact I).
  split; [exact Hin|]. split; [exact Hout|].
  exact (proj1 close_evicts_only_the_tracked_connection w 1 "B" Hin Hout).
Defined.

(** ** Roster capacity (C2) *)

(** C2.  The `join_host` handler has no capacity test, unlike the
    discovery handler: with capacity 3 the reachable state after
    [late_join] has a roster of 4 while the flag is set, and after
    [late_join_then_leave] the roster has exactly 3 members while the flag
    is clear. *)
Theorem roster_can_exceed_capacity :
  let s0 := mkSession (init "M" 3) [] in
  let over := run s0 late_join in
  let after := run s0 late_join_then_leave in
  reachable "M" 3 over ∧
  LOBBY_SIZE (worker over) = 3 ∧
  lobbyConnectedPeers (worker over) = ["M"; "A"; "B"; "C"] ∧
  lobbyFull (worker over) = true ∧
  ¬ (length (lobbyConnectedPeers (worker over)) ≤ LOBBY_SIZE (worker over)) ∧
  reachable "M" 3 after ∧
  length (lobbyConnectedPeers (worker after)) = LOBBY_SIZE (worker after) ∧
  lobbyFull (worker after) = false.
Proof.
  intros s0 over after.
  assert (Hover : reachable "M" 3 over).
  { apply reachable_run; [apply reach_init|].
    apply (bool_decide_unpack _). vm_compute. exact I. }
  assert (Hafter : reachable "M" 3 after).
  { apply reachable_run; [apply reach_init|].
    apply (bool_decide_unpack _). vm_compute. exact I. }
  split; [exact Hover|]. split; [reflexivity|]. split; [reflexivity|].
  split; [reflexivity|]. split; [vm_compute; lia|].
  split; [exact Hafter|]. split; reflexivity.
Qed.

End NetworkWorkerSpec.

(* ===================================================================== *)
(** * Properties of the seeded stream *)
(* ===================================================================== *)

Module SeededRandomSpec.
Import JsNumber SeededRandom.
#[local] Open Scope R_scope.

Lemma floor_0 : floor 0 = 0%Z.
Proof. unfold floor. symmetry. apply Int_part_spec. simpl. lra. Qed.

Lemma next_0 : next 0 = (0, 0).
Proof.
  unfold next. rewrite sin_0.
  replace (0 * 10000) with 0 by lra. rewrite floor_0. f_equal. simpl. lra.
Qed.

Lemma draw_S n x : draw (S n) x = draw n (next x).2.
Proof. reflexivity. Qed.

(** The values a closure returns do not depend on calls made to another
    closure in between. *)
Lemma returned_interleave schedule xa xb :
  returned true (interleave schedule xa xb)
    = (λ n, draw n xa) <$> seq 0 (length (filter (λ b, b = true) schedule)) ∧
  returned false (interleave schedule xa xb)
    = (λ n, draw n xb) <$> seq 0 (length (filter (λ b, b = false) schedule)).
Proof.
  revert xa xb.
  induction schedule as [|[|] rest IH]; intros xa xb; cbn [interleave]; [done| |].
  - destruct (IH (next xa).2 xb) as [IHa IHb].
    unfold returned in *. rewrite !filter_cons.
    rewrite !(decide_True (P := (true, _).1 = true)) by done.
    rewrite !(decide_False (P := (true, _).1 = false)) by done.
    rewrite (decide_True (P := true = true)) by done.
    rewrite (decide_False (P := true = false)) by done.
    split; [|exact IHb]. rewrite fmap_cons, IHa. cbn [length seq fmap list_fmap].
    f_equal. rewrite <- fmap_S_seq, <- list_fmap_compose. done.
  - destruct (IH xa (next xb).2) as [IHa IHb].
    unfold returned in *. rewrite !filter_cons.
    rewrite !(decide_False (P := (false, _).1 = true)) by done.
    rewrite !(decide_True (P := (false, _).1 = false)) by done.
    rewrite (decide_False (P := false = true)) by done.
    rewrite (decide_True (P := false = false)) by done.
    split; [exact IHa|]. rewrite fmap_cons, IHb. cbn [length seq fmap list_fmap].
    f_equal. rewrite <- fmap_S_seq, <- list_fmap_compose. done.
Qed.

(** C8.  The stream made from seed 0 starts with its variable at 0, a call
    leaves the variable at 0, and every draw, whatever its index, is 0.
    Two streams made from the same seed return the same sequence, which is
    the sequence of draws from that seed, however calls to the two are
    interleaved. *)
Theorem zero_seed_draws_only_zero :
  seededRandom 0 = 0 ∧
  (∀ n : nat, after n (seededRandom 0) = 0) ∧
  (∀ n : nat, draw n (seededRandom 0) = 0) ∧
  (∀ (seed : R) (schedule : list bool) (who : bool),
      returned who (interleave schedule (seededRandom seed) (seededRandom seed))
      = (λ n, draw n (seededRandom seed))
          <$> seq 0 (length (filter (λ b, b = who) schedule))).
Proof.
  assert (H0 : seededRandom 0 = 0) by (unfold seededRandom; rewrite sin_0; lra).
  assert (Hafter : ∀ n : nat, after n 0 = 0).
  { induction n as [|n IH]; cbn [after]; [done|]. rewrite next_0. exact IH. }
  split; [exact H0|]. rewrite H0. split; [exact Hafter|]. split.
  - intros n. unfold draw. rewrite Hafter, next_0. done.
  - intros seed schedule [|]; apply returned_interleave.
Qed.

End SeededRandomSpec.

(* ===================================================================== *)
(** * Properties of the height field's trench pass *)
(* ===================================================================== *)

Module TrenchSpec.
Import JsNumber UnifiedTerrain.
#[local] Open Scope R_scope.











End TrenchSpec.

(* ===================================================================== *)
(** * Properties of the chunk cache and of seed synchronisation *)
(* ===================================================================== *)

Module UnifiedTerrainSpec.
Import JsNumber UnifiedTerrain.
#[local] Open Scope R_scope.

(** ** Floor, ceiling and the range test *)

Lemma floor_spec (r : R) (k : Z) : floor r = k ↔ IZR k <= r < IZR k + 1.
Proof.
  unfold floor. split.
  - intros <-. destruct (base_Int_part r). lra.
  - intros Hk. symmetry. apply Int_part_spec. lra.
Qed.

Lemma ceil_ge (r : R) : r <= IZR (ceil r).
Proof.
  unfold ceil. rewrite opp_IZR. destruct (base_Int_part (- r)). lra.
Qed.

Lemma sqrt_IZR_square (k : Z) : sqrt (IZR (k * k)) = IZR (Z.abs k).
Proof.
  rewrite <- Z.abs_square, mult_IZR. apply sqrt_square.
  apply IZR_le. lia.
Qed.

(** The comparison of `distance` with `renderDistance`, squared. *)
Lemma sqrt_scaled_le (n : Z) (c r : R) :
  (0 <= n)%Z → 0 < c → 0 <= r →
  sqrt (IZR n) * c <= r ↔ IZR n * (c * c) <= r * r.
Proof.
  intros Hn Hc Hr.
  assert (H0 : 0 <= IZR n) by (by apply IZR_le).
  pose proof (sqrt_pos (IZR n)) as Hs.
  pose proof (sqrt_sqrt (IZR n) H0) as Hsq.
  set (s := sqrt (IZR n)) in *.
  assert (Hsc : 0 <= s * c) by (apply Rmult_le_pos; lra).
  replace (IZR n * (c * c)) with ((s * c) * (s * c)) by (rewrite <- Hsq; ring).
  split; intros Hle.
  - apply Rmult_le_compat; lra.
  - destruct (Rle_dec (s * c) r) as [|Hgt]; [done|].
    apply Rnot_le_lt in Hgt.
    assert (r * r < (s * c) * (s * c)) by (apply Rmult_le_0_lt_compat; lra).
    lra.
Qed.

Lemma elem_of_offsets (radius : Z) (d : Z * Z) :
  d ∈ offsets radius ↔
  (- radius ≤ d.1 ≤ radius)%Z ∧ (- radius ≤ d.2 ≤ radius)%Z.
Proof.
  unfold offsets. destruct d as [dx dz]. simpl.
  rewrite list_elem_of_bind. split.
  - intros (a & Hin & Ha). apply list_elem_of_bind in Hin as (b & Hin & Hb).
    apply list_elem_of_singleton in Hin as [= -> ->].
    apply elem_of_seqZ in Ha, Hb. lia.
  - intros [Hx Hz]. exists dx. split; [|apply elem_of_seqZ; lia].
    apply list_elem_of_bind. exists dz. split; [|apply elem_of_seqZ; lia].
    by apply list_elem_of_singleton.
Qed.

(** An offset that passes the range test lies inside the square the two
    loops scan. *)
Lemma inRange_offsets (t : Terrain) (d : Z * Z) :
  0 < chunkSize t → inRange t d → d ∈ offsets (chunkRadius t).
Proof.
  intros Hc Hin. unfold inRange in Hin. apply elem_of_offsets.
  pose proof (ceil_ge (renderDistance t / chunkSize t)) as Hceil.
  fold (chunkRadius t) in Hceil.
  assert (Habs : ∀ a b : Z, sqrt (IZR (a * a + b * b)) * chunkSize t <= renderDistance t →
                            (Z.abs a ≤ chunkRadius t)%Z).
  { intros a b Hle. apply le_IZR.
    assert (IZR (Z.abs a) <= sqrt (IZR (a * a + b * b))).
    { rewrite <- sqrt_IZR_square. apply sqrt_le_1_alt. apply IZR_le. nia. }
    assert (IZR (Z.abs a) <= renderDistance t / chunkSize t).
    { apply (Rmult_le_reg_r (chunkSize t)); [done|].
      replace (renderDistance t / chunkSize t * chunkSize t)
        with (renderDistance t) by (field; lra).
      nra. }
    lra. }
  destruct d as [dx dz]. simpl in *.
  pose proof (Habs dx dz Hin) as Hx.
  assert (Hin' : sqrt (IZR (dz * dz + dx * dx)) * chunkSize t <= renderDistance t)
    by (by rewrite Z.add_comm).
  pose proof (Habs dz dx Hin') as Hz. lia.
Qed.

(** Which keys the creation loops mark as required. *)
Lemma elem_of_requiredChunks (t : Terrain) (p : Vector3) (key : Z * Z) :
  0 < chunkSize t →
  key ∈ requiredChunks t p ↔
  inRange t ((key.1 - (playerChunk t p).1)%Z, (key.2 - (playerChunk t p).2)%Z).
Proof.
  intros Hc. unfold requiredChunks. cbv zeta. rewrite list_elem_of_fmap. split.
  - intros (d & -> & Hd). apply list_elem_of_filter in Hd as [Hd _]. simpl.
    replace (_ + d.1 - _)%Z with d.1 by lia.
    replace (_ + d.2 - _)%Z with d.2 by lia. by destruct d.
  - intros Hin. eexists. split; [|apply list_elem_of_filter; split;
      [exact Hin | by apply inRange_offsets]].
    destruct key; simpl; f_equal; lia.
Qed.

(** ** Lists built by two nested loops *)

Lemma bind_singleton_fmap {A B : Type} (f : A → B) (l : list A) :
  (x ← l; [f x]) = f <$> l.
Proof. induction l as [|a l IH]; [done|]. rewrite bind_cons, IH. done. Qed.

Lemma length_grid {A : Type} (f : nat → nat → A) (rows cols start : nat) :
  length (z ← seq start rows; x ← seq 0 cols; [f x z]) = (rows * cols)%nat.
Proof.
  revert start. induction rows as [|rows IH]; intros start; [done|].
  cbn [seq]. rewrite bind_cons, length_app, IH, bind_singleton_fmap.
  rewrite length_fmap, length_seq. lia.
Qed.

Lemma lookup_grid {A : Type} (f : nat → nat → A) (rows cols start : nat) (x z : nat) :
  (x < cols)%nat → (z < rows)%nat →
  (z ← seq start rows; x ← seq 0 cols; [f x z]) !! (z * cols + x)%nat
    = Some (f x (start + z)%nat).
Proof.
  intros Hx. revert start z.
  induction rows as [|rows IH]; intros start z Hz; [lia|].
  cbn [seq]. rewrite bind_cons, bind_singleton_fmap. destruct z as [|z].
  - rewrite lookup_app_l by (rewrite length_fmap, length_seq; lia).
    rewrite list_lookup_fmap, lookup_seq_lt by lia. simpl.
    by rewrite Nat.add_0_r.
  - rewrite lookup_app_r by (rewrite length_fmap, length_seq; lia).
    rewrite length_fmap, length_seq.
    replace (S z * cols + x - cols)%nat with (z * cols + x)%nat by lia.
    rewrite IH by lia. do 2 f_equal. lia.
Qed.

(** ** Loops over the cache *)

Lemma forChunks_returns (f : Z * Z → Chunk → Outcome Chunk)
    (m m' : gmap (Z * Z) Chunk) (key : Z * Z) :
  forChunks f m = Done m' →
  match m !! key with
  | Some c => ∃ c', f key c = Done c' ∧ m' !! key = Some c'
  | None => m' !! key = None
  end.
Proof.
  unfold forChunks. case_decide as Hthrow; [done|]. case_decide as Hnan; [done|].
  intros [= <-]. rewrite map_lookup_imap.
  destruct (m !! key) as [c|] eqn:Hc; [|done]. simpl.
  destruct (f key c) as [c'| |] eqn:Hf.
  - by exists c'.
  - exfalso. apply Hthrow. apply (map_Exists_lookup_2 _ _ key c); [done|].
    by rewrite Hf.
  - exfalso. apply Hnan. apply (map_Exists_lookup_2 _ _ key c); [done|].
    by rewrite Hf.
Qed.

Lemma forChunks_throws (f : Z * Z → Chunk → Outcome Chunk)
    (m : gmap (Z * Z) Chunk) (key : Z * Z) (c : Chunk) :
  m !! key = Some c → f key c = TypeError → forChunks f m = TypeError.
Proof.
  intros Hc Hf. unfold forChunks. rewrite decide_True; [done|].
  apply (map_Exists_lookup_2 _ _ key c); [done|]. by rewrite Hf.
Qed.

Lemma forChunks_dom (f : Z * Z → Chunk → Outcome Chunk) (m m' : gmap (Z * Z) Chunk) :
  forChunks f m = Done m' → dom m' = dom m.
Proof.
  intros Hrun. apply set_eq. intros key. rewrite !elem_of_dom.
  pose proof (forChunks_returns f m m' key Hrun) as Hk.
  destruct (m !! key) as [c|].
  - destruct Hk as (c' & _ & ->). split; by eexists.
  - rewrite Hk. split; by intros [? ?].
Qed.

Section Generator.
Context `{HeightLayers}.

(** ** createTerrainChunk *)

Lemma length_chunkVertices t cx cz :
  length (chunkVertices t cx cz)
    = (S (chunkResolution t) * S (chunkResolution t))%nat.
Proof. unfold chunkVertices. apply (length_grid (vertexAt t cx cz)). Qed.

Lemma lookup_chunkVertices t cx cz (x z : nat) :
  (x ≤ chunkResolution t)%nat → (z ≤ chunkResolution t)%nat →
  chunkVertices t cx cz !! (z * S (chunkResolution t) + x)%nat
    = Some (vertexAt t cx cz x z).
Proof.
  intros Hx Hz. unfold chunkVertices.
  rewrite (lookup_grid (vertexAt t cx cz)) by lia. done.
Qed.

Lemma createTerrainChunk_seeded t cx cz :
  truthy (terrainSeed t) = true →
  createTerrainChunk t cx cz
    = mkChunk (Some (mkMesh (chunkVertices t cx cz))) cx cz
              (vy <$> chunkVertices t cx cz).
Proof. intros Hs. unfold createTerrainChunk. by rewrite Hs. Qed.

Lemma createTerrainChunk_unseeded t cx cz :
  truthy (terrainSeed t) = false →
  createTerrainChunk t cx cz = mkChunk None cx cz [].
Proof. intros Hs. unfold createTerrainChunk. by rewrite Hs. Qed.

Lemma createTerrainChunk_materialized t cx cz :
  truthy (terrainSeed t) = true →
  materialized (chunkResolution t) (createTerrainChunk t cx cz).
Proof.
  intros Hs. rewrite createTerrainChunk_seeded by done. split; simpl.
  - eexists. split; [done|]. simpl. apply length_chunkVertices.
  - rewrite length_fmap. apply length_chunkVertices.
Qed.

(** ** updateTerrainChunks *)

Lemma lookup_ensured (t : Terrain) (required : list (Z * Z)) (m : gmap (Z * Z) Chunk) (key : Z * Z) :
  foldl (ensureChunk t) m required !! key =
    match m !! key with
    | Some c => Some c
    | None => if decide (key ∈ required)
              then Some (createTerrainChunk t key.1 key.2) else None
    end.
Proof.
  revert m. induction required as [|a l IH]; intros m; simpl.
  - by destruct (m !! key).
  - rewrite IH. unfold ensureChunk.
    destruct (m !! a) as [ca|] eqn:Ha.
    + destruct (m !! key) as [c|] eqn:Hk; [done|].
      assert (key ≠ a) by congruence.
      destruct (decide (key ∈ l)) as [Hin|Hin].
      * by rewrite decide_True by (by apply list_elem_of_further).
      * rewrite decide_False; [done|]. by intros [?|?]%elem_of_cons.
    + destruct (decide (a = key)) as [->|Hne].
      * rewrite lookup_insert_eq, Ha.
        by rewrite decide_True by apply list_elem_of_here.
      * rewrite lookup_insert_ne by done. destruct (m !! key) as [c|]; [done|].
        destruct (decide (key ∈ l)) as [Hin|Hin].
        -- by rewrite decide_True by (by apply list_elem_of_further).
        -- rewrite decide_False; [done|]. intros [?|?]%elem_of_cons; congruence.
Qed.

(** The two ways `updateTerrainChunks` ends. *)
Lemma updateTerrainChunks_throws t p key c :
  terrainChunks t !! key = Some c → mesh c = None → key ∉ requiredChunks t p →
  updateTerrainChunks t p = TypeError.
Proof.
  intros Hk Hm Hreq. unfold updateTerrainChunks. cbv zeta.
  rewrite decide_True; [done|].
  apply (map_Exists_lookup_2 _ _ key c); [|done].
  by rewrite lookup_ensured, Hk.
Qed.

Lemma updateTerrainChunks_returns t p :
  (∀ key c, terrainChunks t !! key = Some c → key ∉ requiredChunks t p →
            mesh c ≠ None) →
  updateTerrainChunks t p =
    Done (set_terrainChunks
            (filter (λ kc, kc.1 ∈ requiredChunks t p)
                    (foldl (ensureChunk t) (terrainChunks t) (requiredChunks t p))) t).
Proof.
  intros Hmesh. unfold updateTerrainChunks. cbv zeta.
  rewrite decide_False; [done|].
  intros (key & c & Hk & Hreq & Hnone)%map_Exists_lookup_1.
  rewrite lookup_ensured in Hk. rewrite decide_False in Hk by done.
  destruct (terrainChunks t !! key) as [c'|] eqn:Hc; [|done].
  injection Hk as ->. by eapply Hmesh.
Qed.

Lemma updateTerrainChunks_lookup t p t' key :
  updateTerrainChunks t p = Done t' →
  terrainChunks t' !! key =
    if decide (key ∈ requiredChunks t p) then
      match terrainChunks t !! key with
      | Some c => Some c
      | None => Some (createTerrainChunk t key.1 key.2)
      end
    else None.
Proof.
  unfold updateTerrainChunks. cbv zeta. case_decide; [done|].
  intros [= <-]. simpl.
  pose proof (lookup_ensured t (requiredChunks t p) (terrainChunks t) key) as Hc.
  destruct (decide (key ∈ requiredChunks t p)) as [Hin|Hin].
  - destruct (terrainChunks t !! key) as [c|]; apply map_lookup_filter_Some; done.
  - apply map_lookup_filter_None. right. intros c _. done.
Qed.

Lemma updateTerrainChunks_config t p t' :
  updateTerrainChunks t p = Done t' →
  t' = set_terrainChunks (terrainChunks t') t.
Proof.
  unfold updateTerrainChunks. cbv zeta. case_decide; [done|]. by intros [= <-].
Qed.

(** ** Streaming set (C3) *)

Lemma updateTerrainChunks_dom (t : Terrain) (p : Vector3) (t' : Terrain) (key : Z * Z) :
  updateTerrainChunks t p = Done t' →
  key ∈ dom (terrainChunks t') ↔ key ∈ requiredChunks t p.
Proof.
  intros Hrun. rewrite elem_of_dom, (updateTerrainChunks_lookup t p t' key Hrun).
  case_decide as Hin.
  - split; [done|]. intros _. destruct (terrainChunks t !! key); by eexists.
  - split; [by intros [? ?]|done].
Qed.

(** The animation and the transition block keep the set of cached keys. *)
Lemma stepLerp_dom (t t' : Terrain) (deltaTime : R) :
  stepLerp t deltaTime = Done t' → dom (terrainChunks t') = dom (terrainChunks t).
Proof.
  unfold stepLerp. cbv zeta.
  destruct (lerpFactor _ _) as [f| |]; [|by case_decide|by case_decide].
  destruct (forChunks _ _) as [chunks| |] eqn:Hrun; simpl; [|done|done].
  apply forChunks_dom in Hrun. simpl in Hrun. case_decide.
  - unfold finishLerp. simpl.
    destruct (forChunks _ chunks) as [chunks'| |] eqn:Hfin; simpl; [|done|done].
    apply forChunks_dom in Hfin. intros [= <-]. simpl. by rewrite Hfin.
  - by intros [= <-].
Qed.

Lemma update_dom (t t' : Terrain) (deltaTime : R) (p : Vector3) (key : Z * Z) :
  update t deltaTime p = Done t' →
  key ∈ dom (terrainChunks t') ↔ key ∈ requiredChunks t p.
Proof.
  unfold update. cbv zeta.
  destruct (updateTerrainChunks _ p) as [t2| |] eqn:Hrun; simpl; [|done|done].
  pose proof (updateTerrainChunks_dom _ p t2 key Hrun) as Hdom.
  change (requiredChunks (set_wavePhase _ t) p) with (requiredChunks t p) in Hdom.
  assert (Hanim : dom (terrainChunks (animateTerrainChunks t2)) = dom (terrainChunks t2))
    by (simpl; apply dom_fmap_L).
  destruct (_regenLerpActive t2).
  - intros Hstep%stepLerp_dom. by rewrite Hstep, Hanim.
  - intros [= <-]. by rewrite Hanim.
Qed.




End Generator.



(** ** Chunk boundaries (C9) *)

Section Boundaries.
Context `{HeightLayers}.

(** The world coordinate of a vertex depends on the chunk index and the
    vertex index only through the global grid index
    `chunk * resolution + vertex`. *)
Lemma world_coordinate (size : R) (resolution : nat) (c : Z) (i : nat) :
  (0 < resolution)%nat →
  IZR c * size + (INR i / INR resolution) * size - size / 2
    = IZR (c * Z.of_nat resolution + Z.of_nat i) * size / INR resolution - size / 2.
Proof.
  intros Hres. assert (INR resolution ≠ 0) by (apply not_0_INR; lia).
  rewrite plus_IZR, mult_IZR, <- !INR_IZR_INZ. field. done.
Qed.

Lemma vertexAt_shared (t1 t2 : Terrain) (cx cz cx' cz' : Z) (x z x' z' : nat) :
  terrainSeed t1 = terrainSeed t2 →
  chunkSize t1 = chunkSize t2 →
  chunkResolution t1 = chunkResolution t2 →
  (0 < chunkResolution t1)%nat →
  (cx * Z.of_nat (chunkResolution t1) + Z.of_nat x
   = cx' * Z.of_nat (chunkResolution t1) + Z.of_nat x')%Z →
  (cz * Z.of_nat (chunkResolution t1) + Z.of_nat z
   = cz' * Z.of_nat (chunkResolution t1) + Z.of_nat z')%Z →
  vertexAt t1 cx cz x z = vertexAt t2 cx' cz' x' z'.
Proof.
  intros Hseed Hsize Hres Hpos Hx Hz. unfold vertexAt. cbv zeta.
  rewrite <- Hseed, <- Hsize, <- Hres.
  rewrite !(world_coordinate (chunkSize t1) (chunkResolution t1)) by done.
  by rewrite Hx, Hz.
Qed.

(** C9.  Two chunks created under the same seed, chunk size and
    resolution store, for a grid point they share (the same global grid
    index in both directions; for neighbours along x, the last column of
    one and the first column of the next), the same vertex: the same world
    coordinates and the same height, which is the height function at
    those coordinates; the same height is in both lists of base
    heights. *)
Theorem adjacent_chunks_agree_on_shared_vertices
    (t1 t2 : Terrain) (cx cz cx' cz' : Z) (x z x' z' : nat) :
  terrainSeed t1 = terrainSeed t2 →
  chunkSize t1 = chunkSize t2 →
  chunkResolution t1 = chunkResolution t2 →
  truthy (terrainSeed t1) = true →
  (0 < chunkResolution t1)%nat →
  (x ≤ chunkResolution t1)%nat → (z ≤ chunkResolution t1)%nat →
  (x' ≤ chunkResolution t1)%nat → (z' ≤ chunkResolution t1)%nat →
  (cx * Z.of_nat (chunkResolution t1) + Z.of_nat x
   = cx' * Z.of_nat (chunkResolution t1) + Z.of_nat x')%Z →
  (cz * Z.of_nat (chunkResolution t1) + Z.of_nat z
   = cz' * Z.of_nat (chunkResolution t1) + Z.of_nat z')%Z →
  let a := createTerrainChunk t1 cx cz in
  let b := createTerrainChunk t2 cx' cz' in
  let i := (z * S (chunkResolution t1) + x)%nat in
  let i' := (z' * S (chunkResolution t1) + x')%nat in
  ∃ (ma mb : Mesh) (v : Vertex),
    mesh a = Some ma ∧ mesh b = Some mb ∧
    position ma !! i = Some v ∧ position mb !! i' = Some v ∧
    originalHeights a !! i = Some (vy v) ∧ originalHeights b !! i' = Some (vy v) ∧
    vy v = generateTerrainHeight (terrainSeed t1) (vx v) (vz v).
Proof.
  intros Hseed Hsize Hres Htruthy Hpos Hx Hz Hx' Hz' Hgx Hgz a b i i'.
  subst a b. rewrite !createTerrainChunk_seeded by congruence.
  pose proof (lookup_chunkVertices t1 cx cz x z Hx Hz) as Ha.
  pose proof (lookup_chunkVertices t2 cx' cz' x' z') as Hb.
  rewrite <- Hres in Hb. specialize (Hb Hx' Hz').
  rewrite <- (vertexAt_shared t1 t2 cx cz cx' cz' x z x' z') in Hb by done.
  eexists _, _, (vertexAt t1 cx cz x z). cbn [mesh position originalHeights].
  subst i i'. repeat split; try done.
  - by rewrite list_lookup_fmap, Ha.
  - by rewrite list_lookup_fmap, Hb.
Qed.

End Boundaries.

Lemma adjacent_chunks_agree_on_shared_vertices_witness :
  let t := constructor (Some 7%Z) in
  ∃ (ma mb : Mesh) (v : Vertex),
    mesh (@createTerrainChunk flatOcean t 0 0) = Some ma ∧
    mesh (@createTerrainChunk flatOcean t 1 0) = Some mb ∧
    position ma !! (5 * 33 + 32)%nat = Some v ∧
    position mb !! (5 * 33 + 0)%nat = Some v.
Proof.
  intros t.
  destruct (@adjacent_chunks_agree_on_shared_vertices flatOcean t t 0 0 1 0
              32 5 0 5 eq_refl eq_refl eq_refl eq_refl)
    as (ma & mb & v & Ha & Hb & Hva & Hvb & _); simpl; try lia.
  exists ma, mb, v. repeat split; assumption.
Defined.

(** ** Seed synchronisation (C1) *)

Section SeedSync.
Context `{HeightLayers}.

Lemma setTerrainSeedAndRegenerate_returns
    (t : Terrain) (seed : option Z) (duration : R) :
  setTerrainSeedAndRegenerate t seed duration
    = Done (set_terrainSeed seed (set_terrainChunks ∅ t)) ∧
  onHostSeedReceived t seed duration
    = Done (set_terrainSeed seed (set_terrainChunks ∅ t)).
Proof.
  assert (Hrun : setTerrainSeedAndRegenerate t seed duration
                 = Done (set_terrainSeed seed (set_terrainChunks ∅ t))).
  { unfold setTerrainSeedAndRegenerate. cbv zeta. simpl.
    rewrite map_size_empty. rewrite decide_False by lia. done. }
  split; [exact Hrun|]. exact Hrun.
Qed.

(** C1.  `setTerrainSeedAndRegenerate` (and `onHostSeedReceived`, which
    calls it) empties the cache before it tests whether chunks are cached,
    so the test fails on every call: the call returns with an empty cache
    and the new seed, and the fields of the regeneration transition are
    those it found.  No new height is computed and no transition starts,
    whether or not chunks were cached. *)
Theorem seed_sync_never_starts_a_transition
    (t : Terrain) (seed : option Z) (duration : R) :
  setTerrainSeedAndRegenerate t seed duration
    = Done (set_terrainSeed seed (set_terrainChunks ∅ t)) ∧
  onHostSeedReceived t seed duration
    = Done (set_terrainSeed seed (set_terrainChunks ∅ t)) ∧
  ∀ t', onHostSeedReceived t seed duration = Done t' →
        terrainChunks t' = ∅ ∧
        terrainSeed t' = seed ∧
        _regenLerpActive t' = _regenLerpActive t ∧
        _regenLerpTime t' = _regenLerpTime t ∧
        _regenOldHeights t' = _regenOldHeights t ∧
        _regenNewHeights t' = _regenNewHeights t ∧
        _regenSeed t' = _regenSeed t.
Proof.
  destruct (setTerrainSeedAndRegenerate_returns t seed duration) as [Hrun Hhost].
  split; [exact Hrun|]. split; [exact Hhost|].
  rewrite Hhost. intros t' [= <-]. done.
Qed.

End SeedSync.

(** ** Cached chunks are materialised (C10) *)

Section Materialized.
Context `{HeightLayers}.

Lemma length_animateVertices (t : Terrain) (heights : list R) (pos : list Vertex) :
  length (animateVertices t heights pos) = length pos.
Proof.
  revert pos. induction heights as [|h hs IH]; intros [|v vs]; simpl; auto.
Qed.

Lemma length_lerpVertices (f : R) (n : nat) (olds news : list R)
    (pos pos' : list Vertex) :
  lerpVertices f n olds news pos = Done pos' → length pos' = length pos.
Proof.
  revert olds news pos pos'.
  induction n as [|n IH]; intros olds news pos pos'; simpl.
  - by intros [= <-].
  - destruct pos as [|v vs]; [by intros [= <-]|].
    destruct olds as [|o os]; [done|]. destruct news as [|nw ns]; [done|].
    destruct (lerpVertices f n os ns vs) as [vs'| |] eqn:Hvs; simpl; [|done|done].
    intros [= <-]. simpl. f_equal. by eapply IH.
Qed.

Lemma animateChunk_materialized (t : Terrain) (n : nat) (c : Chunk) :
  materialized n c → materialized n (animateChunk t c).
Proof.
  intros [(m & Hm & Hlen) Hh]. unfold animateChunk. rewrite Hm.
  split; simpl; [|done]. eexists. split; [done|]. simpl.
  by rewrite length_animateVertices.
Qed.

Lemma lerpChunk_materialized (olds news : gmap (Z * Z) (list R)) (f : R)
    (key : Z * Z) (n : nat) (c c' : Chunk) :
  materialized n c → lerpChunk olds news f key c = Done c' → materialized n c'.
Proof.
  intros [(m & Hm & Hlen) Hh]. unfold lerpChunk. rewrite Hm.
  destruct (originalHeights c) as [|h hs] eqn:Hhs.
  { intros [= <-]. split; [by exists m|]. by rewrite Hhs. }
  destruct (olds !! key) as [o|]; [|done]. destruct (news !! key) as [nw|]; [|done].
  destruct (lerpVertices _ _ _ _ _) as [pos'| |] eqn:Hpos; simpl; [|done|done].
  intros [= <-]. split; simpl; [|done].
  eexists. split; [done|]. simpl.
  by rewrite (length_lerpVertices _ _ _ _ _ _ Hpos).
Qed.

Lemma adoptChunk_materialized (news : gmap (Z * Z) (list R))
    (key : Z * Z) (n : nat) (c c' : Chunk) :
  materialized n c → adoptChunk news key c = Done c' → materialized n c'.
Proof.
  intros [Hm Hh]. unfold adoptChunk.
  destruct (originalHeights c) as [|h hs] eqn:Hhs.
  { intros [= <-]. split; [done|]. by rewrite Hhs. }
  destruct (news !! key) as [nw|]; [|done]. case_decide as Hle; [|done].
  intros [= <-]. split; simpl; [done|].
  rewrite length_take, Nat.min_l by (simpl in Hle; lia). simpl in Hh. lia.
Qed.

Lemma forChunks_materialized (f : Z * Z → Chunk → Outcome Chunk) (n : nat)
    (m m' : gmap (Z * Z) Chunk) :
  (∀ key c c', materialized n c → f key c = Done c' → materialized n c') →
  (∀ key c, m !! key = Some c → materialized n c) →
  forChunks f m = Done m' →
  ∀ key c', m' !! key = Some c' → materialized n c'.
Proof.
  intros Hf Hm Hrun key c' Hc'.
  pose proof (forChunks_returns f m m' key Hrun) as Hk.
  destruct (m !! key) as [c|] eqn:Hc; [|congruence].
  destruct Hk as (c'' & Hfc & Hm'). assert (c'' = c') as -> by congruence.
  eapply Hf; [|done]. by eapply Hm.
Qed.

(** Under a non-zero seed the streaming pass keeps the cache
    materialised, and it returns. *)
Lemma updateTerrainChunks_materialized (t : Terrain) (p : Vector3) :
  truthy (terrainSeed t) = true → cacheMaterialized t →
  ∃ t', updateTerrainChunks t p = Done t' ∧ cacheMaterialized t' ∧
        chunkResolution t' = chunkResolution t.
Proof.
  intros Hseed Hinv.
  assert (Hrun : ∃ t', updateTerrainChunks t p = Done t').
  { eexists. apply updateTerrainChunks_returns. intros key c Hc _.
    destruct (Hinv key c Hc) as [(m & -> & _) _]. done. }
  destruct Hrun as [t' Hrun]. exists t'. split; [done|].
  pose proof (updateTerrainChunks_config t p t' Hrun) as Ht'.
  assert (Hres : chunkResolution t' = chunkResolution t) by (by rewrite Ht').
  split; [|done]. intros key c Hc. rewrite Hres.
  rewrite (updateTerrainChunks_lookup t p t' key Hrun) in Hc.
  case_decide; [|done]. destruct (terrainChunks t !! key) as [c0|] eqn:Hc0.
  - injection Hc as <-. by eapply Hinv.
  - injection Hc as <-. by apply createTerrainChunk_materialized.
Qed.

Lemma animateTerrainChunks_materialized (t : Terrain) :
  cacheMaterialized t → cacheMaterialized (animateTerrainChunks t).
Proof.
  intros Hinv key c. unfold animateTerrainChunks. simpl.
  rewrite lookup_fmap. destruct (terrainChunks t !! key) as [c0|] eqn:Hc0; [|done].
  intros [= <-]. apply animateChunk_materialized. by eapply Hinv.
Qed.

Lemma regenerateTerrain_chunks (t t' : Terrain) (newSeed : option Z) (duration : R) :
  regenerateTerrain t newSeed duration = Done t' →
  terrainChunks t' = terrainChunks t ∧ chunkResolution t' = chunkResolution t.
Proof.
  unfold regenerateTerrain. cbv zeta. case_decide; [done|]. case_decide; [done|].
  by intros [= <-].
Qed.

Lemma finishLerp_materialized (t t' : Terrain) :
  cacheMaterialized t → finishLerp t = Done t' →
  cacheMaterialized t' ∧ chunkResolution t' = chunkResolution t.
Proof.
  intros Hinv. unfold finishLerp.
  destruct (forChunks _ _) as [chunks| |] eqn:Hrun; simpl; [|done|done].
  intros [= <-]. split; [|done]. intros key c. simpl.
  eapply forChunks_materialized; [|exact Hinv|exact Hrun].
  intros k c0 c'. apply adoptChunk_materialized.
Qed.

Lemma stepLerp_materialized (t t' : Terrain) (deltaTime : R) :
  cacheMaterialized t → stepLerp t deltaTime = Done t' →
  cacheMaterialized t' ∧ chunkResolution t' = chunkResolution t.
Proof.
  intros Hinv. unfold stepLerp. cbv zeta.
  destruct (lerpFactor _ _) as [f| |]; [|by case_decide|by case_decide].
  destruct (forChunks _ _) as [chunks| |] eqn:Hrun; simpl; [|done|done].
  assert (Hchunks : cacheMaterialized
            (set_terrainChunks chunks
               (set_regenLerpTime (_regenLerpTime t + deltaTime) t))).
  { intros key c. simpl.
    eapply forChunks_materialized; [|exact Hinv|exact Hrun].
    intros k c0 c'. apply lerpChunk_materialized. }
  case_decide.
  - intros Hfin. by destruct (finishLerp_materialized _ _ Hchunks Hfin).
  - by intros [= <-].
Qed.

Lemma update_materialized (t t' : Terrain) (deltaTime : R) (p : Vector3) :
  truthy (terrainSeed t) = true → cacheMaterialized t →
  update t deltaTime p = Done t' →
  cacheMaterialized t' ∧ chunkResolution t' = chunkResolution t.
Proof.
  intros Hseed Hinv. unfold update. cbv zeta.
  destruct (updateTerrainChunks_materialized
              (set_wavePhase (wavePhase t + deltaTime * waveSpeed t) t) p Hseed Hinv)
    as (t2 & -> & Hinv2 & Hres2). simpl.
  apply animateTerrainChunks_materialized in Hinv2.
  destruct (_regenLerpActive t2).
  - intros Hstep. destruct (stepLerp_materialized _ _ _ Hinv2 Hstep) as [? Hres].
    split; [done|]. rewrite Hres. simpl. by rewrite Hres2.
  - intros [= <-]. split; [done|]. simpl. by rewrite Hres2.
Qed.

Lemma seededHistory_materialized (t : Terrain) :
  seededHistory t → cacheMaterialized t.
Proof.
  induction 1 as [seed | t t' c Hhist IH Hseed Hrun].
  - intros key c. simpl. by rewrite lookup_empty.
  - destruct c as [dt p | p | | newSeed d | seed d | seed d]; cbn [perform] in Hrun.
    + by destruct (update_materialized t t' dt p (Hseed eq_refl) IH Hrun).
    + destruct (updateTerrainChunks_materialized t p (Hseed eq_refl) IH)
        as (t2 & Ht2 & Hinv & _).
      rewrite Hrun in Ht2. by injection Ht2 as ->.
    + injection Hrun as <-. by apply animateTerrainChunks_materialized.
    + destruct (regenerateTerrain_chunks _ _ _ _ Hrun) as [Hc Hr].
      intros key c. rewrite Hc, Hr. apply IH.
    + destruct (setTerrainSeedAndRegenerate_returns t seed d) as [Heq _].
      rewrite Heq in Hrun. injection Hrun as <-.
      intros key c. simpl. by rewrite lookup_empty.
    + destruct (setTerrainSeedAndRegenerate_returns t seed d) as [_ Heq].
      rewrite Heq in Hrun. injection Hrun as <-.
      intros key c. simpl. by rewrite lookup_empty.
Qed.

(** C10.  (1) A chunk created under a non-zero seed has a mesh and
    (chunkResolution + 1)² base heights.  (2) In every state of a seeded
    history every cached chunk has a mesh and (chunkResolution + 1)² base
    heights, and (3) `updateTerrainChunks` returns from such a state: the
    eviction loop does not raise.  (4) A chunk created under a zero or
    missing seed has no mesh and no base heights, and (5) the streaming
    pass stores it in the cache all the same.  (6) When a cached chunk
    without mesh is no longer required, the eviction loop raises. *)
Theorem cached_chunks_have_meshes_under_nonzero_seed :
  (∀ (t : Terrain) (cx cz : Z),
      truthy (terrainSeed t) = true →
      mesh (createTerrainChunk t cx cz) ≠ None ∧
      length (originalHeights (createTerrainChunk t cx cz))
        = ((chunkResolution t + 1) * (chunkResolution t + 1))%nat) ∧
  (∀ (t : Terrain) (key : Z * Z) (c : Chunk),
      seededHistory t → terrainChunks t !! key = Some c →
      mesh c ≠ None ∧
      length (originalHeights c)
        = ((chunkResolution t + 1) * (chunkResolution t + 1))%nat) ∧
  (∀ (t : Terrain) (p : Vector3),
      seededHistory t → ∃ t', updateTerrainChunks t p = Done t') ∧
  (∀ (t : Terrain) (cx cz : Z),
      truthy (terrainSeed t) = false →
      createTerrainChunk t cx cz = mkChunk None cx cz []) ∧
  (∀ (t t' : Terrain) (p : Vector3) (key : Z * Z),
      truthy (terrainSeed t) = false →
      key ∈ requiredChunks t p → terrainChunks t !! key = None →
      updateTerrainChunks t p = Done t' →
      terrainChunks t' !! key = Some (mkChunk None key.1 key.2 [])) ∧
  (∀ (t : Terrain) (p : Vector3) (key : Z * Z) (c : Chunk),
      terrainChunks t !! key = Some c → mesh c = None →
      key ∉ requiredChunks t p →
      updateTerrainChunks t p = TypeError).
Proof.
  assert (Hshape : ∀ n (c : Chunk), materialized n c →
            mesh c ≠ None ∧ length (originalHeights c) = ((n + 1) * (n + 1))%nat).
  { intros n c [(m & -> & _) Hlen]. split; [done|]. rewrite Hlen. lia. }
  split; [|split; [|split; [|split; [|split]]]].
  - intros t cx cz Hseed. apply Hshape. by apply createTerrainChunk_materialized.
  - intros t key c Hhist Hc. apply Hshape.
    by apply (seededHistory_materialized t Hhist key).
  - intros t p Hhist. eexists. apply updateTerrainChunks_returns.
    intros key c Hc _.
    destruct (seededHistory_materialized t Hhist key c Hc) as [(m & -> & _) _]. done.
  - intros t cx cz. apply createTerrainChunk_unseeded.
  - intros t t' p key Hseed Hreq Hnone Hrun.
    rewrite (updateTerrainChunks_lookup t p t' key Hrun).
    rewrite decide_True by done. rewrite Hnone.
    by rewrite createTerrainChunk_unseeded.
  - intros t p key c. apply updateTerrainChunks_throws.
Qed.

End Materialized.

(** A generator whose seed is 0: the first streaming pass stores chunk
    (0, 0) without a mesh; the next pass, a long way off, raises when it
    evicts that chunk. *)
Lemma cached_chunks_have_meshes_under_nonzero_seed_witness :
  let t0 := constructor (Some 0%Z) in
  ∃ t1, @updateTerrainChunks flatOcean t0 (mkVector3 0 0 0) = Done t1 ∧
        terrainChunks t1 !! (0, 0)%Z = Some (mkChunk None 0 0 []) ∧
        @updateTerrainChunks flatOcean t1 (mkVector3 1000000 0 0) = TypeError.
Proof.
  intros t0.
  destruct (@cached_chunks_have_meshes_under_nonzero_seed flatOcean)
    as (_ & _ & Hreturns & _ & Hstored & Hraises).
  destruct (Hreturns t0 (mkVector3 0 0 0) (history_new (Some 0%Z))) as [t1 Hrun].
  assert (Hsize : ∀ t : Terrain, chunkSize t = 200 → 0 < chunkSize t)
    by (intros t ->; lra).
  assert (Hnear : (0, 0)%Z ∈ requiredChunks t0 (mkVector3 0 0 0)).
  { apply elem_of_requiredChunks; [by apply Hsize|].
    unfold inRange, playerChunk. simpl.
    assert (Hf : floor (0 / 200) = 0%Z) by (apply floor_spec; simpl; lra).
    rewrite Hf.
    replace ((0 - 0) * (0 - 0) + (0 - 0) * (0 - 0))%Z with 0%Z by reflexivity.
    rewrite sqrt_0. lra. }
  assert (Hchunk : terrainChunks t1 !! (0, 0)%Z = Some (mkChunk None 0 0 []))
    by (by apply (Hstored t0 t1 (mkVector3 0 0 0) (0, 0)%Z)).
  exists t1. split; [exact Hrun|]. split; [exact Hchunk|].
  apply (Hraises t1 (mkVector3 1000000 0 0) (0, 0)%Z _ Hchunk eq_refl).
  rewrite (updateTerrainChunks_config t0 _ t1 Hrun).
  rewrite elem_of_requiredChunks by (by apply Hsize).
  unfold inRange, playerChunk. simpl.
  assert (Hfx : floor (1000000 / 200) = 5000%Z) by (apply floor_spec; simpl; lra).
  assert (Hfz : floor (0 / 200) = 0%Z) by (apply floor_spec; simpl; lra).
  rewrite Hfx, Hfz.
  replace ((0 - 5000) * (0 - 5000) + (0 - 0) * (0 - 0))%Z with 25000000%Z
    by reflexivity.
  rewrite sqrt_scaled_le by (lra || lia). lra.
Defined.

(** ** The regeneration transition (C4) *)

Section Transition.
Context `{HeightLayers}.

Lemma updateTerrainChunks_outcome (t : Terrain) (p : Vector3) :
  updateTerrainChunks t p = TypeError ∨ ∃ t', updateTerrainChunks t p = Done t'.
Proof.
  unfold updateTerrainChunks. cbv zeta. case_decide; [by left|]. right. by eexists.
Qed.

Lemma originalHeights_animateChunk (t : Terrain) (c : Chunk) :
  originalHeights (animateChunk t c) = originalHeights c.
Proof. unfold animateChunk. by destruct (mesh c). Qed.

(** The transition block raises at a chunk that has base heights and no
    old samples. *)
Lemma lerpChunk_uncovered (olds news : gmap (Z * Z) (list R)) (f : R)
    (key : Z * Z) (c : Chunk) :
  originalHeights c ≠ [] → olds !! key = None →
  lerpChunk olds news f key c = TypeError.
Proof.
  intros Hh Hold. unfold lerpChunk. destruct (mesh c); [|done].
  destruct (originalHeights c); [done|]. by rewrite Hold.
Qed.

Lemma stepLerp_uncovered (t : Terrain) (deltaTime : R) (key : Z * Z) (c : Chunk) :
  terrainChunks t !! key = Some c →
  originalHeights c ≠ [] → _regenOldHeights t !! key = None →
  stepLerp t deltaTime = TypeError.
Proof.
  intros Hc Hh Hold. unfold stepLerp. cbv zeta.
  assert (Hthrow : ∀ f, lerpChunk (_regenOldHeights t) (_regenNewHeights t) f key c
                        = TypeError) by (intros f; by apply lerpChunk_uncovered).
  destruct (lerpFactor _ _) as [f| |]; simpl.
  - by rewrite (forChunks_throws _ _ key c Hc (Hthrow f)).
  - rewrite decide_True; [done|].
    apply (map_Exists_lookup_2 _ _ key c); [done|]. by rewrite Hthrow.
  - rewrite decide_True; [done|].
    apply (map_Exists_lookup_2 _ _ key c); [done|]. by rewrite Hthrow.
Qed.

(** C4, where the code departs from it.  While a transition is active, a
    frame whose streaming pass creates a chunk (a required key that is not
    cached and has no transition samples) raises a `TypeError` in the
    interpolation loop: the frame does not return, the block that ends
    the transition is not reached and the transition is not cleared. *)
Theorem update_raises_when_a_chunk_streams_in_mid_transition
    (t : Terrain) (deltaTime : R) (playerPosition : Vector3) (key : Z * Z) :
  _regenLerpActive t = true →
  truthy (terrainSeed t) = true →
  key ∈ requiredChunks t playerPosition →
  terrainChunks t !! key = None →
  _regenOldHeights t !! key = None →
  update t deltaTime playerPosition = TypeError.
Proof.
  intros Hactive Hseed Hreq Hnone Hold. unfold update. cbv zeta.
  set (t1 := set_wavePhase _ t).
  destruct (updateTerrainChunks_outcome t1 playerPosition) as [-> | [t2 Hrun]];
    [done|].
  rewrite Hrun. simpl.
  pose proof (updateTerrainChunks_lookup t1 playerPosition t2 key Hrun) as Hk.
  rewrite decide_True in Hk by exact Hreq.
  replace (terrainChunks t1 !! key) with (@None Chunk) in Hk by (by rewrite <- Hnone).
  pose proof (updateTerrainChunks_config t1 playerPosition t2 Hrun) as Ht2.
  assert (Hact2 : _regenLerpActive t2 = true) by (rewrite Ht2; exact Hactive).
  assert (Hold2 : _regenOldHeights t2 !! key = None) by (rewrite Ht2; exact Hold).
  change (_regenLerpActive (animateTerrainChunks t2)) with (_regenLerpActive t2).
  rewrite Hact2.
  apply (stepLerp_uncovered _ _ key (animateChunk t2 (createTerrainChunk t1 key.1 key.2))).
  - simpl. by rewrite lookup_fmap, Hk.
  - rewrite originalHeights_animateChunk.
    destruct (createTerrainChunk_materialized t1 key.1 key.2 Hseed) as [_ Hlen].
    intros Hnil. rewrite Hnil in Hlen. simpl in Hlen. lia.
  - exact Hold2.
Qed.

(** Outside a transition a frame is the streaming pass followed by the
    wave animation. *)
Lemma update_idle (t : Terrain) (deltaTime : R) (p : Vector3) :
  _regenLerpActive t = false →
  truthy (terrainSeed t) = true → cacheMaterialized t →
  ∃ t2, updateTerrainChunks
          (set_wavePhase (wavePhase t + deltaTime * waveSpeed t) t) p = Done t2 ∧
        update t deltaTime p = Done (animateTerrainChunks t2).
Proof.
  intros Hidle Hseed Hinv. unfold update. cbv zeta.
  destruct (updateTerrainChunks_materialized
              (set_wavePhase (wavePhase t + deltaTime * waveSpeed t) t) p Hseed Hinv)
    as (t2 & Hrun & _ & _).
  exists t2. split; [exact Hrun|]. rewrite Hrun. simpl.
  rewrite (updateTerrainChunks_config _ p t2 Hrun). simpl. by rewrite Hidle.
Qed.

Lemma regenChunk_materialized (newSeed : option Z) (n : nat) (c : Chunk) :
  materialized n c → ∃ l, regenChunk newSeed c = Done l.
Proof.
  intros [(m & Hm & Hlen) Hh]. unfold regenChunk, regenNewHeights. rewrite Hm.
  rewrite decide_True by lia. by eexists.
Qed.

Lemma regenerateTerrain_returns (t : Terrain) (newSeed : option Z) (duration : R) :
  cacheMaterialized t →
  ∃ news, regenerateTerrain t newSeed duration
          = Done (set_regen (originalHeights <$> terrainChunks t) news
                            newSeed duration t).
Proof.
  intros Hinv. unfold regenerateTerrain. cbv zeta.
  rewrite decide_False.
  2:{ intros (key & c & Hc & Hthrow)%map_Exists_lookup_1.
      destruct (regenChunk_materialized newSeed _ c (Hinv key c Hc)) as [l Hl].
      by rewrite Hl in Hthrow. }
  rewrite decide_False.
  2:{ intros (key & c & Hc & Hthrow)%map_Exists_lookup_1.
      destruct (regenChunk_materialized newSeed _ c (Hinv key c Hc)) as [l Hl].
      by rewrite Hl in Hthrow. }
  by eexists.
Qed.

(** *** What the transition block does on covered chunks *)

Lemma lerpVertices_spec (f : R) (k : nat) (o n : list R) (pos : list Vertex) :
  length o = k → length n = k → length pos = k →
  ∃ pos', lerpVertices f k o n pos = Done pos' ∧
    ∀ i v oldH newH,
      pos !! i = Some v → o !! i = Some oldH → n !! i = Some newH →
      pos' !! i = Some (mkVertex (vx v) (oldH + (newH - oldH) * f) (vz v)).
Proof.
  revert o n pos. induction k as [|k IH]; intros o n pos Ho Hn Hpos.
  - destruct pos; [|done]. exists []. split; [done|]. by intros i v ? ? ?.
  - destruct o as [|oldH0 o]; [done|]. destruct n as [|newH0 n]; [done|].
    destruct pos as [|v0 pos]; [done|]. simpl in Ho, Hn, Hpos.
    destruct (IH o n pos) as (pos' & Hrun & Hlook); [lia..|].
    eexists. split; [simpl; rewrite Hrun; reflexivity|].
    intros [|i] v oldH newH; simpl.
    + by intros [= <-] [= <-] [= <-].
    + apply Hlook.
Qed.

Lemma lerpChunk_spec (olds news : gmap (Z * Z) (list R)) (f : R)
    (key : Z * Z) (c : Chunk) (m : Mesh) (o n : list R) :
  mesh c = Some m → olds !! key = Some o → news !! key = Some n →
  length (position m) = length (originalHeights c) →
  length o = length (originalHeights c) →
  length n = length (originalHeights c) →
  ∃ c' m', lerpChunk olds news f key c = Done c' ∧
    mesh c' = Some m' ∧ originalHeights c' = originalHeights c ∧
    ∀ i v oldH newH,
      position m !! i = Some v → o !! i = Some oldH → n !! i = Some newH →
      position m' !! i = Some (mkVertex (vx v) (oldH + (newH - oldH) * f) (vz v)).
Proof.
  intros Hm Ho Hn Hpos Hlo Hln. unfold lerpChunk. rewrite Hm.
  destruct (originalHeights c) as [|h hs] eqn:Hh.
  - exists c, m. split; [done|]. split; [done|]. split; [done|].
    destruct (position m); [|done]. by intros i v ? ? ?.
  - rewrite Ho, Hn.
    destruct (lerpVertices_spec f (length (h :: hs)) o n (position m))
      as (pos' & Hrun & Hlook); [done..|].
    rewrite Hrun. simpl. eexists _, (mkMesh pos'). split; [done|].
    split; [done|]. split; [done|]. exact Hlook.
Qed.

Lemma adoptChunk_spec (news : gmap (Z * Z) (list R)) (key : Z * Z)
    (c : Chunk) (n : list R) :
  news !! key = Some n → length n = length (originalHeights c) →
  adoptChunk news key c = Done (mkChunk (mesh c) (chunkX c) (chunkZ c) n).
Proof.
  intros Hn Hln. unfold adoptChunk.
  destruct (originalHeights c) as [|h hs] eqn:Hh.
  - destruct n; [|done]. destruct c. simpl in *. by rewrite Hh.
  - rewrite Hn. rewrite decide_True by lia.
    by rewrite <- Hln, firstn_all.
Qed.

Lemma forChunks_all (f : Z * Z → Chunk → Outcome Chunk) (m : gmap (Z * Z) Chunk) :
  (∀ key c, m !! key = Some c → ∃ c', f key c = Done c') →
  ∃ m', forChunks f m = Done m'.
Proof.
  intros Hall. unfold forChunks.
  rewrite decide_False.
  2:{ intros (key & c & Hc & Hthrow)%map_Exists_lookup_1.
      destruct (Hall key c Hc) as [c' Hf]. by rewrite Hf in Hthrow. }
  rewrite decide_False.
  2:{ intros (key & c & Hc & Hthrow)%map_Exists_lookup_1.
      destruct (Hall key c Hc) as [c' Hf]. by rewrite Hf in Hthrow. }
  by eexists.
Qed.

(** On a covered cache and with a non-zero duration, the transition
    block returns; it sets every vertex height to
    `old + (new - old) * min(1, time / duration)`, and once that factor
    reaches 1 the new samples are the base heights, the seed is the
    pending seed and the transition is over. *)
Lemma stepLerp_interpolates (t : Terrain) (deltaTime : R) :
  covered t → _regenLerpDuration t ≠ 0 →
  let f := Rmin 1 ((_regenLerpTime t + deltaTime) / _regenLerpDuration t) in
  ∃ t', stepLerp t deltaTime = Done t' ∧
    _regenLerpTime t' = _regenLerpTime t + deltaTime ∧
    (∀ key c m o n i v oldH newH,
        terrainChunks t !! key = Some c → mesh c = Some m →
        _regenOldHeights t !! key = Some o → _regenNewHeights t !! key = Some n →
        position m !! i = Some v → o !! i = Some oldH → n !! i = Some newH →
        ∃ c' m', terrainChunks t' !! key = Some c' ∧ mesh c' = Some m' ∧
          position m' !! i
            = Some (mkVertex (vx v) (oldH + (newH - oldH) * f) (vz v)) ∧
          (1 <= f → originalHeights c' = n) ∧
          (f < 1 → originalHeights c' = originalHeights c)) ∧
    (1 <= f → _regenLerpActive t' = false ∧ terrainSeed t' = _regenSeed t) ∧
    (f < 1 → _regenLerpActive t' = _regenLerpActive t ∧
             terrainSeed t' = terrainSeed t).
Proof.
  intros Hcov Hd f. unfold stepLerp. cbv zeta. unfold lerpFactor.
  cbn [_regenLerpDuration set_regenLerpTime _regenOldHeights _regenNewHeights
       terrainChunks].
  rewrite decide_False by done. fold f.
  set (step := lerpChunk (_regenOldHeights t) (_regenNewHeights t) f).
  assert (Hstep : ∀ key c, terrainChunks t !! key = Some c →
            ∃ c', step key c = Done c').
  { intros key c Hc. destruct (Hcov key c Hc) as (m & o & n & Hm & Ho & Hn & ? & ? & ?).
    destruct (lerpChunk_spec (_regenOldHeights t) (_regenNewHeights t) f key c m o n) as (c' & _ & Hc' & _); try done.
    by exists c'. }
  destruct (forChunks_all step _ Hstep) as [chunks Hchunks].
  rewrite Hchunks. cbn [bind].
  assert (Hvertex : ∀ key c m o n i v oldH newH,
            terrainChunks t !! key = Some c → mesh c = Some m →
            _regenOldHeights t !! key = Some o → _regenNewHeights t !! key = Some n →
            position m !! i = Some v → o !! i = Some oldH → n !! i = Some newH →
            ∃ c' m', chunks !! key = Some c' ∧ mesh c' = Some m' ∧
              originalHeights c' = originalHeights c ∧
              length n = length (originalHeights c) ∧
              position m' !! i
                = Some (mkVertex (vx v) (oldH + (newH - oldH) * f) (vz v))).
  { intros key c m o n i v oldH newH Hc Hm Ho Hn Hv HoldH HnewH.
    destruct (Hcov key c Hc) as (m0 & o0 & n0 & Hm0 & Ho0 & Hn0 & ? & ? & ?).
    assert (m0 = m) as -> by congruence. assert (o0 = o) as -> by congruence.
    assert (n0 = n) as -> by congruence.
    destruct (lerpChunk_spec (_regenOldHeights t) (_regenNewHeights t) f key c m o n) as (c' & m' & Hc' & Hm' & Hh' & Hlook);
      try done.
    pose proof (forChunks_returns step _ chunks key Hchunks) as Hk.
    rewrite Hc in Hk. destruct Hk as (c'' & Hc'' & Hlk).
    assert (c'' = c') as -> by (unfold step in Hc''; congruence).
    exists c', m'. repeat split; try done. by eapply Hlook. }
  destruct (decide (1 <= f)) as [Hone|Hless].
  - unfold finishLerp.
    cbn [_regenNewHeights set_terrainChunks terrainChunks _regenSeed set_regenLerpTime].
    set (adopt := adoptChunk (_regenNewHeights t)).
    assert (Hadopt : ∀ key c', chunks !! key = Some c' →
              ∃ n, _regenNewHeights t !! key = Some n ∧
                   adopt key c' = Done (mkChunk (mesh c') (chunkX c') (chunkZ c') n)).
    { intros key c' Hc'.
      pose proof (forChunks_returns step _ chunks key Hchunks) as Hk.
      destruct (terrainChunks t !! key) as [c|] eqn:Hc; [|congruence].
      destruct Hk as (c'' & Hc'' & Hlk). assert (c'' = c') as -> by congruence.
      destruct (Hcov key c Hc) as (m & o & n & Hm & Ho & Hn & ? & ? & ?).
      destruct (lerpChunk_spec (_regenOldHeights t) (_regenNewHeights t) f key c m o n) as (c2 & m' & Hc2 & Hm' & Hh' & _);
        try done.
      assert (c2 = c') as -> by (unfold step in Hc''; congruence).
      exists n. split; [done|]. apply adoptChunk_spec; [done|]. by rewrite Hh'. }
    destruct (forChunks_all adopt chunks) as [chunks' Hchunks'].
    { intros key c' Hc'. destruct (Hadopt key c' Hc') as (n & _ & Hn). by eexists. }
    rewrite Hchunks'. cbn [bind]. eexists. split; [done|]. split; [done|].
    split; [|split; [done|lra]].
    intros key c m o n i v oldH newH Hc Hm Ho Hn Hv HoldH HnewH.
    destruct (Hvertex key c m o n i v oldH newH) as (c' & m' & Hc' & Hm' & _ & _ & Hpos);
      try done.
    pose proof (forChunks_returns adopt chunks chunks' key Hchunks') as Hk.
    rewrite Hc' in Hk. destruct Hk as (c'' & Hc'' & Hlk).
    destruct (Hadopt key c' Hc') as (n' & Hn' & Hdone).
    assert (n' = n) as -> by congruence.
    rewrite Hdone in Hc''. injection Hc'' as <-.
    eexists _, m'. cbn [terrainChunks set_regenLerpActive set_terrainChunks].
    split; [exact Hlk|]. split; [done|]. split; [done|]. split; [done|lra].
  - eexists. split; [done|]. split; [done|].
    split; [|split; [lra|done]].
    intros key c m o n i v oldH newH Hc Hm Ho Hn Hv HoldH HnewH.
    destruct (Hvertex key c m o n i v oldH newH) as (c' & m' & Hc' & Hm' & Hh & _ & Hpos);
      try done.
    exists c', m'. cbn [terrainChunks set_terrainChunks].
    split; [done|]. split; [done|]. split; [done|]. split; [lra|done].
Qed.

Lemma lookup_animateVertices (t : Terrain) (heights : list R) (pos : list Vertex)
    (i : nat) (v : Vertex) :
  pos !! i = Some v →
  ∃ v', animateVertices t heights pos !! i = Some v' ∧ vx v' = vx v ∧ vz v' = vz v.
Proof.
  revert pos i. induction heights as [|h hs IH]; intros pos i Hv.
  - exists v. by destruct pos.
  - destruct pos as [|v0 pos]; [done|]. destruct i as [|i]; simpl in *.
    + injection Hv as ->. by eexists.
    + by apply IH.
Qed.

(** A whole frame during a transition, when its streaming pass leaves the
    cache as it is (the cached keys are the required ones), the duration
    is not zero and the cache is covered: the frame returns, every vertex
    height is `old + (new - old) * min(1, time / duration)`, and once the
    factor is 1 every vertex is at its new height, the new samples are the
    base heights, the seed is the pending seed and the transition is
    over. *)
Lemma update_interpolates (t : Terrain) (deltaTime : R) (p : Vector3) :
  _regenLerpActive t = true → _regenLerpDuration t ≠ 0 → covered t →
  (∀ key, key ∈ requiredChunks t p ↔ key ∈ dom (terrainChunks t)) →
  let f := Rmin 1 ((_regenLerpTime t + deltaTime) / _regenLerpDuration t) in
  ∃ t', update t deltaTime p = Done t' ∧
    (∀ key c m o n i v oldH newH,
        terrainChunks t !! key = Some c → mesh c = Some m →
        _regenOldHeights t !! key = Some o → _regenNewHeights t !! key = Some n →
        position m !! i = Some v → o !! i = Some oldH → n !! i = Some newH →
        ∃ c' m', terrainChunks t' !! key = Some c' ∧ mesh c' = Some m' ∧
          position m' !! i
            = Some (mkVertex (vx v) (oldH + (newH - oldH) * f) (vz v)) ∧
          (1 <= f → originalHeights c' = n ∧
                    position m' !! i = Some (mkVertex (vx v) newH (vz v)))) ∧
    (1 <= f → _regenLerpActive t' = false ∧ terrainSeed t' = _regenSeed t) ∧
    (f < 1 → _regenLerpActive t' = true).
Proof.
  intros Hactive Hd Hcov Hsame f. unfold update. cbv zeta.
  set (t1 := set_wavePhase _ t).
  assert (Hrun : updateTerrainChunks t1 p = Done (set_terrainChunks (terrainChunks t) t1)).
  { rewrite updateTerrainChunks_returns.
    2:{ intros key c Hc _. destruct (Hcov key c Hc) as (m & _ & _ & -> & _). done. }
    do 2 f_equal. apply map_eq. intros key.
    destruct (decide (key ∈ requiredChunks t p)) as [Hin|Hin].
    - pose proof Hin as Hdom. apply Hsame in Hdom. apply elem_of_dom in Hdom as [c Hc].
      change (terrainChunks t1) with (terrainChunks t). rewrite Hc.
      apply map_lookup_filter_Some. split; [|exact Hin].
      rewrite lookup_ensured. change (terrainChunks t1) with (terrainChunks t).
      by rewrite Hc.
    - assert (Hnone : terrainChunks t !! key = None).
      { apply not_elem_of_dom. by rewrite <- Hsame. }
      change (terrainChunks t1) with (terrainChunks t). rewrite Hnone.
      apply map_lookup_filter_None. right. intros c _. exact Hin. }
  rewrite Hrun. cbn [bind].
  set (t3 := animateTerrainChunks (set_terrainChunks (terrainChunks t) t1)).
  change (_regenLerpActive t3) with (_regenLerpActive t). rewrite Hactive.
  assert (Hcov3 : covered t3).
  { intros key c3. unfold t3. cbn [animateTerrainChunks terrainChunks set_terrainChunks].
    rewrite lookup_fmap.
    destruct (terrainChunks t !! key) as [c|] eqn:Hc; [|done]. intros [= <-].
    destruct (Hcov key c Hc) as (m & o & n & Hm & Ho & Hn & Hlp & Hlo & Hln).
    unfold animateChunk. rewrite Hm.
    exists (mkMesh (animateVertices (set_terrainChunks (terrainChunks t) t1)
                      (originalHeights c) (position m))), o, n.
    cbn [mesh position originalHeights].
    split; [done|]. split; [exact Ho|]. split; [exact Hn|].
    split; [by rewrite length_animateVertices|done]. }
  destruct (stepLerp_interpolates t3 deltaTime Hcov3 Hd)
    as (t' & Hstep & _ & Hvertex & Hone & Hless).
  change (Rmin 1 ((_regenLerpTime t3 + deltaTime) / _regenLerpDuration t3))
    with f in Hvertex, Hone, Hless.
  exists t'. split; [exact Hstep|]. split; [|split; [exact Hone|]].
  - intros key c m o n i v oldH newH Hc Hm Ho Hn Hv HoldH HnewH.
    destruct (lookup_animateVertices (set_terrainChunks (terrainChunks t) t1)
                (originalHeights c) (position m) i v Hv) as (v3 & Hv3 & Hx & Hz).
    destruct (Hvertex key (animateChunk (set_terrainChunks (terrainChunks t) t1) c)
                (mkMesh (animateVertices (set_terrainChunks (terrainChunks t) t1)
                           (originalHeights c) (position m)))
                o n i v3 oldH newH) as (c' & m' & Hc' & Hm' & Hpos & Hfin & _);
      try done.
    + unfold t3. cbn [animateTerrainChunks terrainChunks set_terrainChunks].
      by rewrite lookup_fmap, Hc.
    + unfold animateChunk. rewrite Hm. reflexivity.
    + rewrite Hx, Hz in Hpos. exists c', m'. split; [done|]. split; [done|].
      split; [done|]. intros H1. split; [by apply Hfin|].
      rewrite Hpos. do 2 f_equal.
      assert (f = 1) as -> by (unfold f in *; pose proof (Rmin_l 1
        ((_regenLerpTime t + deltaTime) / _regenLerpDuration t)); lra).
      lra.
  - intros Hlt. destruct (Hless Hlt) as [-> _]. exact Hactive.
Qed.

End Transition.

(** A generator streams in the chunks around the origin, a transition to
    seed 9 is started, and the next frame finds the player one chunk
    further along x: chunk (17, 0) is created by that frame's streaming
    pass and the frame raises. *)
Lemma update_raises_when_a_chunk_streams_in_mid_transition_witness :
  let t0 := constructor (Some 7%Z) in
  ∃ t1 t2,
    @update flatOcean t0 (1 / 60) (mkVector3 0 0 0) = Done t1 ∧
    @regenerateTerrain flatOcean t1 (Some 9%Z) 1 = Done t2 ∧
    @update flatOcean t2 (1 / 2) (mkVector3 200 0 0) = TypeError.
Proof.
  intros t0.
  assert (Hinv0 : cacheMaterialized t0)
    by (intros key c Hc; simpl in Hc; by rewrite lookup_empty in Hc).
  destruct (@update_idle flatOcean t0 (1 / 60) (mkVector3 0 0 0) eq_refl eq_refl Hinv0)
    as (s1 & Hstream & Hupdate).
  pose proof (@updateTerrainChunks_config flatOcean _ _ s1 Hstream) as Hs1.
  set (t1 := animateTerrainChunks s1) in *.
  assert (Hinv1 : cacheMaterialized t1).
  { apply (@seededHistory_materialized flatOcean).
    apply (history_call t0 t1 (call_update (1 / 60) (mkVector3 0 0 0)));
      [apply history_new | done | exact Hupdate]. }
  destruct (@regenerateTerrain_returns flatOcean t1 (Some 9%Z) 1 Hinv1)
    as (news & Hregen).
  set (t2 := set_regen _ news (Some 9%Z) 1 t1) in *.
  exists t1, t2. split; [exact Hupdate|]. split; [exact Hregen|].
  assert (Hsize : chunkSize t2 = 200) by (simpl; by rewrite Hs1).
  assert (Hrange : renderDistance t2 = 3200) by (simpl; by rewrite Hs1).
  assert (Hseed : truthy (terrainSeed t2) = true) by (simpl; by rewrite Hs1).
  assert (Hfar : (17, 0)%Z ∉ requiredChunks
                   (set_wavePhase (wavePhase t0 + 1 / 60 * waveSpeed t0) t0)
                   (mkVector3 0 0 0)).
  { rewrite elem_of_requiredChunks by (simpl; lra).
    unfold inRange, playerChunk. simpl.
    assert (Hf : floor (0 / 200) = 0%Z) by (apply floor_spec; simpl; lra).
    rewrite Hf.
    replace ((17 - 0) * (17 - 0) + (0 - 0) * (0 - 0))%Z with 289%Z by reflexivity.
    rewrite sqrt_scaled_le by (lra || lia). lra. }
  assert (Hnone : terrainChunks s1 !! (17, 0)%Z = None).
  { rewrite (@updateTerrainChunks_lookup flatOcean _ _ s1 (17, 0)%Z Hstream).
    by rewrite decide_False. }
  apply (@update_raises_when_a_chunk_streams_in_mid_transition flatOcean
           t2 (1 / 2) (mkVector3 200 0 0) (17, 0)%Z).
  - reflexivity.
  - exact Hseed.
  - rewrite elem_of_requiredChunks by (rewrite Hsize; lra).
    unfold inRange, playerChunk. rewrite Hsize, Hrange. simpl.
    assert (Hfx : floor (200 / 200) = 1%Z) by (apply floor_spec; simpl; lra).
    assert (Hfz : floor (0 / 200) = 0%Z) by (apply floor_spec; simpl; lra).
    rewrite Hfx, Hfz.
    replace ((17 - 1) * (17 - 1) + (0 - 0) * (0 - 0))%Z with 256%Z by reflexivity.
    rewrite sqrt_scaled_le by (lra || lia). lra.
  - simpl. by rewrite lookup_fmap, Hnone.
  - simpl. by rewrite !lookup_fmap, Hnone.
Defined.

End UnifiedTerrainSpec.

(* ===================================================================== *)
(** * More on the session leader, and the joining side *)
(* ===================================================================== *)

Module NetworkWorkerInvariants.
Import NetworkWorker NetworkWorkerSpec.

(** ** What the handlers leave alone *)

Lemma on_join_host_config openConns w conn pid :
  myPeerId (on_join_host openConns w conn pid).1 = myPeerId w ∧
  LOBBY_SIZE (on_join_host openConns w conn pid).1 = LOBBY_SIZE w ∧
  isBase (on_join_host openConns w conn pid).1 = isBase w.
Proof.
  unfold on_join_host. cbv zeta.
  destruct (_ && _); [done|]. by destruct (decide _).
Qed.

Lemma on_data_config openConns w conn data :
  myPeerId (on_data openConns w conn data).1 = myPeerId w ∧
  LOBBY_SIZE (on_data openConns w conn data).1 = LOBBY_SIZE w.
Proof.
  destruct data as [pid|pid|pid msg|pid msg|]; simpl; try done.
  destruct (on_join_host_config openConns w conn pid) as (? & ? & ?). done.
Qed.

Lemma on_discovery_state w conn data : (on_discovery w conn data).1 = w.
Proof. destruct data; simpl; try done. by destruct (_ || _). Qed.

Lemma on_close_config w conn :
  myPeerId (on_close w conn) = myPeerId w ∧ LOBBY_SIZE (on_close w conn) = LOBBY_SIZE w.
Proof.
  destruct (on_close_cases w conn) as [-> | (pid & _ & _ & _ & ->)]; done.
Qed.

Lemma reachable_config id lobbySize s :
  reachable id lobbySize s →
  myPeerId (worker s) = id ∧
  LOBBY_SIZE (worker s) = (if decide (lobbySize = 0) then 3 else lobbySize).
Proof.
  induction 1 as [|s e Hs [IHid IHn] He]; [done|].
  destruct e as [c|c|c data|c data|c|]; simpl; try done.
  - destruct (on_data_config (opened s) (worker s) c data) as [-> ->]. done.
  - by rewrite on_discovery_state.
  - destruct (on_close_config (worker s) c) as [-> ->]. done.
Qed.

(** ** The shape of the state after `join_host` *)

(** Either the request is a duplicate and nothing changes, or the joiner
    is in the roster (appended if new) and tracked. *)
Lemma on_join_host_cases openConns w conn pid :
  let w' := (on_join_host openConns w conn pid).1 in
  w' = w ∨
  (lobbyConnectedPeers w' =
     (if bool_decide (pid ∈ lobbyConnectedPeers w)
      then lobbyConnectedPeers w else lobbyConnectedPeers w ++ [pid]) ∧
   lobbyPeerConnections w' =
     (if tracked_open openConns (lobbyPeerConnections w) pid
      then lobbyPeerConnections w else track (lobbyPeerConnections w) pid conn) ∧
   lobbyFull w' =
     (if decide (length (lobbyConnectedPeers w') = LOBBY_SIZE w)
      then true else lobbyFull w)).
Proof.
  unfold on_join_host. cbv zeta.
  destruct (_ && _); [by left|]. right.
  destruct (decide (length _ = LOBBY_SIZE w)) as [Heq|Hne]; simpl.
  - by rewrite decide_True.
  - by rewrite decide_False.
Qed.

Lemma tracked_keys conns pid : is_Some (tracked conns pid) ↔ pid ∈ conns.*1.
Proof.
  induction conns as [|[p c] rest IH]; simpl.
  - split; [by intros [? ?]|by intros ?%elem_of_nil].
  - destruct (decide (p = pid)) as [->|Hne].
    + split; [intros _; apply list_elem_of_here|by eexists].
    + rewrite IH. split; [apply list_elem_of_further|].
      intros [?|?]%elem_of_cons; [congruence|done].
Qed.

Lemma untrack_keys_ne conns pid q :
  q ∈ (untrack conns pid).*1 → q ≠ pid.
Proof.
  unfold untrack. intros ([q' c] & -> & Hin)%list_elem_of_fmap.
  by apply list_elem_of_filter in Hin as [Hne _].
Qed.

(** ** X1: the roster and the connection table *)

(** X1.  In every reachable session of the leader, the roster lists
    nobody twice, the connection table has one entry per identity, every
    identity of the table is in the roster, and every roster member other
    than the leader has an entry in the table. *)
Theorem roster_and_table_list_the_same_peers
    (id : string) (lobbySize : nat) (s : Session) :
  reachable id lobbySize s →
  NoDup (lobbyConnectedPeers (worker s)) ∧
  NoDup (lobbyPeerConnections (worker s)).*1 ∧
  (∀ pid, pid ∈ (lobbyPeerConnections (worker s)).*1 →
          pid ∈ lobbyConnectedPeers (worker s)) ∧
  (∀ pid, pid ∈ lobbyConnectedPeers (worker s) →
          pid = id ∨ pid ∈ (lobbyPeerConnections (worker s)).*1).
Proof.
  intros Hreach.
  destruct (reachable_roster_tracked _ _ _ Hreach) as [Hnd Htracked].
  destruct (reachable_config _ _ _ Hreach) as [Hid _].
  split; [exact Hnd|]. split; [by eapply reachable_NoDup|]. split.
  - clear Hnd Htracked Hid.
    induction Hreach as [|s e Hs IH He]; [by intros pid ?%elem_of_nil|].
    destruct e as [c|c|c data|c data|c|]; simpl; try done.
    + destruct data as [pid|pid|pid msg|pid msg|]; simpl; try done.
      destruct (on_join_host_cases (opened s) (worker s) c pid)
        as [-> | (-> & -> & _)]; [done|].
      intros q Hq.
      assert (Hcases : q ∈ (lobbyPeerConnections (worker s)).*1 ∨ q = pid).
      { destruct (tracked_open _ _ _); [by left|].
        rewrite track_keys in Hq. case_decide; [by left|].
        apply elem_of_app in Hq as [?|?%list_elem_of_singleton]; [by left|by right]. }
      case_bool_decide as Hin.
      * destruct Hcases as [?| ->]; [by apply IH|done].
      * apply elem_of_app. destruct Hcases as [?| ->]; [left; by apply IH|].
        right. by apply list_elem_of_singleton.
    + by rewrite on_discovery_state.
    + destruct (on_close_cases (worker s) c) as [-> | (pid & _ & _ & _ & ->)];
        [done|]. simpl. intros q Hq.
      apply splice_first_other; [by eapply untrack_keys_ne|].
      apply IH. by eapply untrack_keys.
    + by intros pid ?%elem_of_nil.
  - intros pid Hin. destruct (Htracked pid Hin) as [->|Hsome]; [by left|].
    right. by apply tracked_keys.
Qed.

Lemma roster_and_table_list_the_same_peers_witness :
  let s := run (mkSession (init "M" 3) []) late_join in
  NoDup (lobbyConnectedPeers (worker s)) ∧
  ∀ pid, pid ∈ (lobbyPeerConnections (worker s)).*1 →
         pid ∈ lobbyConnectedPeers (worker s).
Proof.
  intros s.
  assert (Hreach : reachable "M" 3 s).
  { apply reachable_run; [apply reach_init|].
    apply (bool_decide_unpack _). vm_compute. exact I. }
  destruct (roster_and_table_list_the_same_peers "M" 3 s Hreach)
    as (Hnd & _ & Hkeys & _).
  split; [exact Hnd | exact Hkeys].
Defined.

(** ** X2: the full flag and the rendezvous endpoint *)

Lemma reachable_full_at_capacity id lobbySize s :
  reachable id lobbySize s →
  lobbyFull (worker s) = true →
  LOBBY_SIZE (worker s) ≤ length (lobbyConnectedPeers (worker s)).
Proof.
  induction 1 as [|s e Hs IH He]; [done|].
  destruct e as [c|c|c data|c data|c|]; simpl; try done.
  - destruct data as [pid|pid|pid msg|pid msg|]; simpl; try done.
    destruct (on_join_host_config (opened s) (worker s) c pid) as (_ & -> & _).
    destruct (on_join_host_cases (opened s) (worker s) c pid)
      as [-> | (Hroster & _ & ->)]; [done|].
    destruct (decide (length _ = _)) as [Hlen|Hlen]; [intros _; lia|].
    intros Hfull. specialize (IH Hfull).
    rewrite Hroster. case_bool_decide; [done|]. rewrite length_app. lia.
  - by rewrite on_discovery_state.
  - destruct (on_close_cases (worker s) c) as [-> | (pid & _ & _ & _ & ->)]; done.
Qed.

(** X2.  In every reachable session the capacity is the `lobbySize` of
    the `init` message, or 3 if that is missing or zero.  A `join` on the
    rendezvous endpoint leaves the leader's state alone, is answered by
    one reply and the connection is closed.  The reply is `lobby_full` exactly when the
    roster has at least `LOBBY_SIZE` members: the full flag is only ever
    set in such a state, so it decides nothing by itself.  Otherwise the
    reply redirects to the leader itself with the current head count.
    The joiner's `joinChain` handler reacts to the first by starting a
    lobby of its own two seconds later and to the second by connecting to
    the leader. *)
Theorem discovery_redirects_until_capacity
    (id : string) (lobbySize : nat) (s : Session) (conn : nat) (peerId : string) :
  reachable id lobbySize s →
  let w := worker s in
  let players := length (lobbyConnectedPeers w) in
  LOBBY_SIZE w = (if decide (lobbySize = 0) then 3 else lobbySize) ∧
  (on_discovery w conn (join peerId)).1 = w ∧
  (lobbyFull w = true → LOBBY_SIZE w ≤ players) ∧
  (LOBBY_SIZE w ≤ players →
     (on_discovery w conn (join peerId)).2 = [send conn lobby_full; close conn] ∧
     joinChain_on_data lobby_full = [act_close; act_tryBecomeBase 2000]) ∧
  (players < LOBBY_SIZE w →
     (on_discovery w conn (join peerId)).2
       = [send conn (redirect_to_host id players (LOBBY_SIZE w)); close conn] ∧
     joinChain_on_data (redirect_to_host id players (LOBBY_SIZE w))
       = [act_close; act_connectToHost id]).
Proof.
  intros Hreach w players.
  pose proof (reachable_full_at_capacity _ _ _ Hreach) as Hfull.
  destruct (reachable_config _ _ _ Hreach) as [Hid Hsize].
  fold w in Hfull, Hid, Hsize. fold players in Hfull.
  split; [exact Hsize|].
  split; [apply on_discovery_state|]. split; [exact Hfull|]. split.
  - intros Hcap. split; [|done]. simpl. fold players.
    rewrite (bool_decide_eq_true_2 (LOBBY_SIZE w ≤ players)) by done.
    by rewrite orb_true_r.
  - intros Hroom. split; [|done]. simpl. fold players.
    rewrite (bool_decide_eq_false_2 (LOBBY_SIZE w ≤ players)) by lia.
    destruct (lobbyFull w) eqn:Hflag; [specialize (Hfull eq_refl); lia|].
    simpl. by rewrite Hid.
Qed.

Lemma discovery_redirects_until_capacity_witness :
  let s := run (mkSession (init "M" 3) []) late_join_then_leave in
  lobbyFull (worker s) = false ∧
  (on_discovery (worker s) 9 (join "D")).2 = [send 9 lobby_full; close 9].
Proof.
  intros s.
  assert (Hreach : reachable "M" 3 s).
  { apply reachable_run; [apply reach_init|].
    apply (bool_decide_unpack _). vm_compute. exact I. }
  destruct (discovery_redirects_until_capacity "M" 3 s 9 "D" Hreach)
    as (_ & _ & _ & Hcap & _).
  split; [reflexivity|]. apply Hcap. vm_compute. lia.
Defined.

(** ** X3: the leader's place in the roster *)

Lemma splice_first_cons_ne pid p rest :
  p ≠ pid → splice_first pid (p :: rest) = p :: splice_first pid rest.
Proof. intros Hne. simpl. by rewrite decide_False. Qed.

(** X3.  As long as no `join_host` request carries the leader's own
    identity, the leader is the first entry of its roster and appears
    nowhere else in it, and no table entry is filed under its identity:
    the loop that announces a full lobby, which starts at index 1, skips
    the leader and nobody else.  The condition is needed: after a peer has
    joined under the leader's identity and its connection has closed
    ([impersonation]), the leader is no longer in its own roster. *)
Theorem leader_heads_its_roster :
  (∀ (id : string) (lobbySize : nat) (es : list Event),
      (∀ c, ev_data c (join_host id) ∉ es) →
      let w := worker (run (mkSession (init id lobbySize) []) es) in
      ∃ rest, lobbyConnectedPeers w = id :: rest ∧ (id ∉ rest) ∧
              id ∉ (lobbyPeerConnections w).*1) ∧
  (feasible (mkSession (init "M" 3) []) impersonation ∧
   lobbyConnectedPeers (worker (run (mkSession (init "M" 3) []) impersonation)) = []).
Proof.
  split.
  - intros id lobbySize es Hes. cbv zeta.
    assert (Hinv : ∀ s : Session,
      (myPeerId (worker s) = id ∧
       ∃ rest, lobbyConnectedPeers (worker s) = id :: rest ∧ (id ∉ rest) ∧
               id ∉ (lobbyPeerConnections (worker s)).*1) →
      (∀ c, ev_data c (join_host id) ∉ es) →
      ∃ rest, lobbyConnectedPeers (worker (run s es)) = id :: rest ∧ (id ∉ rest) ∧
              id ∉ (lobbyPeerConnections (worker (run s es))).*1).
    { clear Hes. induction es as [|e es IH]; intros s (Hme & rest & Hr & Hrest & Hkeys) Hes.
      { by exists rest. }
      simpl. apply IH.
      2:{ intros c Hin. apply (Hes c). by apply list_elem_of_further. }
      destruct e as [c|c|c data|c data|c|]; simpl.
      - split; [done|]. by exists rest.
      - split; [done|]. by exists rest.
      - destruct (on_data_config (opened s) (worker s) c data) as [-> _].
        split; [done|].
        destruct data as [pid|pid|pid msg|pid msg|]; simpl; try (by exists rest).
        assert (pid ≠ id).
        { intros ->. apply (Hes c). apply list_elem_of_here. }
        destruct (on_join_host_cases (opened s) (worker s) c pid)
          as [-> | (-> & -> & _)]; [by exists rest|].
        rewrite Hr.
        assert (Hkeys' : id ∉ (if tracked_open (opened s) (lobbyPeerConnections (worker s)) pid
                               then lobbyPeerConnections (worker s)
                               else track (lobbyPeerConnections (worker s)) pid c).*1).
        { destruct (tracked_open _ _ _); [done|]. rewrite track_keys.
          case_decide; [done|].
          intros [?|?%list_elem_of_singleton]%elem_of_app; done. }
        case_bool_decide.
        + by exists rest.
        + exists (rest ++ [pid]). split; [done|]. split; [|done].
          intros [?|?%list_elem_of_singleton]%elem_of_app; done.
      - rewrite on_discovery_state. split; [done|]. by exists rest.
      - destruct (on_close_config (worker s) c) as [-> _]. split; [done|].
        destruct (on_close_cases (worker s) c) as [-> | (pid & _ & Ht & _ & ->)];
          [by exists rest|]. simpl.
        assert (id ≠ pid).
        { intros ->. apply Hkeys. apply tracked_keys. by eexists. }
        rewrite Hr, splice_first_cons_ne by done.
        exists (splice_first pid rest). split; [done|]. split.
        + intros Hin. apply Hrest. by apply (splice_first_subset pid).
        + intros Hin. apply Hkeys. by eapply untrack_keys.
      - split; [done|]. rewrite Hme. exists []. split; [done|].
        split; apply not_elem_of_nil. }
    apply Hinv; [|exact Hes]. simpl. split; [done|]. exists [].
    split; [done|]. split; apply not_elem_of_nil.
  - split; [|reflexivity]. apply (bool_decide_unpack _). vm_compute. exact I.
Qed.

Lemma leader_heads_its_roster_witness :
  let w := worker (run (mkSession (init "M" 3) []) late_join_then_leave) in
  ∃ rest, lobbyConnectedPeers w = "M" :: rest ∧ ("M" ∉ rest) ∧
          "M" ∉ (lobbyPeerConnections w).*1.
Proof.
  apply (proj1 leader_heads_its_roster "M" 3 late_join_then_leave).
  intros c Hin. unfold late_join_then_leave, late_join in Hin. simpl in Hin.
  repeat (apply elem_of_cons in Hin as [Hin|Hin]; [discriminate Hin|]).
  by apply elem_of_nil in Hin.
Defined.

(** ** X4: a direct request is never refused *)

(** X4.  Whatever arrives on a direct connection, the leader's handler
    closes no connection and sends nothing but `waiting`, `host_ready`
    (in its own name) and relayed `message`/`player_state` packets; it
    never answers `lobby_full`.  So the branch of `connectToHost` that
    gives up on the host and starts a lobby of its own is never taken on
    a reply from a leader: the joiner neither closes the connection nor
    schedules `tryBecomeBase`. *)
Theorem leader_never_refuses_a_direct_request
    (openConns : list nat) (w : Worker) (conn : nat) (data : Packet)
    (c : nat) (r : Reply) (lobbyPeers : list string) :
  send c r ∈ (on_data openConns w conn data).2 →
  ((∃ current total, r = waiting current total) ∨
   (∃ allPlayers, r = host_ready (myPeerId w) allPlayers) ∨
   (r = relayed data ∧ ∃ sender payload,
      data = message sender payload ∨ data = player_state sender payload)) ∧
  (∀ c', close c' ∉ (on_data openConns w conn data).2) ∧
  (act_close ∉ (connectToHost_on_data lobbyPeers r).2) ∧
  (∀ delay, act_tryBecomeBase delay ∉ (connectToHost_on_data lobbyPeers r).2).
Proof.
  intros Hin.
  assert (Hclose : ∀ c', close c' ∉ (on_data openConns w conn data).2).
  { intros c' Hc. destruct data as [pid|pid|pid msg|pid msg|]; simpl in Hc;
      try (by apply elem_of_nil in Hc).
    - unfold on_join_host in Hc. cbv zeta in Hc.
      destruct (_ && _); simpl in Hc.
      { apply list_elem_of_singleton in Hc. done. }
      destruct (decide _); simpl in Hc.
      + unfold notify_ready in Hc. apply list_elem_of_omap in Hc as (q & _ & Hq).
        destruct (tracked _ q); [|done]. simpl in Hq. by injection Hq.
      + apply list_elem_of_singleton in Hc. done.
    - apply elem_of_app in Hc as [Hc|Hc%list_elem_of_singleton]; [|done].
      apply list_elem_of_fmap in Hc as (e & He & _). done.
    - apply elem_of_app in Hc as [Hc|Hc%list_elem_of_singleton]; [|done].
      apply list_elem_of_fmap in Hc as (e & He & _). done. }
  assert (Hkind : (∃ current total, r = waiting current total) ∨
    (∃ allPlayers, r = host_ready (myPeerId w) allPlayers) ∨
    (r = relayed data ∧ ∃ sender payload,
       data = message sender payload ∨ data = player_state sender payload)).
  { destruct data as [pid|pid|pid msg|pid msg|]; simpl in Hin;
      try (by apply elem_of_nil in Hin).
    - unfold on_join_host in Hin. cbv zeta in Hin.
      destruct (_ && _); simpl in Hin.
      { apply list_elem_of_singleton in Hin. injection Hin as _ ->.
        left. by eexists _, _. }
      destruct (decide _); simpl in Hin.
      + unfold notify_ready in Hin. apply list_elem_of_omap in Hin as (q & _ & Hq).
        destruct (tracked _ q); [|done]. simpl in Hq. injection Hq as _ <-.
        right. left. by eexists.
      + apply list_elem_of_singleton in Hin. injection Hin as _ ->.
        left. by eexists _, _.
    - apply elem_of_app in Hin as [Hin|Hin%list_elem_of_singleton]; [|done].
      apply list_elem_of_fmap in Hin as (e & He & _). injection He as _ ->.
      right. right. split; [done|]. eexists _, _. by left.
    - apply elem_of_app in Hin as [Hin|Hin%list_elem_of_singleton]; [|done].
      apply list_elem_of_fmap in Hin as (e & He & _). injection He as _ ->.
      right. right. split; [done|]. eexists _, _. by right. }
  split; [exact Hkind|]. split; [exact Hclose|].
  destruct Hkind as [(cur & tot & ->) | [(all & ->) | (-> & sender & payload & [-> | ->])]];
    simpl; (split; [|intros delay]); intros Hbad;
    apply list_elem_of_singleton in Hbad; done.
Qed.

Lemma leader_never_refuses_a_direct_request_witness :
  let w := worker (run (mkSession (init "M" 3) []) late_join) in
  send 4 (waiting 5 3) ∈ (on_data [1; 2; 3; 4] w 4 (join_host "D")).2 ∧
  ∀ delay, act_tryBecomeBase delay ∉ (connectToHost_on_data [] (waiting 5 3)).2.
Proof.
  intros w.
  assert (Hin : send 4 (waiting 5 3) ∈ (on_data [1; 2; 3; 4] w 4 (join_host "D")).2)
    by (apply (bool_decide_unpack _); vm_compute; exact I).
  split; [exact Hin|].
  exact (proj2 (proj2 (proj2
    (leader_never_refuses_a_direct_request [1; 2; 3; 4] w 4 (join_host "D") 4
       (waiting 5 3) [] Hin)))).
Defined.

(** ** X5: a repeated request *)

Lemma track_track conns pid conn :
  track (track conns pid conn) pid conn = track conns pid conn.
Proof.
  induction conns as [|[p c] rest IH]; cbn [track].
  - by rewrite decide_True.
  - destruct (decide (p = pid)) as [->|Hne]; cbn [track].
    + by rewrite decide_True.
    + rewrite decide_False by done. by rewrite IH.
Qed.

(** X5.  Handling the same `join_host` request a second time on the same
    connection leaves the leader's state as the first handling left it:
    the roster, the connection table, the full flag and the capacity are
    unchanged, whatever the state and whether or not the connection is
    open. *)
Theorem repeated_join_host_leaves_the_state
    (openConns : list nat) (w : Worker) (conn : nat) (peerId : string) :
  (on_data openConns (on_data openConns w conn (join_host peerId)).1
           conn (join_host peerId)).1
  = (on_data openConns w conn (join_host peerId)).1.
Proof.
  cbn [on_data].
  destruct (on_join_host_cases openConns w conn peerId) as [Heq | (Hr & Hc & Hf)];
    [by rewrite Heq|].
  destruct (on_join_host_config openConns w conn peerId) as (Hme & Hn & Hb).
  set (w1 := (on_join_host openConns w conn peerId).1) in *.
  assert (Hin : peerId ∈ lobbyConnectedPeers w1).
  { rewrite Hr. case_bool_decide; [done|].
    apply elem_of_app. right. by apply list_elem_of_singleton. }
  assert (Hkeep : (if tracked_open openConns (lobbyPeerConnections w1) peerId
                   then lobbyPeerConnections w1
                   else track (lobbyPeerConnections w1) peerId conn)
                  = lobbyPeerConnections w1).
  { destruct (tracked_open openConns (lobbyPeerConnections w1) peerId) eqn:Ho1;
      [done|].
    rewrite Hc in Ho1 |- *.
    destruct (tracked_open openConns (lobbyPeerConnections w) peerId) eqn:Ho;
      [congruence|].
    apply track_track. }
  destruct (on_join_host_cases openConns w1 conn peerId) as [Heq | (Hr2 & Hc2 & Hf2)];
    [done|].
  set (w2 := (on_join_host openConns w1 conn peerId).1) in *.
  destruct (on_join_host_config openConns w1 conn peerId) as (Hme2 & Hn2 & Hb2).
  fold w2 in Hme2, Hn2, Hb2.
  rewrite bool_decide_eq_true_2 in Hr2 by done.
  rewrite Hkeep in Hc2.
  assert (Hfull : lobbyFull w2 = lobbyFull w1).
  { rewrite Hf2, Hr2, Hn. rewrite Hf.
    by destruct (decide (length (lobbyConnectedPeers w1) = LOBBY_SIZE w)). }
  destruct w1, w2. simpl in *. congruence.
Qed.

(** ** X6: joining and leaving *)

Lemma track_fresh conns pid conn :
  pid ∉ conns.*1 → track conns pid conn = conns ++ [(pid, conn)].
Proof.
  induction conns as [|[p c] rest IH]; cbn [track]; [done|].
  rewrite fmap_cons. cbn [fst]. intros Hout.
  rewrite decide_False by (intros ->; apply Hout, list_elem_of_here).
  rewrite IH; [done|]. intros Hin. apply Hout. by apply list_elem_of_further.
Qed.

Lemma owner_of_fresh conns pid conn :
  conn ∉ conns.*2 → owner_of (conns ++ [(pid, conn)]) conn = Some pid.
Proof.
  induction conns as [|[p c] rest IH]; simpl.
  - intros _. by rewrite decide_True.
  - intros Hout. rewrite decide_False by (intros ->; apply Hout, list_elem_of_here).
    apply IH. intros Hin. apply Hout. by apply list_elem_of_further.
Qed.

Lemma tracked_fresh conns pid conn :
  pid ∉ conns.*1 → tracked (conns ++ [(pid, conn)]) pid = Some conn.
Proof.
  intros Hout. rewrite <- (track_fresh conns pid conn Hout), tracked_track.
  by rewrite decide_True.
Qed.

Lemma untrack_fresh conns pid conn :
  pid ∉ conns.*1 → untrack (conns ++ [(pid, conn)]) pid = conns.
Proof.
  intros Hout. unfold untrack. rewrite filter_app, filter_cons, filter_nil.
  simpl. rewrite decide_False by (by intros ?).
  rewrite app_nil_r. induction conns as [|[p c] rest IH]; [done|].
  rewrite filter_cons. simpl.
  rewrite decide_True by (intros ->; apply Hout, list_elem_of_here).
  f_equal. apply IH. intros Hin. apply Hout. by apply list_elem_of_further.
Qed.

Lemma splice_first_fresh pid l : pid ∉ l → splice_first pid (l ++ [pid]) = l.
Proof.
  induction l as [|p rest IH]; simpl.
  - intros _. by rewrite decide_True.
  - intros Hout. rewrite decide_False by (intros ->; apply Hout, list_elem_of_here).
    f_equal. apply IH. intros Hin. apply Hout. by apply list_elem_of_further.
Qed.

(** X6.  A peer with a non-empty identity that is neither in the roster
    nor in the connection table joins on a connection the table does not
    hold, and that connection closes: the join appends the peer to the
    roster and files the connection under its identity; the close puts
    the roster and the table back exactly as they were, and the full flag
    is clear afterwards. *)
Theorem join_then_close_restores_roster_and_table
    (openConns : list nat) (w : Worker) (conn : nat) (peerId : string) :
  peerId ≠ EmptyString →
  peerId ∉ lobbyConnectedPeers w →
  peerId ∉ (lobbyPeerConnections w).*1 →
  conn ∉ (lobbyPeerConnections w).*2 →
  let joined := (on_data openConns w conn (join_host peerId)).1 in
  let left := on_close joined conn in
  lobbyConnectedPeers joined = lobbyConnectedPeers w ++ [peerId] ∧
  lobbyPeerConnections joined = lobbyPeerConnections w ++ [(peerId, conn)] ∧
  lobbyConnectedPeers left = lobbyConnectedPeers w ∧
  lobbyPeerConnections left = lobbyPeerConnections w ∧
  lobbyFull left = false ∧
  myPeerId left = myPeerId w ∧ LOBBY_SIZE left = LOBBY_SIZE w.
Proof.
  intros Hne Hroster Hkeys Hconn joined left.
  assert (Hnone : tracked (lobbyPeerConnections w) peerId = None).
  { destruct (tracked _ peerId) eqn:Ht; [|done].
    exfalso. apply Hkeys. apply tracked_keys. by eexists. }
  assert (Hjr : lobbyConnectedPeers joined = lobbyConnectedPeers w ++ [peerId] ∧
                lobbyPeerConnections joined = lobbyPeerConnections w ++ [(peerId, conn)] ∧
                myPeerId joined = myPeerId w ∧ LOBBY_SIZE joined = LOBBY_SIZE w).
  { subst joined. cbn [on_data]. unfold on_join_host, tracked_open. cbv zeta.
    rewrite Hnone, bool_decide_eq_false_2 by done. cbn [andb].
    rewrite track_fresh by done. by destruct (decide _). }
  destruct Hjr as (Hr & Hc & Hme & Hn).
  split; [exact Hr|]. split; [exact Hc|].
  assert (Hleft : left = mkWorker (myPeerId joined) (isBase joined)
                    (splice_first peerId (lobbyConnectedPeers joined))
                    (untrack (lobbyPeerConnections joined) peerId)
                    false (LOBBY_SIZE joined)).
  { subst left. unfold on_close. rewrite Hc, owner_of_fresh by done.
    rewrite decide_False by done. rewrite tracked_fresh by done.
    rewrite decide_True by done. by destruct (lobbyFull joined). }
  rewrite Hleft. cbn [lobbyConnectedPeers lobbyPeerConnections lobbyFull myPeerId
                      LOBBY_SIZE].
  rewrite Hr, Hc, splice_first_fresh, untrack_fresh by done. done.
Qed.

Lemma join_then_close_restores_roster_and_table_witness :
  let w := mkWorker "M" true ["M"; "A"] [("A", 1)] false 3 in
  let left := on_close (on_data [1; 2] w 2 (join_host "B")).1 2 in
  lobbyConnectedPeers left = lobbyConnectedPeers w ∧
  lobbyPeerConnections left = lobbyPeerConnections w ∧
  lobbyFull left = false.
Proof.
  intros w left.
  assert (H1 : "B" ≠ EmptyString) by discriminate.
  assert (H2 : "B" ∉ lobbyConnectedPeers w)
    by (apply (bool_decide_unpack _); vm_compute; exact I).
  assert (H3 : "B" ∉ (lobbyPeerConnections w).*1)
    by (apply (bool_decide_unpack _); vm_compute; exact I).
  assert (H4 : 2 ∉ (lobbyPeerConnections w).*2)
    by (apply (bool_decide_unpack _); vm_compute; exact I).
  destruct (join_then_close_restores_roster_and_table [1; 2] w 2 "B" H1 H2 H3 H4)
    as (_ & _ & Hroster & Htable & Hflag & _).
  split; [exact Hroster|]. split; [exact Htable|exact Hflag].
Defined.

(** ** X7: the announcement of a full lobby *)

(** X7.  In a reachable session, when a peer that is not in the roster
    joins on an open connection and brings the roster to `LOBBY_SIZE`
    members, the flag is set and the handler sends `host_ready` and
    nothing else: every message it sends is `host_ready` in the leader's
    name with the complete new roster, and every roster member from index
    1 on, the leader's own identity aside, is sent one on its tracked
    connection. *)
Theorem full_lobby_is_announced_to_every_member
    (id : string) (lobbySize : nat) (s : Session) (conn : nat) (peerId : string) :
  reachable id lobbySize s →
  conn ∈ opened s →
  peerId ∉ lobbyConnectedPeers (worker s) →
  S (length (lobbyConnectedPeers (worker s))) = LOBBY_SIZE (worker s) →
  let w' := (on_data (opened s) (worker s) conn (join_host peerId)).1 in
  let out := (on_data (opened s) (worker s) conn (join_host peerId)).2 in
  let allPlayers := lobbyConnectedPeers (worker s) ++ [peerId] in
  lobbyConnectedPeers w' = allPlayers ∧
  lobbyFull w' = true ∧
  (∀ e, e ∈ out → ∃ c, e = send c (host_ready id allPlayers)) ∧
  (∀ pid, pid ∈ drop 1 allPlayers → pid ≠ id →
     ∃ c, tracked (lobbyPeerConnections w') pid = Some c ∧
          send c (host_ready id allPlayers) ∈ out).
Proof.
  intros Hreach Hopen Hnew Hlen w' out allPlayers.
  destruct (reachable_config _ _ _ Hreach) as [Hid _].
  assert (Hstep : reachable id lobbySize (step s (ev_data conn (join_host peerId))))
    by (by apply reach_step).
  destruct (reachable_roster_tracked _ _ _ Hstep) as [_ Htracked].
  destruct (reachable_config _ _ _ Hstep) as [Hid' _].
  cbn [step worker on_data] in Htracked, Hid'. fold w' in Htracked, Hid'.
  assert (Hrun : on_join_host (opened s) (worker s) conn peerId
                 = (mkWorker (myPeerId (worker s)) (isBase (worker s)) allPlayers
                      (if tracked_open (opened s) (lobbyPeerConnections (worker s)) peerId
                       then lobbyPeerConnections (worker s)
                       else track (lobbyPeerConnections (worker s)) peerId conn)
                      true (LOBBY_SIZE (worker s)),
                    notify_ready (worker s) allPlayers
                      (if tracked_open (opened s) (lobbyPeerConnections (worker s)) peerId
                       then lobbyPeerConnections (worker s)
                       else track (lobbyPeerConnections (worker s)) peerId conn))).
  { unfold on_join_host. cbv zeta.
    rewrite bool_decide_eq_false_2 by done. cbn [andb].
    rewrite decide_True; [done|]. subst allPlayers. rewrite length_app. simpl. lia. }
  subst w' out. cbn [on_data] in *. rewrite Hrun in *. cbn [fst snd] in *.
  cbn [lobbyConnectedPeers lobbyPeerConnections lobbyFull] in *.
  split; [done|]. split; [done|]. split.
  - intros e He. unfold notify_ready in He.
    apply list_elem_of_omap in He as (q & _ & Hq).
    destruct (tracked _ q) as [c|]; [|done]. simpl in Hq. injection Hq as <-.
    exists c. by rewrite Hid.
  - intros pid Hpid Hne.
    assert (Hin : pid ∈ allPlayers).
    { destruct allPlayers; [done|]. by apply list_elem_of_further. }
    destruct (Htracked pid Hin) as [Heq | [c Hc]]; [congruence|].
    exists c. split; [exact Hc|]. unfold notify_ready.
    apply list_elem_of_omap. exists pid. split; [exact Hpid|].
    rewrite Hc. simpl. by rewrite Hid.
Qed.

Lemma full_lobby_is_announced_to_every_member_witness :
  let s := run (mkSession (init "M" 3) []) (take 3 late_join) in
  let out := (on_data (opened s) (worker s) 2 (join_host "B")).2 in
  (∀ e, e ∈ out → ∃ c, e = send c (host_ready "M" ["M"; "A"; "B"])) ∧
  ∃ c, tracked (lobbyPeerConnections
                  (on_data (opened s) (worker s) 2 (join_host "B")).1) "A" = Some c ∧
       send c (host_ready "M" ["M"; "A"; "B"]) ∈ out.
Proof.
  intros s out.
  assert (Hreach : reachable "M" 3 s).
  { apply reachable_run; [apply reach_init|].
    apply (bool_decide_unpack _). vm_compute. exact I. }
  assert (Hopen : 2 ∈ opened s) by (apply (bool_decide_unpack _); vm_compute; exact I).
  assert (Hnew : "B" ∉ lobbyConnectedPeers (worker s))
    by (apply (bool_decide_unpack _); vm_compute; exact I).
  assert (Hlen : S (length (lobbyConnectedPeers (worker s))) = LOBBY_SIZE (worker s))
    by reflexivity.
  destruct (full_lobby_is_announced_to_every_member "M" 3 s 2 "B" Hreach Hopen Hnew Hlen)
    as (_ & _ & Hall & Hmembers).
  split; [exact Hall|]. apply (Hmembers "A"); [|discriminate].
  apply (bool_decide_unpack _). vm_compute. exact I.
Defined.

End NetworkWorkerInvariants.

(* ===================================================================== *)
(** * The range of the seeded stream *)
(* ===================================================================== *)

Module SeededRandomBounds.
Import JsNumber SeededRandom.
#[local] Open Scope R_scope.

Lemma next_unit (x : R) : 0 <= (next x).1 < 1.
Proof.
  unfold next, floor. cbn [fst].
  destruct (base_Int_part (sin x * 10000)). lra.
Qed.

Lemma next_state (x : R) : -10000 <= (next x).2 <= 10000.
Proof. unfold next. cbn [snd]. pose proof (SIN_bound x). lra. Qed.

Lemma after_state (n : nat) (x : R) :
  -10000 <= x <= 10000 → -10000 <= after n x <= 10000.
Proof.
  revert x. induction n as [|n IH]; intros x Hx; cbn [after]; [done|].
  apply IH, next_state.
Qed.

(** X8.  Every value a stream returns lies in [0, 1), whatever the seed
    and however many values were drawn before, and the closure's variable
    stays within [-10000, 10000]. *)
Theorem draws_lie_in_the_unit_interval (seed : R) (n : nat) :
  0 <= draw n (seededRandom seed) < 1 ∧
  -10000 <= after n (seededRandom seed) <= 10000.
Proof.
  split; [apply next_unit|]. apply after_state. unfold seededRandom.
  pose proof (SIN_bound seed). lra.
Qed.

End SeededRandomBounds.

(* ===================================================================== *)
(** * Facts about the number model *)
(* ===================================================================== *)

Module JsNumberSpec.
Import JsNumber.
#[local] Open Scope R_scope.

Lemma ToInt32_period (n k : Z) : ToInt32 (n + k * 2 ^ 32) = ToInt32 n.
Proof.
  unfold ToInt32. f_equal.
  replace (n + k * 2 ^ 32 + 2 ^ 31)%Z with (n + 2 ^ 31 + k * 2 ^ 32)%Z by lia.
  apply Z_mod_plus_full.
Qed.

Lemma pow_unit (b e : R) : 0 < b <= 1 → 0 <= e → 0 < pow b e <= 1.
Proof.
  intros Hb He. unfold pow. rewrite decide_False by lra. split.
  - unfold Rpower. apply exp_pos.
  - apply Rle_trans with (Rpower 1 e); [apply Rle_Rpower_l; lra|].
    right. unfold Rpower. rewrite ln_1, Rmult_0_r. apply exp_0.
Qed.

Lemma pow_range (b e : R) : 0 <= b <= 1 → 0 <= e → 0 <= pow b e <= 1.
Proof.
  intros Hb He. destruct (decide (b = 0)) as [->|Hne].
  - unfold pow. rewrite decide_True by done. lra.
  - destruct (pow_unit b e) as [Hlo Hhi]; [lra|done|lra].
Qed.

End JsNumberSpec.

(* ===================================================================== *)
(** * hash2D *)
(* ===================================================================== *)

Module Hash2DSpec.
Import JsNumber UnifiedTerrain JsNumberSpec.

(** X9.  For integer arguments `hash2D` returns an unsigned 32-bit
    integer, and it reads only the low 32 bits of the seed: two seeds
    that differ by a multiple of 2^32 hash alike. *)
Theorem hash2D_is_unsigned_and_reads_32_seed_bits (seed x z k : Z) :
  (0 ≤ hash2D seed x z < 2 ^ 32)%Z ∧
  hash2D (seed + k * 2 ^ 32) x z = hash2D seed x z.
Proof.
  split.
  - unfold hash2D, unsigned, ToUint32. cbv zeta. apply Z.mod_pos_bound. lia.
  - unfold hash2D, bitXor. cbv zeta. by rewrite ToInt32_period.
Qed.

End Hash2DSpec.

(* ===================================================================== *)
(** * The range of generateTerrainHeightWithSeed *)
(* ===================================================================== *)

Module RegeneratedHeightSpec.
Import JsNumber SeededRandom RegeneratedHeight SeededRandomBounds JsNumberSpec.
#[local] Open Scope R_scope.

Lemma draw_unit (n : nat) (x : R) : 0 <= draw n x < 1.
Proof. apply next_unit. Qed.

Lemma sin_cos_unit (a b : R) : -1 <= sin a * cos b <= 1.
Proof. pose proof (SIN_bound a). pose proof (COS_bound b). nra. Qed.

Lemma Rabs_sin_cos_unit (a b : R) : 0 <= Rabs (sin a * cos b) <= 1.
Proof.
  split; [apply Rabs_pos|]. apply Rabs_le. apply sin_cos_unit.
Qed.

Lemma exp_neg_unit (u c : R) : 0 <= u → 0 < c → 0 < exp (- u / c) <= 1.
Proof.
  intros Hu Hc. split; [apply exp_pos|].
  assert (Hle : - u / c <= 0).
  { unfold Rdiv. assert (0 < / c) by (by apply Rinv_0_lt_compat). nra. }
  destruct Hle as [Hlt|Heq].
  - left. rewrite <- exp_0. by apply exp_increasing.
  - rewrite Heq, exp_0. lra.
Qed.

Lemma sq_sum_nonneg (a b : R) : 0 <= a ^ 2 + b ^ 2.
Proof. nra. Qed.

Lemma normalHeightOf_bound (x z d : R) :
  0 <= d < 1 → -9.35 <= normalHeightOf x z d <= 9.35.
Proof.
  intros Hd. unfold normalHeightOf.
  pose proof (sin_cos_unit (x * 0.01) (z * 0.01)).
  pose proof (SIN_bound (x * 0.015 + z * 0.01)).
  pose proof (sin_cos_unit (x * 0.03) (z * 0.025)).
  pose proof (COS_bound (x * 0.025 + z * 0.035)).
  pose proof (sin_cos_unit (x * 0.08) (z * 0.06)).
  pose proof (SIN_bound (x * 0.05 + z * 0.07)).
  lra.
Qed.

Lemma islandHeightOf_bound (ty : nat) (islandRand x z nearestX nearestZ d : R) :
  0 <= d < 1 →
  -9 <= islandHeightOf ty (islandHeightParamsOf islandRand) x z nearestX nearestZ d
     <= 191.5.
Proof.
  intros Hd.
  pose proof (draw_unit 1 islandRand). pose proof (draw_unit 2 islandRand).
  pose proof (draw_unit 3 islandRand). pose proof (draw_unit 4 islandRand).
  pose proof (draw_unit 6 islandRand). pose proof (draw_unit 7 islandRand).
  destruct ty as [|[|[|[|[|[|[|ty]]]]]]]; cbn [islandHeightOf islandHeightParamsOf
    base jagged tall pillar arch spire]; cbv zeta.
  - pose proof (sin_cos_unit (x * 0.002) (z * 0.002)).
    pose proof (sin_cos_unit (x * 0.01) (z * 0.01)). lra.
  - pose proof (sin_cos_unit (x * 0.01) (z * 0.01)).
    pose proof (SIN_bound (x * 0.07 + z * 0.13)).
    pose proof (Rabs_sin_cos_unit (x * 0.1) (z * 0.1)). lra.
  - pose proof (sin_cos_unit (x * 0.005) (z * 0.005)).
    pose proof (Rabs_sin_cos_unit (x * 0.02) (z * 0.02)). lra.
  - pose proof (exp_neg_unit ((x - nearestX) ^ 2 + (z - nearestZ) ^ 2) (2 * 120 ^ 2)
                  (sq_sum_nonneg _ _) ltac:(lra)).
    pose proof (Rabs_sin_cos_unit (x * 0.03) (z * 0.03)). lra.
  - pose proof (sin_cos_unit (x * 0.002) (z * 0.002)).
    pose proof (sin_cos_unit (x * 0.01) (z * 0.01)). lra.
  - pose proof (exp_neg_unit ((x - nearestX - 120) ^ 2 + (z - nearestZ) ^ 2) (2 * 80 ^ 2)
                  (sq_sum_nonneg _ _) ltac:(lra)).
    pose proof (exp_neg_unit ((x - nearestX + 120) ^ 2 + (z - nearestZ) ^ 2) (2 * 80 ^ 2)
                  (sq_sum_nonneg _ _) ltac:(lra)).
    pose proof (sin_cos_unit (x * 0.01) (z * 0.01)). nra.
  - pose proof (exp_neg_unit ((x - nearestX) ^ 2 + (z - nearestZ) ^ 2) (2 * 60 ^ 2)
                  (sq_sum_nonneg _ _) ltac:(lra)).
    pose proof (Rabs_sin_cos_unit (x * 0.07) (z * 0.07)). lra.
  - lra.
Qed.

Lemma blend_between (lo hi a n b : R) :
  0 <= b <= 1 → lo <= a <= hi → lo <= n <= hi →
  lo <= a * b + n * (1 - b) <= hi.
Proof. intros Hb Ha Hn. nra. Qed.

(** X10.  For every integer seed and every point, the height that
    `regenerateTerrain` samples lies between -10.55 and 191.5. *)
Theorem regenerated_heights_are_bounded (x z : R) (seed : Z) :
  -10.55 <= generateTerrainHeightWithSeed x z seed <= 191.5.
Proof.
  unfold generateTerrainHeightWithSeed. cbv zeta.
  set (rand := seededRandom (IZR _)).
  pose proof (normalHeightOf_bound x z (draw 1 rand) (draw_unit _ _)) as Hn1.
  pose proof (normalHeightOf_bound x z (draw 2 rand) (draw_unit _ _)) as Hn2.
  pose proof (sin_cos_unit (x * 0.002) (z * 0.002)) as Hsc.
  pose proof (draw_unit 0 rand) as Hd0.
  destruct (decide (0 < (if decide (sqrt (x * x + z * z) < 300) then _ else 0)))
    as [Hdeep|_].
  { destruct (decide (sqrt (x * x + z * z) < 300)) as [Hnear|]; [|lra].
    pose proof (sqrt_pos (x * x + z * z)).
    apply blend_between; lra. }
  set (dist := sqrt (_ ^ 2 + _ ^ 2)).
  set (onIsland := _ && bool_decide (dist < 600)).
  destruct onIsland eqn:Hon; [|rewrite decide_False by lra; lra].
  assert (Hdist : 0 <= dist < 600).
  { split; [apply sqrt_pos|]. subst onIsland.
    apply andb_true_iff in Hon as [_ Hd]. by apply bool_decide_eq_true in Hd. }
  assert (Hb : 0 < 1 - dist / 600 <= 1) by lra.
  match goal with
  | |- context [islandHeightOf ?ty (islandHeightParamsOf ?ir) x z ?nx ?nz (draw 0 ?lr)] =>
      pose proof (islandHeightOf_bound ty ir x z nx nz (draw 0 lr) (draw_unit 0 lr)) as Hi
  end.
  destruct (decide (0 < _)); [|lra].
  apply blend_between; [|lra|lra].
  destruct (decide (_ = 4%nat)); [|lra].
  pose proof (pow_unit (1 - dist / 600) 0.6 Hb ltac:(lra)). lra.
Qed.

Lemma round_home (r : R) : -500 <= r < 500 → IZR (round (r / 1000)) * 1000 = 0.
Proof.
  intros Hr. unfold round.
  replace (floor (r / 1000 + 1 / 2)) with 0%Z; [simpl; lra|].
  unfold floor. apply Int_part_spec. simpl. lra.
Qed.

(** X11.  In the grid cell of the origin (-500 <= x, z < 500) no island
    is placed, whatever the seed: the sampled height lies between -10.55
    and 9.35 there.  Within 300 of the origin it is the blend
    `deepHeight * deepBlend + normalHeight * (1 - deepBlend)` of the deep
    spot, and at the origin itself it is within 0.05 of -10. *)
Theorem home_cell_has_no_island (x z : R) (seed : Z) :
  -500 <= x < 500 → -500 <= z < 500 →
  let rand := seededRandom (IZR (seed + floor (x * 1000 + z * 1000))) in
  let deepBlend := 1 - sqrt (x * x + z * z) / 300 in
  let deepHeight :=
    -10.0 + sin (x * 0.002) * cos (z * 0.002) * 0.5 + (draw 0 rand - 0.5) * 0.1 in
  -10.55 <= generateTerrainHeightWithSeed x z seed <= 9.35 ∧
  (sqrt (x * x + z * z) < 300 →
     generateTerrainHeightWithSeed x z seed
       = deepHeight * deepBlend + normalHeightOf x z (draw 1 rand) * (1 - deepBlend)) ∧
  (300 <= sqrt (x * x + z * z) →
     generateTerrainHeightWithSeed x z seed = normalHeightOf x z (draw 2 rand)) ∧
  -10.05 <= generateTerrainHeightWithSeed 0 0 seed <= -9.95.
Proof.
  intros Hx Hz rand deepBlend deepHeight.
  assert (Hgen : ∀ x z : R, -500 <= x < 500 → -500 <= z < 500 →
    generateTerrainHeightWithSeed x z seed =
      let rand := seededRandom (IZR (seed + floor (x * 1000 + z * 1000))) in
      if decide (sqrt (x * x + z * z) < 300) then
        (-10.0 + sin (x * 0.002) * cos (z * 0.002) * 0.5 + (draw 0 rand - 0.5) * 0.1)
          * (1 - sqrt (x * x + z * z) / 300)
        + normalHeightOf x z (draw 1 rand) * (1 - (1 - sqrt (x * x + z * z) / 300))
      else normalHeightOf x z (draw 2 rand)).
  { clear. intros x z Hx Hz. unfold generateTerrainHeightWithSeed. cbv zeta.
    rewrite (round_home x Hx), (round_home z Hz).
    rewrite !(bool_decide_eq_true_2 (0 = 0)) by done. cbn [andb].
    destruct (decide (sqrt (x * x + z * z) < 300)) as [Hnear|Hfar].
    - pose proof (sqrt_pos (x * x + z * z)).
      rewrite decide_True by lra. done.
    - rewrite decide_False by lra. rewrite decide_False by lra. done. }
  assert (Hbound : ∀ x z : R, -500 <= x < 500 → -500 <= z < 500 →
            -10.55 <= generateTerrainHeightWithSeed x z seed <= 9.35).
  { clear -Hgen. intros x z Hx Hz. rewrite (Hgen x z Hx Hz). cbv zeta.
    set (rand := seededRandom (IZR _)).
    pose proof (normalHeightOf_bound x z (draw 1 rand) (draw_unit _ _)).
    pose proof (normalHeightOf_bound x z (draw 2 rand) (draw_unit _ _)).
    pose proof (sin_cos_unit (x * 0.002) (z * 0.002)).
    pose proof (draw_unit 0 rand).
    pose proof (sqrt_pos (x * x + z * z)).
    destruct (decide _); [|lra]. apply blend_between; lra. }
  split; [by apply Hbound|]. split; [|split].
  - intros Hnear. rewrite (Hgen x z Hx Hz). cbv zeta. fold rand.
    by rewrite decide_True.
  - intros Hfar. rewrite (Hgen x z Hx Hz). cbv zeta. fold rand.
    rewrite decide_False by lra. done.
  - rewrite (Hgen 0 0) by lra. cbv zeta.
    replace (0 * 0 + 0 * 0) with 0 by lra. rewrite sqrt_0.
    rewrite decide_True by lra.
    replace (0 * 0.002) with 0 by lra. rewrite sin_0.
    set (d := draw 0 _). pose proof (draw_unit 0 (seededRandom
      (IZR (seed + floor (0 * 1000 + 0 * 1000))))) as Hd. fold d in Hd.
    set (n := normalHeightOf 0 0 _). lra.
Qed.

Lemma home_cell_has_no_island_witness :
  -10.55 <= generateTerrainHeightWithSeed 100 (-200) 7 <= 9.35.
Proof.
  apply (home_cell_has_no_island 100 (-200) 7); lra.
Defined.

End RegeneratedHeightSpec.

(* ===================================================================== *)
(** * One step of the trench pass *)
(* ===================================================================== *)

Module TrenchBlendSpec.
Import JsNumber UnifiedTerrain JsNumberSpec.
#[local] Open Scope R_scope.

Lemma smootherstep_range (x : R) : 0 <= smootherstep 0 1 x <= 1.
Proof.
  unfold smootherstep. cbv zeta.
  set (y := Rmax 0 (Rmin 1 ((x - 0) / (1 - 0)))).
  assert (Hy : 0 <= y <= 1).
  { subst y. split; [apply Rmax_l|].
    apply Rmax_lub; [lra|apply Rmin_l]. }
  assert (H1 : 1 - y * y * y * (y * (y * 6 - 15) + 10)
               = (1 - y) * (1 - y) * (1 - y) * (6 * y * y + 3 * y + 1)) by ring.
  assert (Hcube : 0 <= (1 - y) * (1 - y) * (1 - y)).
  { apply Rmult_le_pos; [apply Rmult_le_pos|]; lra. }
  assert (Hq : 0 <= 6 * y * y + 3 * y + 1) by nra.
  assert (Hy3 : 0 <= y * y * y).
  { apply Rmult_le_pos; [apply Rmult_le_pos|]; lra. }
  assert (Hf : 0 <= y * (y * 6 - 15) + 10) by nra.
  split.
  - by apply Rmult_le_pos.
  - pose proof (Rmult_le_pos _ _ Hcube Hq). lra.
Qed.

(** X12.  One step of the trench pass never overshoots.  For a
    non-negative exponent (the code uses 0.18 and 0.22), `carve` either
    leaves the running pair alone or replaces it by a blend factor
    between 0 and 1 and the depth `trenchDepth * blend + running * (1 -
    blend)`, which lies between the running depth and the trench's own
    depth `depth + rock * blend + depthVar`.  The pair is left alone
    whenever the sample point is outside the footprint. *)
Theorem trench_blend_stays_between (exponent : R) (running : R * R) (c : Trench) :
  0 <= exponent →
  let r := carve exponent running c in
  let trenchDepth := depth c + rock c * r.1 + depthVar c in
  (r = running ∨
   (0 <= r.1 <= 1 ∧
    r.2 = trenchDepth * r.1 + running.2 * (1 - r.1) ∧
    Rmin running.2 trenchDepth <= r.2 <= Rmax running.2 trenchDepth)) ∧
  (trenchLength c / 2 <= Rabs (along c) ∨ trenchWidth c <= Rabs (across c) →
   r = running).
Proof.
  intros He r trenchDepth. subst r trenchDepth. unfold carve. cbv zeta.
  destruct (bool_decide (Rabs (along c) < trenchLength c / 2)) eqn:Hl;
    [|split; [by left|done]].
  destruct (bool_decide (Rabs (across c) < trenchWidth c)) eqn:Hw;
    [|split; [by left|done]].
  apply bool_decide_eq_true in Hl, Hw. cbn [andb]. split; [|intros [?|?]; lra].
  set (blend := pow _ exponent * _).
  assert (Hblend : 0 <= blend <= 1).
  { subst blend.
    pose proof (smootherstep_range (1 - Rabs (across c) / trenchWidth c)) as Hcore.
    pose proof (smootherstep_range (1 - Rabs (along c) / (trenchLength c / 2))) as Hend.
    pose proof (pow_range _ exponent Hcore He) as Hpow.
    split; [apply Rmult_le_pos; lra|]. nra. }
  destruct (_ || _); [|by left]. right. cbn [fst snd].
  split; [done|]. split; [done|].
  set (td := depth c + rock c * blend + depthVar c).
  unfold Rmin, Rmax. destruct (Rle_dec (running.2) td); split; nra.
Qed.

Lemma trench_blend_stays_between_witness :
  let r := carve 0.18 (0, 0) (wideTrench centred) in
  let trenchDepth := depth (wideTrench centred) + rock (wideTrench centred) * r.1
                     + depthVar (wideTrench centred) in
  r = (0, 0) ∨
  (0 <= r.1 <= 1 ∧
   r.2 = trenchDepth * r.1 + (0, 0).2 * (1 - r.1) ∧
   Rmin (0, 0).2 trenchDepth <= r.2 <= Rmax (0, 0).2 trenchDepth).
Proof.
  assert (He : 0 <= 0.18) by lra.
  exact (proj1 (trench_blend_stays_between 0.18 (0, 0) (wideTrench centred) He)).
Defined.

End TrenchBlendSpec.

(* ===================================================================== *)
(** * The buffers of a chunk *)
(* ===================================================================== *)

Module ChunkBufferSpec.
Import JsNumber UnifiedTerrain UnifiedTerrainSpec.
#[local] Open Scope R_scope.

Lemma filterFrom_flatPositions (index : nat) (vs : list Vertex) :
  (index mod 3 = 0)%nat →
  filterFrom (λ index, bool_decide (index mod 3 = 1)%nat) index (flatPositions vs)
    = vy <$> vs.
Proof.
  unfold flatPositions. revert index.
  induction vs as [|v vs IH]; intros index Hindex; [done|].
  rewrite bind_cons. cbn [app filterFrom].
  assert (H1 : (S index mod 3 = 1)%nat).
  { replace (S index) with (1 + index)%nat by lia.
    rewrite Nat.Div0.add_mod, Hindex. done. }
  assert (H2 : (S (S index) mod 3 = 2)%nat).
  { replace (S (S index)) with (2 + index)%nat by lia.
    rewrite Nat.Div0.add_mod, Hindex. done. }
  assert (H3 : (S (S (S index)) mod 3 = 0)%nat).
  { replace (S (S (S index))) with (3 + index)%nat by lia.
    rewrite Nat.Div0.add_mod, Hindex. done. }
  rewrite (bool_decide_eq_false_2 (index mod 3 = 1)%nat) by lia.
  rewrite (bool_decide_eq_true_2 (S index mod 3 = 1)%nat) by done.
  rewrite (bool_decide_eq_false_2 (S (S index) mod 3 = 1)%nat) by lia.
  rewrite fmap_cons. f_equal. by apply IH.
Qed.

Lemma heightsOf_flatPositions (vs : list Vertex) :
  heightsOf (flatPositions vs) = vy <$> vs.
Proof. by apply filterFrom_flatPositions. Qed.

Lemma length_bind_const {A B : Type} (f : A → list B) (l : list A) (k : nat) :
  (∀ a, length (f a) = k) → length (a ← l; f a) = (length l * k)%nat.
Proof.
  intros Hf. induction l as [|a l IH]; [done|].
  rewrite bind_cons, length_app, IH, Hf. simpl. lia.
Qed.

Lemma vertexColor_unit (h : R) :
  let c := vertexColor h in
  0 <= c.1.1 <= 1 ∧ 0 <= c.1.2 <= 1 ∧ 0 <= c.2 <= 1.
Proof. unfold vertexColor. repeat case_decide; cbn [fst snd]; lra. Qed.

Section Generator.
Context `{HeightLayers}.

(** X13.  The arrays a chunk is built from fit together.  Under a
    non-zero seed the position array holds three numbers per vertex and
    the base heights, which the code takes as the entries of that array
    whose index is 1 modulo 3, are the vertex heights in vertex order;
    the colour array holds three numbers per vertex, each between 0 and
    1. *)
Theorem chunk_arrays_are_per_vertex (t : Terrain) (cx cz : Z) :
  truthy (terrainSeed t) = true →
  let vertices := chunkVertices t cx cz in
  let n := (S (chunkResolution t) * S (chunkResolution t))%nat in
  mesh (createTerrainChunk t cx cz) = Some (mkMesh vertices) ∧
  length (flatPositions vertices) = (3 * n)%nat ∧
  originalHeights (createTerrainChunk t cx cz) = heightsOf (flatPositions vertices) ∧
  length (originalHeights (createTerrainChunk t cx cz)) = n ∧
  length (flatColors vertices) = (3 * n)%nat ∧
  (∀ c, c ∈ flatColors vertices → 0 <= c <= 1).
Proof.
  intros Hseed vertices n.
  assert (Hflat : ∀ (f : Vertex → list R) (vs : list Vertex),
            (∀ v, length (f v) = 3%nat) → length (v ← vs; f v) = (3 * length vs)%nat).
  { intros f vs Hf. induction vs as [|v vs IH]; [done|].
    rewrite bind_cons, length_app, IH, Hf. simpl. lia. }
  rewrite createTerrainChunk_seeded by done. cbn [mesh originalHeights].
  split; [done|]. split.
  { unfold flatPositions. rewrite Hflat by done.
    subst vertices. by rewrite length_chunkVertices. }
  split; [by rewrite heightsOf_flatPositions|]. split.
  { rewrite length_fmap. apply length_chunkVertices. }
  split.
  { unfold flatColors. rewrite Hflat by done.
    subst vertices. by rewrite length_chunkVertices. }
  intros c Hc. unfold flatColors in Hc.
  apply list_elem_of_bind in Hc as (v & Hc & _).
  destruct (vertexColor_unit (vy v)) as (Hr & Hg & Hb).
  cbv zeta in Hc.
  repeat (apply elem_of_cons in Hc as [-> | Hc]; [done|]).
  by apply elem_of_nil in Hc.
Qed.

(** X14.  The index buffer of a chunk has six entries per grid cell, and
    every entry is the index of a vertex of the chunk: it is below
    (chunkResolution + 1)², the number of vertices `createTerrainChunk`
    stores. *)
Theorem chunk_indices_name_vertices (t : Terrain) (cx cz : Z) :
  length (chunkIndices t) = (6 * (chunkResolution t * chunkResolution t))%nat ∧
  ∀ i, i ∈ chunkIndices t →
       (i < S (chunkResolution t) * S (chunkResolution t))%nat ∧
       is_Some (chunkVertices t cx cz !! i).
Proof.
  assert (Hbelow : ∀ i, i ∈ chunkIndices t →
            (i < S (chunkResolution t) * S (chunkResolution t))%nat).
  { intros i Hi. unfold chunkIndices in Hi.
    apply list_elem_of_bind in Hi as (z & Hi & Hz).
    apply list_elem_of_bind in Hi as (x & Hi & Hx).
    apply elem_of_seq in Hz, Hx. cbv zeta in Hi.
    repeat (apply elem_of_cons in Hi as [-> | Hi]; [nia|]).
    by apply elem_of_nil in Hi. }
  split.
  - unfold chunkIndices.
    rewrite (length_bind_const _ _ (chunkResolution t * 6)).
    { rewrite length_seq. lia. }
    intros z. rewrite (length_bind_const _ _ 6); [|done].
    by rewrite length_seq.
  - intros i Hi. split; [by apply Hbelow|].
    apply lookup_lt_is_Some. rewrite length_chunkVertices. by apply Hbelow.
Qed.

End Generator.

Lemma chunk_arrays_are_per_vertex_witness :
  length (originalHeights (@createTerrainChunk flatOcean (constructor (Some 7%Z)) 0 0))
    = (33 * 33)%nat.
Proof.
  exact (proj1 (proj2 (proj2 (proj2
    (@chunk_arrays_are_per_vertex flatOcean (constructor (Some 7%Z)) 0 0 eq_refl))))).
Defined.

End ChunkBufferSpec.

(* ===================================================================== *)
(** * Streaming, animation and removal *)
(* ===================================================================== *)

Module CacheSpec.
Import JsNumber UnifiedTerrain UnifiedTerrainSpec.
#[local] Open Scope R_scope.

Section Generator.
Context `{HeightLayers}.

(** ** Streaming *)

(** X15.  A streaming pass that returns keeps every cached chunk that is
    still required exactly as it was (it is not generated again), holds
    no chunk that is not required, and running the pass again from the
    same place changes nothing: it returns the same state, whether or not
    the cached chunks have meshes. *)
Theorem streaming_keeps_chunks_and_is_idempotent
    (t t' : Terrain) (playerPosition : Vector3) :
  updateTerrainChunks t playerPosition = Done t' →
  (∀ key c, terrainChunks t !! key = Some c →
            key ∈ requiredChunks t playerPosition →
            terrainChunks t' !! key = Some c) ∧
  (∀ key, key ∉ requiredChunks t playerPosition → terrainChunks t' !! key = None) ∧
  updateTerrainChunks t' playerPosition = Done t'.
Proof.
  intros Hrun.
  pose proof (updateTerrainChunks_lookup t playerPosition t') as Hlook.
  pose proof (updateTerrainChunks_config t playerPosition t' Hrun) as Hcfg.
  split; [|split].
  - intros key c Hc Hreq. rewrite (Hlook key Hrun), decide_True by done.
    by rewrite Hc.
  - intros key Hreq. by rewrite (Hlook key Hrun), decide_False.
  - assert (Hreq : requiredChunks t' playerPosition = requiredChunks t playerPosition)
      by (by rewrite Hcfg).
    assert (Hsame : foldl (ensureChunk t') (terrainChunks t')
                      (requiredChunks t' playerPosition) = terrainChunks t').
    { apply map_eq. intros key. rewrite lookup_ensured.
      destruct (terrainChunks t' !! key) as [c|] eqn:Hc; [done|].
      rewrite decide_False; [done|]. rewrite Hreq. intros Hin.
      rewrite (Hlook key Hrun), decide_True in Hc by done.
      by destruct (terrainChunks t !! key). }
    unfold updateTerrainChunks. cbv zeta. rewrite Hsame.
    assert (Hall : ∀ key c, terrainChunks t' !! key = Some c →
                            key ∈ requiredChunks t' playerPosition).
    { intros key c Hc. rewrite Hreq.
      destruct (decide (key ∈ requiredChunks t playerPosition)) as [|Hout]; [done|].
      rewrite (Hlook key Hrun), decide_False in Hc by done. done. }
    rewrite decide_False.
    2:{ intros (key & c & Hc & Hout & _)%map_Exists_lookup_1.
        apply Hout. by eapply Hall. }
    assert (Hkeep : filter (λ kc, kc.1 ∈ requiredChunks t' playerPosition)
                      (terrainChunks t') = terrainChunks t').
    { apply map_eq. intros key.
      destruct (terrainChunks t' !! key) as [c|] eqn:Hc.
      - apply map_lookup_filter_Some. split; [done|]. by eapply Hall.
      - apply map_lookup_filter_None. left. done. }
    rewrite Hkeep. by destruct t'.
Qed.

(** ** Animation *)

Lemma wave_coordinates (t t' : Terrain) (v v' : Vertex) :
  waveFreq t' = waveFreq t → wavePhase t' = wavePhase t → waveAmp t' = waveAmp t →
  vx v' = vx v → vz v' = vz v → wave t' v' = wave t v.
Proof. intros Hf Hp Ha Hx Hz. unfold wave. by rewrite Hf, Hp, Ha, Hx, Hz. Qed.

Lemma wave_bound (t : Terrain) (v : Vertex) :
  Rabs (wave t v) <= 1.6 * Rabs (waveAmp t).
Proof.
  unfold wave.
  set (s := sin _). set (c := cos _).
  assert (Hs : Rabs s <= 1) by (apply Rabs_le, SIN_bound).
  assert (Hc : Rabs c <= 1) by (apply Rabs_le, COS_bound).
  pose proof (Rabs_pos (waveAmp t)) as Ha.
  eapply Rle_trans; [apply Rabs_triang|].
  rewrite !Rabs_mult. rewrite (Rabs_pos_eq 0.6) by lra.
  assert (Rabs s * Rabs (waveAmp t) <= 1 * Rabs (waveAmp t))
    by (apply Rmult_le_compat_r; lra).
  assert (Rabs c * Rabs (waveAmp t) <= 1 * Rabs (waveAmp t))
    by (apply Rmult_le_compat_r; lra).
  lra.
Qed.

Lemma animateVertices_lookup (t : Terrain) (heights : list R) (pos : list Vertex)
    (i : nat) (v : Vertex) (h : R) :
  pos !! i = Some v → heights !! i = Some h →
  animateVertices t heights pos !! i = Some (mkVertex (vx v) (h + wave t v) (vz v)).
Proof.
  revert pos i. induction heights as [|h0 hs IH]; intros pos i Hv Hh; [done|].
  destruct pos as [|v0 pos]; [done|]. destruct i as [|i]; simpl in *.
  - by injection Hv as ->; injection Hh as ->.
  - by apply IH.
Qed.

Lemma animateVertices_twice (t t' : Terrain) (heights : list R) (pos : list Vertex) :
  waveFreq t' = waveFreq t → wavePhase t' = wavePhase t → waveAmp t' = waveAmp t →
  animateVertices t' heights (animateVertices t heights pos)
    = animateVertices t heights pos.
Proof.
  intros Hf Hp Ha. revert pos.
  induction heights as [|h hs IH]; intros [|v vs]; cbn [animateVertices]; try done.
  rewrite IH. f_equal. f_equal.
  cbn [vx vy vz]. f_equal. by apply wave_coordinates.
Qed.

Lemma animateChunk_twice (t t' : Terrain) (c : Chunk) :
  waveFreq t' = waveFreq t → wavePhase t' = wavePhase t → waveAmp t' = waveAmp t →
  animateChunk t' (animateChunk t c) = animateChunk t c.
Proof.
  intros Hf Hp Ha. unfold animateChunk at 2 3. destruct (mesh c) as [m|] eqn:Hm.
  - unfold animateChunk. cbn [mesh originalHeights position chunkX chunkZ].
    by rewrite animateVertices_twice.
  - unfold animateChunk. by rewrite Hm.
Qed.

(** X16.  The wave animation writes nothing but vertex heights, and it
    computes each of them from the chunk's base height and the vertex's
    x and z: a vertex with base height `h` ends at `h + wave`, within
    `1.6 * |waveAmp|` of `h`; its x and z, the base heights and the
    chunk's coordinates are unchanged, a chunk without mesh is left as
    it is, and animating twice in a row gives the same state as animating
    once (the animation does not accumulate). *)
Theorem animation_offsets_base_heights (t : Terrain) :
  animateTerrainChunks (animateTerrainChunks t) = animateTerrainChunks t ∧
  (∀ key c, terrainChunks t !! key = Some c →
     ∃ c', terrainChunks (animateTerrainChunks t) !! key = Some c' ∧
       originalHeights c' = originalHeights c ∧
       chunkX c' = chunkX c ∧ chunkZ c' = chunkZ c ∧
       (mesh c = None → c' = c) ∧
       ∀ m i v h, mesh c = Some m → position m !! i = Some v →
                  originalHeights c !! i = Some h →
         ∃ m', mesh c' = Some m' ∧
           position m' !! i = Some (mkVertex (vx v) (h + wave t v) (vz v)) ∧
           Rabs (h + wave t v - h) <= 1.6 * Rabs (waveAmp t)).
Proof.
  split.
  - assert (Hset : ∀ m m0 : gmap (Z * Z) Chunk,
              set_terrainChunks m (set_terrainChunks m0 t) = set_terrainChunks m t)
      by done.
    unfold animateTerrainChunks. rewrite Hset. f_equal.
    cbn [terrainChunks set_terrainChunks].
    rewrite <- map_fmap_compose. apply map_fmap_ext.
    intros key c _. cbn [compose]. by apply animateChunk_twice.
  - intros key c Hc. exists (animateChunk t c).
    split; [unfold animateTerrainChunks; simpl; by rewrite lookup_fmap, Hc|].
    unfold animateChunk. destruct (mesh c) as [m|] eqn:Hm.
    + cbn [originalHeights chunkX chunkZ mesh].
      split; [done|]. split; [done|]. split; [done|]. split; [done|].
      intros m0 i v h [= <-] Hv Hh. eexists. split; [done|].
      cbn [position]. split; [by apply animateVertices_lookup|].
      replace (h + wave t v - h) with (wave t v) by lra. apply wave_bound.
    + split; [done|]. split; [done|]. split; [done|]. split; [done|].
      by intros m i v h ?.
Qed.

(** X17.  Two chunks created under the same seed still agree at a grid
    point they share after both have been animated with the same wave
    state: the vertex has the same coordinates in both, and its height is
    the terrain height at those coordinates plus the wave there. *)
Theorem animation_keeps_adjacent_chunks_joined
    (t tw : Terrain) (cx cz cx' cz' : Z) (x z x' z' : nat) :
  truthy (terrainSeed t) = true →
  (0 < chunkResolution t)%nat →
  (x ≤ chunkResolution t)%nat → (z ≤ chunkResolution t)%nat →
  (x' ≤ chunkResolution t)%nat → (z' ≤ chunkResolution t)%nat →
  (cx * Z.of_nat (chunkResolution t) + Z.of_nat x
   = cx' * Z.of_nat (chunkResolution t) + Z.of_nat x')%Z →
  (cz * Z.of_nat (chunkResolution t) + Z.of_nat z
   = cz' * Z.of_nat (chunkResolution t) + Z.of_nat z')%Z →
  let a := animateChunk tw (createTerrainChunk t cx cz) in
  let b := animateChunk tw (createTerrainChunk t cx' cz') in
  let i := (z * S (chunkResolution t) + x)%nat in
  let i' := (z' * S (chunkResolution t) + x')%nat in
  ∃ (ma mb : Mesh) (v : Vertex),
    mesh a = Some ma ∧ mesh b = Some mb ∧
    position ma !! i = Some v ∧ position mb !! i' = Some v ∧
    vy v = generateTerrainHeight (terrainSeed t) (vx v) (vz v) + wave tw v.
Proof.
  intros Hseed Hpos Hx Hz Hx' Hz' Hgx Hgz a b i i'.
  subst a b. rewrite !createTerrainChunk_seeded by done.
  unfold animateChunk. cbn [mesh position originalHeights chunkX chunkZ].
  pose proof (lookup_chunkVertices t cx cz x z Hx Hz) as Ha.
  pose proof (lookup_chunkVertices t cx' cz' x' z' Hx' Hz') as Hb.
  rewrite <- (vertexAt_shared t t cx cz cx' cz' x z x' z') in Hb by done.
  set (v := vertexAt t cx cz x z) in *.
  eexists _, _, (mkVertex (vx v) (vy v + wave tw v) (vz v)).
  split; [done|]. split; [done|]. cbn [position]. subst i i'.
  split; [|split].
  - apply animateVertices_lookup; [done|]. by rewrite list_lookup_fmap, Ha.
  - apply animateVertices_lookup; [done|]. by rewrite list_lookup_fmap, Hb.
  - cbn [vx vy vz]. f_equal.
Qed.

(** ** remove *)

(** X18.  `remove` returns exactly when every cached chunk has a mesh;
    it then leaves an empty cache and touches nothing else.  If some
    cached chunk has no mesh it raises before the cache is cleared.  In
    every state of a seeded history it returns. *)
Theorem remove_empties_a_materialised_cache (t : Terrain) :
  ((∀ key c, terrainChunks t !! key = Some c → mesh c ≠ None) →
     remove t = Done (set_terrainChunks ∅ t)) ∧
  (∀ key c, terrainChunks t !! key = Some c → mesh c = None →
     remove t = TypeError) ∧
  (seededHistory t → remove t = Done (set_terrainChunks ∅ t)).
Proof.
  assert (Hmesh : (∀ key c, terrainChunks t !! key = Some c → mesh c ≠ None) →
                  remove t = Done (set_terrainChunks ∅ t)).
  { intros Hall. unfold remove. rewrite decide_False; [done|].
    intros (key & c & Hc & Hnone)%map_Exists_lookup_1. by eapply Hall. }
  split; [exact Hmesh|]. split.
  - intros key c Hc Hnone. unfold remove. rewrite decide_True; [done|].
    by apply (map_Exists_lookup_2 _ _ key c).
  - intros Hhist. apply Hmesh. intros key c Hc.
    destruct (seededHistory_materialized t Hhist key c Hc) as [(m & -> & _) _]. done.
Qed.

End Generator.

(** The cache of a generator with seed 7 after its first frame at the
    origin: materialised, and holding exactly the keys the origin
    requires. *)
Lemma first_frame :
  let t0 := constructor (Some 7%Z) in
  let origin := mkVector3 0 0 0 in
  ∃ t1, @update flatOcean t0 (1 / 60) origin = Done t1 ∧
        @history flatOcean t1 ∧ cacheMaterialized t1 ∧
        (∀ key, key ∈ @requiredChunks t1 origin ↔ key ∈ dom (terrainChunks t1)).
Proof.
  intros t0 origin.
  assert (Hinv0 : cacheMaterialized t0)
    by (intros key c Hc; simpl in Hc; by rewrite lookup_empty in Hc).
  destruct (@update_idle flatOcean t0 (1 / 60) origin eq_refl eq_refl Hinv0)
    as (s1 & Hstream & Hupdate).
  pose proof (@updateTerrainChunks_config flatOcean _ _ s1 Hstream) as Hs1.
  exists (animateTerrainChunks s1). split; [exact Hupdate|]. split; [|split].
  - apply (history_perform t0 _ (call_update (1 / 60) origin));
      [apply history_constructor | exact Hupdate].
  - apply (@seededHistory_materialized flatOcean).
    apply (history_call t0 _ (call_update (1 / 60) origin));
      [apply history_new | done | exact Hupdate].
  - intros key. rewrite (@update_dom flatOcean t0 _ (1 / 60) origin key Hupdate).
    unfold requiredChunks, playerChunk, chunkRadius, inRange. simpl.
    by rewrite Hs1.
Qed.

Lemma streaming_keeps_chunks_and_is_idempotent_witness :
  let t0 := constructor (Some 7%Z) in
  ∃ t1, @updateTerrainChunks flatOcean t0 (mkVector3 0 0 0) = Done t1 ∧
        @updateTerrainChunks flatOcean t1 (mkVector3 0 0 0) = Done t1.
Proof.
  intros t0.
  destruct (@updateTerrainChunks_outcome flatOcean t0 (mkVector3 0 0 0))
    as [Hthrow | [t1 Hrun]].
  - exfalso. revert Hthrow. rewrite (@updateTerrainChunks_returns flatOcean); [done|].
    intros key c Hc. simpl in Hc. by rewrite lookup_empty in Hc.
  - exists t1. split; [exact Hrun|].
    exact (proj2 (proj2 (@streaming_keeps_chunks_and_is_idempotent flatOcean
                           t0 t1 (mkVector3 0 0 0) Hrun))).
Defined.

Lemma animation_keeps_adjacent_chunks_joined_witness :
  let t := constructor (Some 7%Z) in
  let tw := set_wavePhase 3 t in
  ∃ (ma mb : Mesh) (v : Vertex),
    mesh (animateChunk tw (@createTerrainChunk flatOcean t 0 0)) = Some ma ∧
    mesh (animateChunk tw (@createTerrainChunk flatOcean t 1 0)) = Some mb ∧
    position ma !! (5 * 33 + 32)%nat = Some v ∧
    position mb !! (5 * 33 + 0)%nat = Some v.
Proof.
  intros t tw.
  destruct (@animation_keeps_adjacent_chunks_joined flatOcean t tw 0 0 1 0
              32 5 0 5 eq_refl)
    as (ma & mb & v & Ha & Hb & Hva & Hvb & _); simpl; try lia.
  exists ma, mb, v. repeat split; assumption.
Defined.

Lemma remove_empties_a_materialised_cache_witness :
  let t0 := constructor (Some 7%Z) in
  ∃ t1, @update flatOcean t0 (1 / 60) (mkVector3 0 0 0) = Done t1 ∧
        remove t1 = Done (set_terrainChunks ∅ t1).
Proof.
  intros t0. destruct first_frame as (t1 & Hupd & _ & Hinv & _).
  exists t1. split; [exact Hupd|].
  apply (proj1 (@remove_empties_a_materialised_cache flatOcean t1)).
  intros key c Hc. destruct (Hinv key c Hc) as [(m & -> & _) _]. done.
Defined.

End CacheSpec.

(* ===================================================================== *)
(** * The regeneration transition, from start to end *)
(* ===================================================================== *)

Module TransitionSpec.
Import JsNumber UnifiedTerrain TerrainGenerator UnifiedTerrainSpec CacheSpec.
#[local] Open Scope R_scope.

Section Generator.
Context `{HeightLayers}.

(** ** The transition block for any interpolation factor *)

Lemma stepLerp_factor (t : Terrain) (deltaTime f : R) :
  covered t →
  lerpFactor (_regenLerpTime t + deltaTime) (_regenLerpDuration t) = Done f →
  ∃ t', stepLerp t deltaTime = Done t' ∧
    (∀ key c m o n i v oldH newH,
        terrainChunks t !! key = Some c → mesh c = Some m →
        _regenOldHeights t !! key = Some o → _regenNewHeights t !! key = Some n →
        position m !! i = Some v → o !! i = Some oldH → n !! i = Some newH →
        ∃ c' m', terrainChunks t' !! key = Some c' ∧ mesh c' = Some m' ∧
          position m' !! i
            = Some (mkVertex (vx v) (oldH + (newH - oldH) * f) (vz v)) ∧
          (1 <= f → originalHeights c' = n) ∧
          (f < 1 → originalHeights c' = originalHeights c)) ∧
    (1 <= f → _regenLerpActive t' = false ∧ terrainSeed t' = _regenSeed t) ∧
    (f < 1 → _regenLerpActive t' = _regenLerpActive t ∧
             terrainSeed t' = terrainSeed t).
Proof.
  intros Hcov Hf. unfold stepLerp. cbv zeta.
  cbn [_regenLerpDuration set_regenLerpTime _regenOldHeights _regenNewHeights
       terrainChunks].
  rewrite Hf.
  set (step := lerpChunk (_regenOldHeights t) (_regenNewHeights t) f).
  assert (Hstep : ∀ key c, terrainChunks t !! key = Some c →
            ∃ c', step key c = Done c').
  { intros key c Hc. destruct (Hcov key c Hc) as (m & o & n & Hm & Ho & Hn & ? & ? & ?).
    destruct (lerpChunk_spec (_regenOldHeights t) (_regenNewHeights t) f key c m o n)
      as (c' & _ & Hc' & _); try done.
    by exists c'. }
  destruct (forChunks_all step _ Hstep) as [chunks Hchunks].
  rewrite Hchunks. cbn [bind].
  assert (Hvertex : ∀ key c m o n i v oldH newH,
            terrainChunks t !! key = Some c → mesh c = Some m →
            _regenOldHeights t !! key = Some o → _regenNewHeights t !! key = Some n →
            position m !! i = Some v → o !! i = Some oldH → n !! i = Some newH →
            ∃ c' m', chunks !! key = Some c' ∧ mesh c' = Some m' ∧
              originalHeights c' = originalHeights c ∧
              length n = length (originalHeights c) ∧
              position m' !! i
                = Some (mkVertex (vx v) (oldH + (newH - oldH) * f) (vz v))).
  { intros key c m o n i v oldH newH Hc Hm Ho Hn Hv HoldH HnewH.
    destruct (Hcov key c Hc) as (m0 & o0 & n0 & Hm0 & Ho0 & Hn0 & ? & ? & ?).
    assert (m0 = m) as -> by congruence. assert (o0 = o) as -> by congruence.
    assert (n0 = n) as -> by congruence.
    destruct (lerpChunk_spec (_regenOldHeights t) (_regenNewHeights t) f key c m o n)
      as (c' & m' & Hc' & Hm' & Hh' & Hlook); try done.
    pose proof (forChunks_returns step _ chunks key Hchunks) as Hk.
    rewrite Hc in Hk. destruct Hk as (c'' & Hc'' & Hlk).
    assert (c'' = c') as -> by (unfold step in Hc''; congruence).
    exists c', m'. repeat split; try done. by eapply Hlook. }
  destruct (decide (1 <= f)) as [Hone|Hless].
  - unfold finishLerp.
    cbn [_regenNewHeights set_terrainChunks terrainChunks _regenSeed set_regenLerpTime].
    set (adopt := adoptChunk (_regenNewHeights t)).
    assert (Hadopt : ∀ key c', chunks !! key = Some c' →
              ∃ n, _regenNewHeights t !! key = Some n ∧
                   adopt key c' = Done (mkChunk (mesh c') (chunkX c') (chunkZ c') n)).
    { intros key c' Hc'.
      pose proof (forChunks_returns step _ chunks key Hchunks) as Hk.
      destruct (terrainChunks t !! key) as [c|] eqn:Hc; [|congruence].
      destruct Hk as (c'' & Hc'' & Hlk). assert (c'' = c') as -> by congruence.
      destruct (Hcov key c Hc) as (m & o & n & Hm & Ho & Hn & ? & ? & ?).
      destruct (lerpChunk_spec (_regenOldHeights t) (_regenNewHeights t) f key c m o n)
        as (c2 & m' & Hc2 & Hm' & Hh' & _); try done.
      assert (c2 = c') as -> by (unfold step in Hc''; congruence).
      exists n. split; [done|]. apply adoptChunk_spec; [done|]. by rewrite Hh'. }
    destruct (forChunks_all adopt chunks) as [chunks' Hchunks'].
    { intros key c' Hc'. destruct (Hadopt key c' Hc') as (n & _ & Hn). by eexists. }
    rewrite Hchunks'. cbn [bind]. eexists. split; [done|].
    split; [|split; [done|lra]].
    intros key c m o n i v oldH newH Hc Hm Ho Hn Hv HoldH HnewH.
    destruct (Hvertex key c m o n i v oldH newH) as (c' & m' & Hc' & Hm' & _ & _ & Hpos);
      try done.
    pose proof (forChunks_returns adopt chunks chunks' key Hchunks') as Hk.
    rewrite Hc' in Hk. destruct Hk as (c'' & Hc'' & Hlk).
    destruct (Hadopt key c' Hc') as (n' & Hn' & Hdone).
    assert (n' = n) as -> by congruence.
    rewrite Hdone in Hc''. injection Hc'' as <-.
    eexists _, m'. cbn [terrainChunks set_regenLerpActive set_terrainChunks].
    split; [exact Hlk|]. split; [done|]. split; [done|]. split; [done|lra].
  - eexists. split; [done|].
    split; [|split; [lra|done]].
    intros key c m o n i v oldH newH Hc Hm Ho Hn Hv HoldH HnewH.
    destruct (Hvertex key c m o n i v oldH newH) as (c' & m' & Hc' & Hm' & Hh & _ & Hpos);
      try done.
    exists c', m'. cbn [terrainChunks set_terrainChunks].
    split; [done|]. split; [done|]. split; [done|]. split; [lra|done].
Qed.

(** A frame whose streaming pass leaves the cache as it is. *)
Lemma updateTerrainChunks_settled (t : Terrain) (p : Vector3) :
  (∀ key c, terrainChunks t !! key = Some c → mesh c ≠ None) →
  (∀ key, key ∈ requiredChunks t p ↔ key ∈ dom (terrainChunks t)) →
  updateTerrainChunks t p = Done t.
Proof.
  intros Hmesh Hsame.
  rewrite updateTerrainChunks_returns by (intros key c Hc _; by eapply Hmesh).
  f_equal.
  assert (Hkeep : filter (λ kc, kc.1 ∈ requiredChunks t p)
                    (foldl (ensureChunk t) (terrainChunks t) (requiredChunks t p))
                  = terrainChunks t).
  { apply map_eq. intros key.
    destruct (decide (key ∈ requiredChunks t p)) as [Hin|Hin].
    - pose proof Hin as Hdom. apply Hsame in Hdom. apply elem_of_dom in Hdom as [c Hc].
      rewrite Hc. apply map_lookup_filter_Some. split; [|exact Hin].
      by rewrite lookup_ensured, Hc.
    - assert (Hnone : terrainChunks t !! key = None).
      { apply not_elem_of_dom. by rewrite <- Hsame. }
      rewrite Hnone. apply map_lookup_filter_None. right. intros c _. exact Hin. }
  rewrite Hkeep. by destruct t.
Qed.

Lemma update_factor (t : Terrain) (deltaTime f : R) (p : Vector3) :
  _regenLerpActive t = true → covered t →
  (∀ key, key ∈ requiredChunks t p ↔ key ∈ dom (terrainChunks t)) →
  lerpFactor (_regenLerpTime t + deltaTime) (_regenLerpDuration t) = Done f →
  ∃ t', update t deltaTime p = Done t' ∧
    (∀ key c m o n i v oldH newH,
        terrainChunks t !! key = Some c → mesh c = Some m →
        _regenOldHeights t !! key = Some o → _regenNewHeights t !! key = Some n →
        position m !! i = Some v → o !! i = Some oldH → n !! i = Some newH →
        ∃ c' m', terrainChunks t' !! key = Some c' ∧ mesh c' = Some m' ∧
          position m' !! i
            = Some (mkVertex (vx v) (oldH + (newH - oldH) * f) (vz v)) ∧
          (1 <= f → originalHeights c' = n) ∧
          (f < 1 → originalHeights c' = originalHeights c)) ∧
    (1 <= f → _regenLerpActive t' = false ∧ terrainSeed t' = _regenSeed t) ∧
    (f < 1 → _regenLerpActive t' = true ∧ terrainSeed t' = terrainSeed t).
Proof.
  intros Hactive Hcov Hsame Hf. unfold update. cbv zeta.
  set (t1 := set_wavePhase _ t).
  assert (Hrun : updateTerrainChunks t1 p = Done t1).
  { apply updateTerrainChunks_settled; [|exact Hsame].
    intros key c Hc. destruct (Hcov key c Hc) as (m & _ & _ & -> & _). done. }
  rewrite Hrun. cbn [bind].
  set (t3 := animateTerrainChunks t1).
  change (_regenLerpActive t3) with (_regenLerpActive t). rewrite Hactive.
  assert (Hcov3 : covered t3).
  { intros key c3. unfold t3. cbn [animateTerrainChunks terrainChunks set_terrainChunks].
    change (terrainChunks t1) with (terrainChunks t). rewrite lookup_fmap.
    destruct (terrainChunks t !! key) as [c|] eqn:Hc; [|done]. intros [= <-].
    destruct (Hcov key c Hc) as (m & o & n & Hm & Ho & Hn & Hlp & Hlo & Hln).
    unfold animateChunk. rewrite Hm.
    exists (mkMesh (animateVertices t1 (originalHeights c) (position m))), o, n.
    cbn [mesh position originalHeights].
    split; [done|]. split; [exact Ho|]. split; [exact Hn|].
    split; [by rewrite length_animateVertices|done]. }
  destruct (stepLerp_factor t3 deltaTime f Hcov3 Hf)
    as (t' & Hstep & Hvertex & Hone & Hless).
  exists t'. split; [exact Hstep|]. split; [|split; [exact Hone|]].
  - intros key c m o n i v oldH newH Hc Hm Ho Hn Hv HoldH HnewH.
    destruct (lookup_animateVertices t1 (originalHeights c) (position m) i v Hv)
      as (v3 & Hv3 & Hx & Hz).
    destruct (Hvertex key (animateChunk t1 c)
                (mkMesh (animateVertices t1 (originalHeights c) (position m)))
                o n i v3 oldH newH) as (c' & m' & Hc' & Hm' & Hpos & Hfin & Hmid);
      try done.
    + unfold t3. cbn [animateTerrainChunks terrainChunks set_terrainChunks].
      change (terrainChunks t1) with (terrainChunks t).
      by rewrite lookup_fmap, Hc.
    + unfold animateChunk. rewrite Hm. reflexivity.
    + rewrite Hx, Hz in Hpos. exists c', m'. split; [done|]. split; [done|].
      split; [done|]. split; [done|].
      intros Hlt. rewrite (Hmid Hlt). apply originalHeights_animateChunk.
  - intros Hlt. destruct (Hless Hlt) as [-> ->]. done.
Qed.

(** ** What regenerateTerrain prepares *)

Lemma regenerateTerrain_prepares (t : Terrain) (newSeed : option Z) (duration : R) :
  cacheMaterialized t →
  ∃ news,
    regenerateTerrain t newSeed duration
      = Done (set_regen (originalHeights <$> terrainChunks t) news newSeed duration t) ∧
    ∀ key c m, terrainChunks t !! key = Some c → mesh c = Some m →
      news !! key
        = Some ((λ v, generateTerrainHeightWithSeed (vx v) (vz v) newSeed)
                  <$> position m).
Proof.
  intros Hinv. unfold regenerateTerrain. cbv zeta.
  rewrite decide_False.
  2:{ intros (key & c & Hc & Hthrow)%map_Exists_lookup_1.
      destruct (regenChunk_materialized newSeed _ c (Hinv key c Hc)) as [l Hl].
      by rewrite Hl in Hthrow. }
  rewrite decide_False.
  2:{ intros (key & c & Hc & Hthrow)%map_Exists_lookup_1.
      destruct (regenChunk_materialized newSeed _ c (Hinv key c Hc)) as [l Hl].
      by rewrite Hl in Hthrow. }
  eexists. split; [done|]. intros key c m Hc Hm.
  rewrite lookup_omap, Hc. cbn [mbind option_bind].
  destruct (Hinv key c Hc) as [(m0 & Hm0 & Hlen) Hh].
  assert (m0 = m) as -> by congruence.
  unfold regenChunk, regenNewHeights. rewrite Hm.
  rewrite decide_True by lia. rewrite Hh, <- Hlen, firstn_all. done.
Qed.

Lemma regenerateTerrain_covered (t : Terrain) (newSeed : option Z) (duration : R)
    (news : gmap (Z * Z) (list R)) :
  cacheMaterialized t →
  (∀ key c m, terrainChunks t !! key = Some c → mesh c = Some m →
     news !! key
       = Some ((λ v, generateTerrainHeightWithSeed (vx v) (vz v) newSeed)
                 <$> position m)) →
  covered (set_regen (originalHeights <$> terrainChunks t) news newSeed duration t).
Proof.
  intros Hinv Hnews key c Hc. cbn [set_regen terrainChunks _regenOldHeights
    _regenNewHeights] in *.
  destruct (Hinv key c Hc) as [(m & Hm & Hlen) Hh].
  exists m, (originalHeights c),
    ((λ v, generateTerrainHeightWithSeed (vx v) (vz v) newSeed) <$> position m).
  split; [done|]. split; [by rewrite lookup_fmap, Hc|].
  split; [by apply (Hnews key c m)|]. rewrite length_fmap. lia.
Qed.

(** X19.  `regenerateTerrain(newSeed, d)` on a cache whose chunks are
    all materialised returns and starts a transition.  With `d` not zero,
    the next frame (deltaTime `dt`, a streaming pass that neither creates
    nor evicts a chunk) returns and sets the height of every vertex to
    `h + (g - h) * min(1, dt / d)`, where `h` is the chunk's base height
    for the vertex and `g` is `generateTerrainHeightWithSeed(x, z,
    newSeed)` at the vertex's x and z.  If `dt / d >= 1` the frame also
    makes `g` the base height, makes `newSeed` the seed and ends the
    transition; otherwise the base heights and the seed stay and the
    transition stays active. *)
Theorem transition_runs_from_base_heights_to_new_samples
    (t : Terrain) (newSeed : option Z) (d dt : R) (p : Vector3) :
  cacheMaterialized t → d ≠ 0 →
  (∀ key, key ∈ requiredChunks t p ↔ key ∈ dom (terrainChunks t)) →
  let f := Rmin 1 (dt / d) in
  ∃ t1 t2,
    regenerateTerrain t newSeed d = Done t1 ∧
    _regenLerpActive t1 = true ∧ terrainChunks t1 = terrainChunks t ∧
    terrainSeed t1 = terrainSeed t ∧
    update t1 dt p = Done t2 ∧
    (∀ key c m i v h,
        terrainChunks t !! key = Some c → mesh c = Some m →
        position m !! i = Some v → originalHeights c !! i = Some h →
        let g := generateTerrainHeightWithSeed (vx v) (vz v) newSeed in
        ∃ c' m', terrainChunks t2 !! key = Some c' ∧ mesh c' = Some m' ∧
          position m' !! i = Some (mkVertex (vx v) (h + (g - h) * f) (vz v)) ∧
          (1 <= f → originalHeights c' !! i = Some g) ∧
          (f < 1 → originalHeights c' !! i = Some h)) ∧
    (1 <= f → _regenLerpActive t2 = false ∧ terrainSeed t2 = newSeed) ∧
    (f < 1 → _regenLerpActive t2 = true ∧ terrainSeed t2 = terrainSeed t).
Proof.
  intros Hinv Hd Hsame f.
  destruct (regenerateTerrain_prepares t newSeed d Hinv) as (news & Hregen & Hnews).
  set (t1 := set_regen _ news newSeed d t) in *.
  pose proof (regenerateTerrain_covered t newSeed d news Hinv Hnews) as Hcov.
  fold t1 in Hcov.
  assert (Hf : lerpFactor (_regenLerpTime t1 + dt) (_regenLerpDuration t1) = Done f).
  { unfold lerpFactor. cbn [t1 set_regen _regenLerpTime _regenLerpDuration].
    rewrite decide_False by done. unfold f. do 3 f_equal. lra. }
  destruct (update_factor t1 dt f p eq_refl Hcov Hsame Hf)
    as (t2 & Hupd & Hvertex & Hone & Hless).
  exists t1, t2. split; [exact Hregen|]. split; [done|]. split; [done|].
  split; [done|]. split; [exact Hupd|]. split; [|split; [exact Hone|exact Hless]].
  intros key c m i v h Hc Hm Hv Hh g.
  destruct (Hvertex key c m (originalHeights c)
              ((λ v, generateTerrainHeightWithSeed (vx v) (vz v) newSeed) <$> position m)
              i v h g) as (c' & m' & Hc' & Hm' & Hpos & Hfin & Hmid); try done.
  - cbn [t1 set_regen _regenOldHeights]. by rewrite lookup_fmap, Hc.
  - cbn [t1 set_regen _regenNewHeights]. by apply (Hnews key c m).
  - by rewrite list_lookup_fmap, Hv.
  - exists c', m'. split; [done|]. split; [done|]. split; [done|]. split.
    + intros H1. rewrite (Hfin H1). by rewrite list_lookup_fmap, Hv.
    + intros Hlt. by rewrite (Hmid Hlt).
Qed.

(** X20.  A transition of duration 0 ends at the next frame the game
    loop drives: `generateNeighboringPlanes` passes `window.deltaTime`, or
    0.016 when that is missing or zero, so with a `window.deltaTime` that
    is not negative the interpolation factor is 1; the frame returns,
    every vertex is at its new height, the new samples are the base
    heights, the seed is the new seed and the transition is over.  A
    direct `update` with deltaTime 0 instead divides 0 by 0: no vertex
    gets a real height. *)
Theorem zero_duration_transition_ends_at_the_next_frame
    (t : Terrain) (newSeed : option Z) (windowDeltaTime : option R) (p : Vector3) :
  cacheMaterialized t →
  (∀ key, key ∈ requiredChunks t p ↔ key ∈ dom (terrainChunks t)) →
  (∀ d, windowDeltaTime = Some d → 0 <= d) →
  ∃ t1 t2,
    regenerateTerrain t newSeed 0 = Done t1 ∧
    generateNeighboringPlanes t1 windowDeltaTime p = Done t2 ∧
    _regenLerpActive t2 = false ∧ terrainSeed t2 = newSeed ∧
    (∀ key c m i v,
        terrainChunks t !! key = Some c → mesh c = Some m →
        position m !! i = Some v →
        let g := generateTerrainHeightWithSeed (vx v) (vz v) newSeed in
        ∃ c' m', terrainChunks t2 !! key = Some c' ∧ mesh c' = Some m' ∧
          position m' !! i = Some (mkVertex (vx v) g (vz v)) ∧
          originalHeights c' !! i = Some g) ∧
    update t1 0 p = NonReal.
Proof.
  intros Hinv Hsame Hdelta.
  destruct (regenerateTerrain_prepares t newSeed 0 Hinv) as (news & Hregen & Hnews).
  set (t1 := set_regen _ news newSeed 0 t) in *.
  pose proof (regenerateTerrain_covered t newSeed 0 news Hinv Hnews) as Hcov.
  fold t1 in Hcov.
  set (deltaTime := match windowDeltaTime with
                    | Some d => if decide (d = 0) then 0.016 else d
                    | None => 0.016
                    end).
  assert (Hpos : 0 < deltaTime).
  { subst deltaTime. destruct windowDeltaTime as [d|]; [|lra].
    specialize (Hdelta d eq_refl). destruct (decide (d = 0)); lra. }
  assert (Hf : lerpFactor (_regenLerpTime t1 + deltaTime) (_regenLerpDuration t1)
               = Done 1).
  { unfold lerpFactor. cbn [t1 set_regen _regenLerpTime _regenLerpDuration].
    rewrite decide_True by done. rewrite decide_True by lra. done. }
  destruct (update_factor t1 deltaTime 1 p eq_refl Hcov Hsame Hf)
    as (t2 & Hupd & Hvertex & Hone & _).
  destruct (Hone ltac:(lra)) as [Hoff Hseed].
  exists t1, t2. split; [exact Hregen|]. split; [exact Hupd|].
  split; [exact Hoff|]. split; [exact Hseed|]. split.
  - intros key c m i v Hc Hm Hv g.
    destruct (Hinv key c Hc) as [(m0 & Hm0 & Hlen) Hh].
    assert (m0 = m) as -> by congruence.
    destruct (lookup_lt_is_Some_2 (originalHeights c) i) as [h Hi].
    { rewrite Hh, <- Hlen. by eapply lookup_lt_Some. }
    destruct (Hvertex key c m (originalHeights c)
                ((λ v, generateTerrainHeightWithSeed (vx v) (vz v) newSeed) <$> position m)
                i v h g) as (c' & m' & Hc' & Hm' & Hp' & Hfin & _); try done.
    + cbn [t1 set_regen _regenOldHeights]. by rewrite lookup_fmap, Hc.
    + cbn [t1 set_regen _regenNewHeights]. by apply (Hnews key c m).
    + by rewrite list_lookup_fmap, Hv.
    + exists c', m'. split; [done|]. split; [done|]. split.
      * rewrite Hp'. do 2 f_equal. lra.
      * rewrite (Hfin ltac:(lra)). by rewrite list_lookup_fmap, Hv.
  - unfold update. cbv zeta.
    set (t1' := set_wavePhase _ t1).
    assert (Hrun : updateTerrainChunks t1' p = Done t1').
    { apply updateTerrainChunks_settled; [|exact Hsame].
      intros key c Hc. destruct (Hcov key c Hc) as (m & _ & _ & -> & _). done. }
    rewrite Hrun. cbn [bind].
    change (_regenLerpActive (animateTerrainChunks t1')) with true. cbv iota.
    unfold stepLerp. cbv zeta. unfold lerpFactor.
    cbn [_regenLerpTime _regenLerpDuration set_regenLerpTime animateTerrainChunks
         set_terrainChunks t1' set_wavePhase t1 set_regen].
    rewrite decide_True by done. rewrite decide_False by lra.
    rewrite decide_False; [done|].
    intros (key & c3 & Hc3 & Hthrow)%map_Exists_lookup_1.
    change ((animateChunk t1' <$> terrainChunks t) !! key = Some c3) in Hc3.
    change (throws (lerpChunk (originalHeights <$> terrainChunks t) news 0 key c3)
            = true) in Hthrow.
    rewrite lookup_fmap in Hc3.
    destruct (terrainChunks t !! key) as [c|] eqn:Hc; [|done].
    injection Hc3 as <-.
    destruct (Hinv key c Hc) as [(m & Hm & Hlen) Hh].
    destruct (lerpChunk_spec (originalHeights <$> terrainChunks t) news 0 key
                (animateChunk t1' c)
                (mkMesh (animateVertices t1' (originalHeights c) (position m)))
                (originalHeights c)
                ((λ v, generateTerrainHeightWithSeed (vx v) (vz v) newSeed) <$> position m))
      as (c' & m' & Hdone & _).
    + unfold animateChunk. by rewrite Hm.
    + by rewrite lookup_fmap, Hc.
    + by apply (Hnews key c m).
    + rewrite originalHeights_animateChunk. cbn [position].
      rewrite length_animateVertices. lia.
    + by rewrite originalHeights_animateChunk.
    + rewrite originalHeights_animateChunk, length_fmap. lia.
    + by rewrite Hdone in Hthrow.
Qed.

End Generator.

Lemma transition_runs_from_base_heights_to_new_samples_witness :
  let t0 := constructor (Some 7%Z) in
  let origin := mkVector3 0 0 0 in
  ∃ t1 t2 t3,
    @update flatOcean t0 (1 / 60) origin = Done t1 ∧
    @regenerateTerrain flatOcean t1 (Some 9%Z) 2 = Done t2 ∧
    @update flatOcean t2 1 origin = Done t3 ∧
    _regenLerpActive t3 = true ∧ terrainSeed t3 = terrainSeed t1.
Proof.
  intros t0 origin. destruct first_frame as (t1 & Hupd & _ & Hinv & Hsame).
  assert (Hd : (2 : R) ≠ 0) by lra.
  destruct (@transition_runs_from_base_heights_to_new_samples flatOcean
              t1 (Some 9%Z) 2 1 origin Hinv Hd Hsame)
    as (t2 & t3 & Hregen & _ & _ & _ & Hframe & _ & _ & Hmid).
  exists t1, t2, t3. split; [exact Hupd|]. split; [exact Hregen|].
  split; [exact Hframe|]. apply Hmid.
  rewrite Rmin_right by lra. lra.
Defined.

Lemma zero_duration_transition_ends_at_the_next_frame_witness :
  let t0 := constructor (Some 7%Z) in
  let origin := mkVector3 0 0 0 in
  ∃ t1 t2 t3,
    @update flatOcean t0 (1 / 60) origin = Done t1 ∧
    @regenerateTerrain flatOcean t1 (Some 9%Z) 0 = Done t2 ∧
    @generateNeighboringPlanes flatOcean t2 None origin = Done t3 ∧
    _regenLerpActive t3 = false ∧ terrainSeed t3 = Some 9%Z ∧
    @update flatOcean t2 0 origin = NonReal.
Proof.
  intros t0 origin. destruct first_frame as (t1 & Hupd & _ & Hinv & Hsame).
  assert (Hdelta : ∀ d : R, @None R = Some d → 0 <= d) by (by intros d ?).
  destruct (@zero_duration_transition_ends_at_the_next_frame flatOcean
              t1 (Some 9%Z) None origin Hinv Hsame Hdelta)
    as (t2 & t3 & Hregen & Hframe & Hoff & Hseed & _ & Hnan).
  exists t1, t2, t3. repeat split; assumption.
Defined.

End TransitionSpec.

(* ===================================================================== *)
(** * Cached geometry and the grid *)
(* ===================================================================== *)

Module GridSpec.
Import JsNumber UnifiedTerrain UnifiedTerrainSpec CacheSpec.
#[local] Open Scope R_scope.

Section Generator.
Context `{HeightLayers}.

Lemma createTerrainChunk_anchored (t : Terrain) (key : Z * Z) :
  anchoredAt (chunkSize t) (chunkResolution t) key (createTerrainChunk t key.1 key.2).
Proof.
  unfold createTerrainChunk. destruct (truthy (terrainSeed t)).
  - split; [done|]. split; [done|]. intros m x z [= <-] Hx Hz.
    exists (vertexAt t key.1 key.2 x z). split; [|done].
    by apply lookup_chunkVertices.
  - split; [done|]. split; [done|]. by intros m x z ?.
Qed.

Lemma animateChunk_anchored (tw : Terrain) (size : R) (res : nat) (key : Z * Z) (c : Chunk) :
  anchoredAt size res key c → anchoredAt size res key (animateChunk tw c).
Proof.
  intros (Hx & Hz & Hpos). unfold animateChunk.
  destruct (mesh c) as [m|] eqn:Hm; [|by rewrite <- Hm in *].
  split; [done|]. split; [done|]. intros m' x z [= <-] Hxr Hzr.
  destruct (Hpos m x z eq_refl Hxr Hzr) as (v & Hv & Hvx & Hvz).
  destruct (lookup_animateVertices tw (originalHeights c) (position m) _ v Hv)
    as (v' & Hv' & Hx' & Hz').
  exists v'. cbn [position]. split; [done|]. by rewrite Hx', Hz'.
Qed.

Lemma lerpVertices_coordinates (f : R) (n : nat) (olds news : list R)
    (pos pos' : list Vertex) (i : nat) (v : Vertex) :
  lerpVertices f n olds news pos = Done pos' → pos !! i = Some v →
  ∃ v', pos' !! i = Some v' ∧ vx v' = vx v ∧ vz v' = vz v.
Proof.
  revert olds news pos pos' i.
  induction n as [|n IH]; intros olds news pos pos' i; simpl.
  - intros [= <-] Hv. by exists v.
  - destruct pos as [|v0 vs]; [by intros _ ?|].
    destruct olds as [|o os]; [done|]. destruct news as [|nw ns]; [done|].
    destruct (lerpVertices f n os ns vs) as [vs'| |] eqn:Hvs; simpl; [|done|done].
    intros [= <-] Hv. destruct i as [|i]; simpl in *.
    + injection Hv as ->. by eexists.
    + by eapply IH.
Qed.

Lemma lerpChunk_anchored (olds news : gmap (Z * Z) (list R)) (f : R)
    (size : R) (res : nat) (key : Z * Z) (c c' : Chunk) :
  anchoredAt size res key c → lerpChunk olds news f key c = Done c' →
  anchoredAt size res key c'.
Proof.
  intros (Hx & Hz & Hpos). unfold lerpChunk.
  destruct (mesh c) as [m|] eqn:Hm; [|done].
  destruct (originalHeights c) as [|h hs] eqn:Hhs.
  { intros [= <-]. split; [done|]. split; [done|]. by rewrite Hm. }
  destruct (olds !! key) as [o|]; [|done]. destruct (news !! key) as [nw|]; [|done].
  destruct (lerpVertices _ _ _ _ _) as [pos'| |] eqn:Hlerp; simpl; [|done|done].
  intros [= <-]. split; [done|]. split; [done|]. intros m' x z [= <-] Hxr Hzr.
  destruct (Hpos m x z eq_refl Hxr Hzr) as (v & Hv & Hvx & Hvz).
  destruct (lerpVertices_coordinates _ _ _ _ _ _ _ v Hlerp Hv) as (v' & Hv' & Hx' & Hz').
  exists v'. cbn [position]. split; [done|]. by rewrite Hx', Hz'.
Qed.

Lemma adoptChunk_anchored (news : gmap (Z * Z) (list R))
    (size : R) (res : nat) (key : Z * Z) (c c' : Chunk) :
  anchoredAt size res key c → adoptChunk news key c = Done c' →
  anchoredAt size res key c'.
Proof.
  intros Hc. unfold adoptChunk.
  destruct (originalHeights c) as [|h hs]; [by intros [= <-]|].
  destruct (news !! key) as [nw|]; [|done]. case_decide; [|done].
  by intros [= <-].
Qed.

Lemma forChunks_anchored (f : Z * Z → Chunk → Outcome Chunk) (size : R) (res : nat)
    (m m' : gmap (Z * Z) Chunk) :
  (∀ key c c', anchoredAt size res key c → f key c = Done c' →
               anchoredAt size res key c') →
  (∀ key c, m !! key = Some c → anchoredAt size res key c) →
  forChunks f m = Done m' →
  ∀ key c', m' !! key = Some c' → anchoredAt size res key c'.
Proof.
  intros Hf Hm Hrun key c' Hc'.
  pose proof (forChunks_returns f m m' key Hrun) as Hk.
  destruct (m !! key) as [c|] eqn:Hc; [|congruence].
  destruct Hk as (c'' & Hfc & Hm'). assert (c'' = c') as -> by congruence.
  eapply Hf; [|done]. by eapply Hm.
Qed.

Lemma updateTerrainChunks_anchored (t t' : Terrain) (p : Vector3) :
  anchored t → updateTerrainChunks t p = Done t' → sameGrid t t' ∧ anchored t'.
Proof.
  intros Hinv Hrun.
  pose proof (updateTerrainChunks_config t p t' Hrun) as Hcfg.
  assert (Hgrid : sameGrid t t') by (by rewrite Hcfg).
  split; [done|]. destruct Hgrid as (Hs & Hr & _).
  intros key c Hc. rewrite Hs, Hr.
  rewrite (updateTerrainChunks_lookup t p t' key Hrun) in Hc.
  case_decide; [|done]. destruct (terrainChunks t !! key) as [c0|] eqn:Hc0.
  - injection Hc as <-. by apply Hinv.
  - injection Hc as <-. apply createTerrainChunk_anchored.
Qed.

Lemma animateTerrainChunks_anchored (t : Terrain) :
  anchored t → anchored (animateTerrainChunks t).
Proof.
  intros Hinv key c. unfold animateTerrainChunks. simpl.
  rewrite lookup_fmap. destruct (terrainChunks t !! key) as [c0|] eqn:Hc0; [|done].
  intros [= <-]. apply animateChunk_anchored. by apply Hinv.
Qed.

Lemma stepLerp_anchored (t t' : Terrain) (deltaTime : R) :
  anchored t → stepLerp t deltaTime = Done t' → sameGrid t t' ∧ anchored t'.
Proof.
  intros Hinv. unfold stepLerp. cbv zeta.
  destruct (lerpFactor _ _) as [f| |]; [|by case_decide|by case_decide].
  destruct (forChunks _ _) as [chunks| |] eqn:Hrun; simpl; [|done|done].
  assert (Hchunks : ∀ key c, chunks !! key = Some c →
            anchoredAt (chunkSize t) (chunkResolution t) key c).
  { eapply forChunks_anchored; [|exact Hinv|exact Hrun].
    intros k c0 c'. apply lerpChunk_anchored. }
  case_decide.
  - unfold finishLerp. simpl.
    destruct (forChunks _ chunks) as [chunks'| |] eqn:Hfin; simpl; [|done|done].
    intros [= <-]. split; [done|]. intros key c. simpl.
    eapply forChunks_anchored; [|exact Hchunks|exact Hfin].
    intros k c0 c'. apply adoptChunk_anchored.
  - intros [= <-]. split; [done|]. intros key c. simpl. apply Hchunks.
Qed.

Lemma update_anchored (t t' : Terrain) (deltaTime : R) (p : Vector3) :
  anchored t → update t deltaTime p = Done t' → sameGrid t t' ∧ anchored t'.
Proof.
  intros Hinv. unfold update. cbv zeta.
  destruct (updateTerrainChunks _ p) as [t2| |] eqn:Hrun; simpl; [|done|done].
  assert (Hinv1 : anchored (set_wavePhase (wavePhase t + deltaTime * waveSpeed t) t))
    by exact Hinv.
  destruct (updateTerrainChunks_anchored _ t2 p Hinv1 Hrun) as [(Hs & Hr & Hd) Hinv2].
  simpl in Hs, Hr, Hd.
  apply animateTerrainChunks_anchored in Hinv2.
  destruct (_regenLerpActive t2).
  - intros Hstep.
    destruct (stepLerp_anchored _ _ _ Hinv2 Hstep) as [(Hs' & Hr' & Hd') Hinv'].
    simpl in Hs', Hr', Hd'. split; [|done]. split; [|split]; congruence.
  - intros [= <-]. split; [|done]. split; [|split]; simpl; congruence.
Qed.

Lemma history_anchored (t : Terrain) :
  history t →
  chunkSize t = 200 ∧ chunkResolution t = 32%nat ∧ renderDistance t = 3200 ∧
  anchored t.
Proof.
  induction 1 as [seed | t t' c Hhist (Hs & Hr & Hd & IH) Hrun].
  - split; [done|]. split; [done|]. split; [done|].
    intros key c. simpl. by rewrite lookup_empty.
  - assert (Hstep : sameGrid t t' ∧ anchored t').
    { destruct c as [dt p | p | | newSeed d | seed d | seed d]; cbn [perform] in Hrun.
      - by apply (update_anchored t t' dt p).
      - by apply (updateTerrainChunks_anchored t t' p).
      - injection Hrun as <-. split; [done|]. by apply animateTerrainChunks_anchored.
      - destruct (regenerateTerrain_chunks _ _ _ _ Hrun) as [Hc Hres].
        assert (Hgrid : sameGrid t t').
        { revert Hrun. unfold regenerateTerrain. cbv zeta.
          case_decide; [done|]. case_decide; [done|]. by intros [= <-]. }
        split; [done|]. destruct Hgrid as (Hs' & Hr' & _).
        intros key c. rewrite Hc, Hs', Hr'. apply IH.
      - destruct (setTerrainSeedAndRegenerate_returns t seed d) as [Heq _].
        rewrite Heq in Hrun. injection Hrun as <-. split; [done|].
        intros key c. simpl. by rewrite lookup_empty.
      - destruct (setTerrainSeedAndRegenerate_returns t seed d) as [_ Heq].
        rewrite Heq in Hrun. injection Hrun as <-. split; [done|].
        intros key c. simpl. by rewrite lookup_empty. }
    destruct Hstep as [(Hs' & Hr' & Hd') Hinv].
    split; [congruence|]. split; [congruence|]. split; [congruence|]. done.
Qed.

(** X21.  Whatever calls a generator has served (frames, streaming
    passes, animation, regeneration, seed changes, with any seed), as long
    as each returned: the chunk size is 200, the resolution 32 and the
    render distance 3200; a chunk cached under the key of `(cx, cz)`
    carries these indices; and if it has a mesh, its vertex `(x, z)` (at
    index `z * 33 + x`) has the world coordinates `cx * 200 + x * 6.25 -
    100` and `cz * 200 + z * 6.25 - 100`: only heights ever change.  So
    the last column of a cached chunk and the first column of its cached
    neighbour along x coincide in x and z. *)
Theorem cached_vertices_stay_on_the_grid (t : Terrain) :
  history t →
  chunkSize t = 200 ∧ chunkResolution t = 32%nat ∧ renderDistance t = 3200 ∧
  (∀ cx cz c, terrainChunks t !! (cx, cz) = Some c →
     chunkX c = cx ∧ chunkZ c = cz ∧
     ∀ m x z, mesh c = Some m → (x ≤ 32)%nat → (z ≤ 32)%nat →
       ∃ v, position m !! (z * 33 + x)%nat = Some v ∧
            vx v = IZR cx * 200 + INR x * 6.25 - 100 ∧
            vz v = IZR cz * 200 + INR z * 6.25 - 100) ∧
  (∀ cx cz a b ma mb z,
     terrainChunks t !! (cx, cz) = Some a → terrainChunks t !! ((cx + 1)%Z, cz) = Some b →
     mesh a = Some ma → mesh b = Some mb → (z ≤ 32)%nat →
     ∃ va vb, position ma !! (z * 33 + 32)%nat = Some va ∧
              position mb !! (z * 33 + 0)%nat = Some vb ∧
              vx va = vx vb ∧ vz va = vz vb).
Proof.
  intros Hhist. destruct (history_anchored t Hhist) as (Hs & Hr & Hd & Hinv).
  assert (H32 : INR 32 = 32) by (simpl; lra).
  assert (Hgrid : ∀ cx cz c, terrainChunks t !! (cx, cz) = Some c →
     chunkX c = cx ∧ chunkZ c = cz ∧
     ∀ m x z, mesh c = Some m → (x ≤ 32)%nat → (z ≤ 32)%nat →
       ∃ v, position m !! (z * 33 + x)%nat = Some v ∧
            vx v = IZR cx * 200 + INR x * 6.25 - 100 ∧
            vz v = IZR cz * 200 + INR z * 6.25 - 100).
  { intros cx cz c Hc. destruct (Hinv _ c Hc) as (Hx & Hz & Hpos).
    rewrite Hs, Hr in Hpos. split; [done|]. split; [done|].
    intros m x z Hm Hxr Hzr.
    destruct (Hpos m x z Hm Hxr Hzr) as (v & Hv & Hvx & Hvz).
    exists v. split; [done|]. rewrite Hvx, Hvz. unfold gridCoordinate.
    cbn [fst snd]. rewrite H32. lra. }
  split; [done|]. split; [done|]. split; [done|]. split; [exact Hgrid|].
  intros cx cz a b ma mb z Ha Hb Hma Hmb Hz.
  destruct (Hgrid _ _ a Ha) as (_ & _ & Hpa).
  destruct (Hgrid _ _ b Hb) as (_ & _ & Hpb).
  destruct (Hpa ma 32%nat z Hma ltac:(lia) Hz) as (va & Hva & Hxa & Hza).
  destruct (Hpb mb 0%nat z Hmb ltac:(lia) Hz) as (vb & Hvb & Hxb & Hzb).
  exists va, vb. split; [done|]. split; [done|].
  rewrite Hxa, Hza, Hxb, Hzb, H32, plus_IZR. simpl. lra.
Qed.

End Generator.

Lemma cached_vertices_stay_on_the_grid_witness :
  let t0 := constructor (Some 7%Z) in
  ∃ t1, @update flatOcean t0 (1 / 60) (mkVector3 0 0 0) = Done t1 ∧
        chunkSize t1 = 200 ∧
        ∀ cx cz c, terrainChunks t1 !! (cx, cz) = Some c →
                   chunkX c = cx ∧ chunkZ c = cz.
Proof.
  intros t0. destruct first_frame as (t1 & Hupd & Hhist & _ & _).
  destruct (@cached_vertices_stay_on_the_grid flatOcean t1 Hhist)
    as (Hs & _ & _ & Hgrid & _).
  exists t1. split; [exact Hupd|]. split; [exact Hs|].
  intros cx cz c Hc. destruct (Hgrid cx cz c Hc) as (Hx & Hz & _). by split.
Defined.

End GridSpec.

(* ===================================================================== *)
(** * Where the seed comes from *)
(* ===================================================================== *)

Module SeedSpec.
Import JsNumber UnifiedTerrain TerrainGenerator Game UnifiedTerrainSpec.
#[local] Open Scope R_scope.

(** X22.  A generator built while `window.globalTerrainSeed` is missing
    or zero draws its seed: an integer from 0 to 999999999, which is the
    unusable seed 0 exactly when `Math.random()` returned less than 1e-9.
    A truthy global seed is taken as it is.  Either way the generator
    starts with an empty cache and no transition. *)
Theorem constructor_seed_is_zero_only_on_a_tiny_draw
    (windowGlobalTerrainSeed : option Z) (mathRandom : R) :
  0 <= mathRandom < 1 →
  let t := newUnifiedTerrain windowGlobalTerrainSeed mathRandom in
  (truthy windowGlobalTerrainSeed = true → terrainSeed t = windowGlobalTerrainSeed) ∧
  (truthy windowGlobalTerrainSeed = false →
     ∃ seed, terrainSeed t = Some seed ∧ (0 ≤ seed < 1000000000)%Z ∧
             (seed = 0%Z ↔ mathRandom < 1 / 1000000000)) ∧
  (truthy (terrainSeed t) = false ↔
     truthy windowGlobalTerrainSeed = false ∧ mathRandom < 1 / 1000000000) ∧
  terrainChunks t = ∅ ∧ _regenLerpActive t = false.
Proof.
  intros Hr t. subst t. unfold newUnifiedTerrain, globalTerrainSeedFor.
  cbn [constructor terrainSeed terrainChunks _regenLerpActive].
  set (seed := floor (mathRandom * 1000000000)).
  assert (Hseed : (0 ≤ seed < 1000000000)%Z ∧
                  (seed = 0%Z ↔ mathRandom < 1 / 1000000000)).
  { destruct (base_Int_part (mathRandom * 1000000000)) as [Hlo Hhi].
    fold (floor (mathRandom * 1000000000)) in Hlo, Hhi. fold seed in Hlo, Hhi.
    assert (Hnonneg : (0 ≤ seed)%Z).
    { apply Z.lt_succ_r. apply lt_IZR. rewrite succ_IZR. lra. }
    assert (Hbelow : (seed < 1000000000)%Z) by (apply lt_IZR; lra).
    split; [lia|]. split.
    - intros Hz. rewrite Hz in Hhi. lra.
    - intros Hsmall. assert ((seed < 1)%Z) by (apply lt_IZR; lra). lia. }
  destruct (truthy windowGlobalTerrainSeed) eqn:Hw.
  - split; [done|]. split; [done|]. split; [|done].
    rewrite Hw. split; [done|]. by intros [? _].
  - split; [done|]. split; [intros _; by exists seed|]. split; [|done].
    cbn [truthy]. destruct Hseed as [_ Hzero]. split.
    + intros Hz. split; [done|]. apply Hzero.
      apply negb_false_iff in Hz. by apply Z.eqb_eq in Hz.
    + intros [_ Hsmall]. apply negb_false_iff, Z.eqb_eq. by apply Hzero.
Qed.

Lemma constructor_seed_is_zero_only_on_a_tiny_draw_witness :
  ∃ seed, terrainSeed (newUnifiedTerrain None (1 / 2)) = Some seed ∧
          (0 ≤ seed < 1000000000)%Z ∧ (seed = 0%Z ↔ 1 / 2 < 1 / 1000000000).
Proof.
  assert (Hr : 0 <= 1 / 2 < 1) by lra.
  exact (proj1 (proj2 (constructor_seed_is_zero_only_on_a_tiny_draw None (1 / 2) Hr))
               eq_refl).
Defined.

Section Generator.
Context `{HeightLayers}.

(** X23.  When the host's seed arrives (`receiveHostTerrainSeed`, which
    passes duration 0) at a generator that is not in a transition, the
    cache is emptied and the seed replaced; if the seed is not zero, the
    next frame of the game loop returns and rebuilds the whole streaming
    disc from it: the cached keys are the required ones, and each cached
    chunk has a mesh whose vertex `(x, z)` sits at its grid point and
    whose base height there is `generateTerrainHeight` under the host's
    seed. *)
Theorem host_seed_rebuilds_the_cache_at_the_next_frame
    (t : Terrain) (hostSeed : option Z) (windowDeltaTime : option R) (p : Vector3) :
  _regenLerpActive t = false → truthy hostSeed = true →
  ∃ t1 t2,
    receiveHostTerrainSeed (Some t) hostSeed = Done (Some t1) ∧
    terrainChunks t1 = ∅ ∧ terrainSeed t1 = hostSeed ∧
    generateNeighboringPlanes t1 windowDeltaTime p = Done t2 ∧
    terrainSeed t2 = hostSeed ∧ _regenLerpActive t2 = false ∧
    (∀ key, key ∈ dom (terrainChunks t2) ↔ key ∈ requiredChunks t p) ∧
    (∀ key, key ∈ requiredChunks t p →
       ∃ c m, terrainChunks t2 !! key = Some c ∧ mesh c = Some m ∧
         ∀ x z, (x ≤ chunkResolution t)%nat → (z ≤ chunkResolution t)%nat →
           let px := gridCoordinate (chunkSize t) (chunkResolution t) key.1 x in
           let pz := gridCoordinate (chunkSize t) (chunkResolution t) key.2 z in
           let i := (z * S (chunkResolution t) + x)%nat in
           ∃ v, position m !! i = Some v ∧ vx v = px ∧ vz v = pz ∧
                originalHeights c !! i = Some (generateTerrainHeight hostSeed px pz)).
Proof.
  intros Hidle Hseed.
  set (t1 := set_terrainSeed hostSeed (set_terrainChunks ∅ t)).
  assert (Hrecv : receiveHostTerrainSeed (Some t) hostSeed = Done (Some t1)).
  { unfold receiveHostTerrainSeed.
    destruct (setTerrainSeedAndRegenerate_returns t hostSeed 0) as [_ ->]. done. }
  set (deltaTime := match windowDeltaTime with
                    | Some d => if decide (d = 0) then 0.016 else d
                    | None => 0.016
                    end).
  assert (Hinv : cacheMaterialized t1).
  { intros key c Hc. simpl in Hc. by rewrite lookup_empty in Hc. }
  destruct (update_idle t1 deltaTime p Hidle Hseed Hinv) as (s & Hstream & Hupd).
  set (t1' := set_wavePhase (wavePhase t1 + deltaTime * waveSpeed t1) t1) in *.
  pose proof (updateTerrainChunks_config t1' p s Hstream) as Hcfg.
  exists t1, (animateTerrainChunks s).
  split; [exact Hrecv|]. split; [done|]. split; [done|]. split; [exact Hupd|].
  split; [by rewrite Hcfg|]. split; [by rewrite Hcfg|]. split.
  { intros key. rewrite (update_dom t1 _ deltaTime p key Hupd). done. }
  intros key Hreq.
  pose proof (updateTerrainChunks_lookup t1' p s key Hstream) as Hk.
  rewrite decide_True in Hk by exact Hreq.
  change (terrainChunks t1') with (∅ : gmap (Z * Z) Chunk) in Hk.
  rewrite lookup_empty in Hk.
  change (createTerrainChunk t1' key.1 key.2) with (createTerrainChunk t1 key.1 key.2) in Hk.
  rewrite createTerrainChunk_seeded in Hk by exact Hseed.
  eexists _, _. split.
  { unfold animateTerrainChunks. cbn [terrainChunks set_terrainChunks].
    rewrite lookup_fmap, Hk. reflexivity. }
  unfold animateChunk. cbn [mesh originalHeights position chunkX chunkZ].
  split; [done|]. cbv zeta. intros x z Hx Hz. cbn [position].
  pose proof (lookup_chunkVertices t1 key.1 key.2 x z Hx Hz) as Hv.
  change (chunkResolution t1) with (chunkResolution t) in Hv.
  destruct (lookup_animateVertices s (vy <$> chunkVertices t1 key.1 key.2)
              (chunkVertices t1 key.1 key.2) _ _ Hv) as (v' & Hv' & Hx' & Hz').
  exists v'. split; [exact Hv'|]. split; [by rewrite Hx'|]. split; [by rewrite Hz'|].
  rewrite list_lookup_fmap, Hv. done.
Qed.

End Generator.

Lemma host_seed_rebuilds_the_cache_at_the_next_frame_witness :
  let t0 := constructor (Some 7%Z) in
  ∃ t1 t2,
    @receiveHostTerrainSeed flatOcean (Some t0) (Some 9%Z) = Done (Some t1) ∧
    @generateNeighboringPlanes flatOcean t1 None (mkVector3 0 0 0) = Done t2 ∧
    terrainSeed t2 = Some 9%Z.
Proof.
  intros t0.
  destruct (@host_seed_rebuilds_the_cache_at_the_next_frame flatOcean
              t0 (Some 9%Z) None (mkVector3 0 0 0) eq_refl eq_refl)
    as (t1 & t2 & Hrecv & _ & _ & Hframe & Hseed & _).
  exists t1, t2. repeat split; assumption.
Defined.

End SeedSpec.
